(** * MostestClosestNeighbour: a shallow embedding of [main.py]

    The program is a small N-body simulation: a star and its planets attract
    each other by Newtonian gravity, one semi-implicit Euler step per tick,
    every planet keeps a bounded trail of past positions, and the driver
    tallies which planet is closest to Earth.

    Modelling decisions.
    - Python objects are mutable and compared by identity ([==] is not
      overridden), so objects live in a store [gmap loc object] and lists of
      bodies are lists of locations.  Aliasing is therefore explicit.
    - Python [float]s are read as exact real numbers ([R]); [math.inf] is an
      extra top element ([PInf]).  Rounding, overflow and NaN are outside
      this reading.  Python [int]s are [Z].
    - Where a square can underflow or overflow the reading as reals hides
      what the program does.  The module [Binary64] follows the force
      computation and the nearest-neighbour search on IEEE 754 binary64
      numbers, the floats of CPython.
    - Exceptions are an error result ([Raise]); a statement that raises
      aborts the computation.
    - [math.dist], [math.atan2], [math.cos], [math.sin] are the mathematical
      functions of the same name. *)

From Stdlib Require Floats.
From Stdlib Require Import Reals Lra Lia ZArith Ascii String DecimalString.
From stdpp Require Import gmap list fin_maps.

#[global] Set Warnings "-clear-no-such-hyp".
#[global] Set Warnings "-inexact-float".

(** ** Results and exceptions *)

Inductive exn : Set :=
  | ZeroDivisionError   (* a float division whose divisor is zero *)
  | OverflowError       (* a float power whose result is out of range *)
  | KeyError            (* a dict subscript whose key is absent *)
  | AttributeError      (* a method or field the object does not have *)
  | Dangling.           (* a location outside the store; never in Python *)

Inductive result (A : Type) : Type :=
  | Ok (a : A)
  | Raise (e : exn).
Arguments Ok {A} a.
Arguments Raise {A} e.

Definition bind {A B} (m : result A) (k : A -> result B) : result B :=
  match m with
  | Ok a => k a
  | Raise e => Raise e
  end.

#[global] Instance result_ret : MRet result := @Ok.
#[global] Instance result_bind : MBind result := fun A B k m => bind m k.

(** ** Numbers *)

Local Open Scope R_scope.

(** [math.inf] and the finite floats. *)
Inductive xreal : Set :=
  | Fin (r : R)
  | PInf.

(** [a < b] where [a] is finite and [b] may be [math.inf]. *)
Definition lt_x (a : R) (b : xreal) : bool :=
  match b with
  | Fin r => if Rlt_dec a r then true else false
  | PInf => true
  end.

(** [int(x)]: truncation towards zero. *)
Definition py_int (r : R) : Z :=
  if Rle_dec 0 r then Zfloor r else (- Zfloor (- r))%Z.

(** [a / b] on floats. *)
Definition py_div (a b : R) : result R :=
  if Req_dec_T b 0 then Raise ZeroDivisionError else Ok (a / b).

(** [math.dist(p, q)] for two-dimensional points. *)
Definition dist (p q : R * R) : R :=
  sqrt ((p.1 - q.1) ^ 2 + (p.2 - q.2) ^ 2).

(** [math.atan2(y, x)]: the angle of the point [(x, y)], in (-pi, pi]. *)
Definition atan2 (y x : R) : R :=
  if Rlt_dec 0 x then atan (y / x)
  else if Rlt_dec x 0 then
    if Rle_dec 0 y then atan (y / x) + PI else atan (y / x) - PI
  else if Rlt_dec 0 y then PI / 2
  else if Rlt_dec y 0 then - (PI / 2)
  else 0.

(** [l[i:]]: a negative [i] counts from the end, and the bounds are clipped. *)
Definition slice_from {A} (i : Z) (l : list A) : list A :=
  let n := Z.of_nat (length l) in
  let start := if (i <? 0)%Z then Z.max (n + i) 0 else Z.min i n in
  drop (Z.to_nat start) l.

(** ** Constants *)

Definition AU : R := 1496 * 10 ^ 8.
Definition G : R := 667428 / 10 ^ 16.
Definition WIDTH : Z := 800.
Definition HEIGHT : Z := 800.
Definition SCALE : R := 200 / AU.
Definition TIME_STEP : R := 60 * 60 * 24.
Definition FPS : Z := 60.

Inductive Color : Set := WHITE | BLACK | YELLOW | GRAY | ORANGE | BLUE | RED.

(** ** Objects and the store *)

(** Object identities. *)
Abbreviation loc := nat (only parsing).

(** The fields set by [CelestialObject.__init__]. *)
Record CelestialObject : Type := mkCelestialObject {
  name : string;
  radius : Z;
  color : Color;
  mass : R;
  x : R;
  y : R;
  x_vel : R;
  y_vel : R
}.

(** The fields [Planet.__init__] adds. *)
Record PlanetFields : Type := mkPlanetFields {
  orbit : list (R * R);
  parent_star : loc;
  distance_to_parent : R
}.

(** An object: its base fields and, for an instance of [Planet], the
    planet fields. *)
Record object : Type := mkObject {
  base : CelestialObject;
  planet : option PlanetFields
}.

Definition heap := gmap loc object.

Definition deref (h : gmap loc object) (l : loc) : result object :=
  match h !! l with
  | Some o => Ok o
  | None => Raise Dangling
  end.

(** ** CelestialObject *)

Definition with_position (b : CelestialObject) (x' y' : R) : CelestialObject :=
  mkCelestialObject (name b) (radius b) (color b) (mass b) x' y' (x_vel b) (y_vel b).

Definition with_velocity (b : CelestialObject) (xv yv : R) : CelestialObject :=
  mkCelestialObject (name b) (radius b) (color b) (mass b) (x b) (y b) xv yv.

Definition with_base (o : object) (b : CelestialObject) : object :=
  mkObject b (planet o).

Definition set_position (h : gmap loc object) (self : loc) (x' y' : R)
  : result (gmap loc object) :=
  o ← deref h self;
  Ok (<[self := with_base o (with_position (base o) x' y')]> h).

Definition set_velocity (h : gmap loc object) (self : loc) (xv yv : R)
  : result (gmap loc object) :=
  o ← deref h self;
  Ok (<[self := with_base o (with_velocity (base o) xv yv)]> h).

Definition get_position (b : CelestialObject) : R * R := (x b, y b).

Definition calculate_distance_vectors (self other_body : CelestialObject) : R * R :=
  let '(other_x, other_y) := get_position other_body in
  let distance_x := other_x - x self in
  let distance_y := other_y - y self in
  (distance_x, distance_y).

Definition calculate_force_vectors (self other_body : CelestialObject)
  : result (R * R) :=
  let '(distance_x, distance_y) := calculate_distance_vectors self other_body in
  let distance := dist (get_position self) (get_position other_body) in
  force ← py_div (G * mass self * mass other_body) (distance ^ 2);
  let theta := atan2 distance_y distance_x in
  let force_x := cos theta * force in
  let force_y := sin theta * force in
  Ok (force_x, force_y).

(** [CelestialObject.__init__]: a new object at a fresh location. *)
Definition alloc (h : gmap loc object) (o : object) : gmap loc object * loc :=
  let l := fresh (dom h) in (<[l := o]> h, l).

Definition CelestialObject_init (h : gmap loc object) (name : string) (radius : Z)
    (color : Color) (mass : R) (position velocity : R * R)
  : gmap loc object * loc :=
  alloc h (mkObject (mkCelestialObject name radius color mass
                       position.1 position.2 velocity.1 velocity.2) None).

(** [self.calculate_force_vectors(body)] on two objects of the store. *)
Definition force_on (h : gmap loc object) (self body : loc) : result (R * R) :=
  s ← deref h self;
  o ← deref h body;
  calculate_force_vectors (base s) (base o).

(** The [for body in bodies] loop of [update_position]; [total] is
    [(total_fx, total_fy)]. *)
Fixpoint total_force (h : gmap loc object) (self : loc) (bodies : list loc)
    (total : R * R) : result (R * R) :=
  match bodies with
  | [] => Ok total
  | body :: rest =>
      if decide (self = body) then total_force h self rest total
      else
        f ← force_on h self body;
        total_force h self rest (total.1 + f.1, total.2 + f.2)
  end.

Definition CelestialObject_update_position (h : gmap loc object) (self : loc)
    (bodies : list loc) : result (gmap loc object) :=
  total ← total_force h self bodies (0, 0);
  o ← deref h self;
  let b := base o in
  ax ← py_div total.1 (mass b);
  let x_vel' := x_vel b + ax * TIME_STEP in
  ay ← py_div total.2 (mass b);
  let y_vel' := y_vel b + ay * TIME_STEP in
  let x' := x b + x_vel' * TIME_STEP in
  let y' := y b + y_vel' * TIME_STEP in
  Ok (<[self := with_base o
          (mkCelestialObject (name b) (radius b) (color b) (mass b)
             x' y' x_vel' y_vel')]> h).

(** ** Planet *)

Definition Planet_init (h : gmap loc object) (name : string) (parent_star : loc)
    (radius : Z) (color : Color) (mass : R) (position velocity : R * R)
  : result (gmap loc object * loc) :=
  let b := mkCelestialObject name radius color mass
             position.1 position.2 velocity.1 velocity.2 in
  star ← deref h parent_star;
  let d := dist (get_position b) (get_position (base star)) in
  Ok (alloc h (mkObject b (Some (mkPlanetFields [] parent_star d)))).

(** Lines 144-145: [if len(orbit) > tail_length: orbit = orbit[-tail_length:]]. *)
Definition truncate {A} (tail_length : Z) (orbit : list A) : list A :=
  if (tail_length <? Z.of_nat (length orbit))%Z
  then slice_from (- tail_length) orbit
  else orbit.

Definition Planet_update_position (h : gmap loc object) (self : loc)
    (bodies : list loc) : result (gmap loc object) :=
  h1 ← CelestialObject_update_position h self bodies;
  o ← deref h1 self;
  match planet o with
  | None => Raise AttributeError
  | Some pf =>
      star ← deref h1 (parent_star pf);
      let d := dist (get_position (base o)) (get_position (base star)) in
      let orbit1 := orbit pf ++ [(x (base o), y (base o))] in
      let tail_length := py_int (d * SCALE) in
      let orbit2 := truncate tail_length orbit1 in
      Ok (<[self := mkObject (base o)
              (Some (mkPlanetFields orbit2 (parent_star pf) d))]> h1)
  end.

(** [body.update_position(bodies)]: the method of the object's class. *)
Definition update_position (h : gmap loc object) (self : loc) (bodies : list loc)
  : result (gmap loc object) :=
  o ← deref h self;
  match planet o with
  | Some _ => Planet_update_position h self bodies
  | None => CelestialObject_update_position h self bodies
  end.

(** ** SolarSystem *)

Record SolarSystem : Type := mkSolarSystem {
  ss_name : string;
  star : loc;
  planets : list loc
}.

(** The [for planet in self.planets] loop of [update_positions]. *)
Fixpoint update_planets (h : gmap loc object) (bodies : list loc)
    (ps : list loc) : result (gmap loc object) :=
  match ps with
  | [] => Ok h
  | p :: rest =>
      h1 ← update_position h p bodies;
      update_planets h1 bodies rest
  end.

Definition update_positions (h : gmap loc object) (self : SolarSystem)
  : result (gmap loc object) :=
  h0 ← update_position h (star self) (planets self);
  let bodies := star self :: planets self in
  update_planets h0 bodies (planets self).

(** ** Nearest neighbour *)

(** The loop of [mostest_closest_neighbour]. *)
Fixpoint closest_loop (h : gmap loc object) (planet : loc)
    (other_planets : list loc) (closest_neighbour : option loc)
    (closest_distance : xreal) : result (option loc) :=
  match other_planets with
  | [] => Ok closest_neighbour
  | other_planet :: rest =>
      if decide (other_planet = planet)
      then closest_loop h planet rest closest_neighbour closest_distance
      else
        p ← deref h planet;
        o ← deref h other_planet;
        let distance := dist (get_position (base p)) (get_position (base o)) in
        if lt_x distance closest_distance
        then closest_loop h planet rest (Some other_planet) (Fin distance)
        else closest_loop h planet rest closest_neighbour closest_distance
  end.

Definition mostest_closest_neighbour (h : gmap loc object) (planet : loc)
    (other_planets : list loc) : result (option loc) :=
  closest_loop h planet other_planets None PInf.

(** ** The driver, [run_simulation] *)

(** The names bound before the loop of [run_simulation]. *)
Record scenario : Type := mkScenario {
  sun : loc;
  mercury : loc;
  venus : loc;
  earth : loc;
  mars : loc;
  all_planets : list loc;
  solar_system : SolarSystem
}.

(** The variables the loop changes. *)
Record sim_state : Type := mkSimState {
  store : gmap loc object;
  count : Z;
  closest_count : gmap loc Z
}.

(** [{planet: 0 for planet in planets if planet != earth}] *)
Definition initial_counts (planets : list loc) (earth : loc) : gmap loc Z :=
  foldl (fun d planet => if decide (planet <> earth) then <[planet := 0%Z]> d else d)
        ∅ planets.

(** Lines 193-217: the bodies, the system and the counters. *)
Definition setup : result (scenario * sim_state) :=
  let '(h, sun) :=
    CelestialObject_init ∅ "Sun" 16 YELLOW (198892 / 100000 * 10 ^ 30) (0, 0) (0, 0) in
  h ← set_position h sun 0 0;
  '(h, mercury) ← Planet_init h "Mercury" sun 4 GRAY (330 / 100 * 10 ^ 23) (0, 0) (0, 0);
  h ← set_position h mercury (387 / 1000 * AU) 0;
  h ← set_velocity h mercury 0 47400;
  '(h, venus) ← Planet_init h "Venus" sun 5 ORANGE (48685 / 10000 * 10 ^ 24) (0, 0) (0, 0);
  h ← set_position h venus (- (723 / 1000) * AU) 0;
  h ← set_velocity h venus 0 (- 35020);
  '(h, earth) ← Planet_init h "Earth" sun 5 BLUE (59742 / 10000 * 10 ^ 24) (0, 0) (0, 0);
  h ← set_position h earth (1 * AU) 0;
  h ← set_velocity h earth 0 29783;
  '(h, mars) ← Planet_init h "Mars" sun 4 RED (639 / 100 * 10 ^ 23) (0, 0) (0, 0);
  h ← set_position h mars (- (1524 / 1000) * AU) 0;
  h ← set_velocity h mars 0 (- 24077);
  let planets := [mercury; venus; earth; mars] in
  let solar_system := mkSolarSystem "The Solar System" sun planets in
  Ok (mkScenario sun mercury venus earth mars planets solar_system,
      mkSimState h 0 (initial_counts planets earth)).

(** [closest_count[closest_planet] += 1]; [None] is a key of no dict here. *)
Definition increment (d : gmap loc Z) (key : option loc) : result (gmap loc Z) :=
  match key with
  | None => Raise KeyError
  | Some k =>
      match d !! k with
      | Some v => Ok (<[k := (v + 1)%Z]> d)
      | None => Raise KeyError
      end
  end.

(** The number [format_percentage] prints:
    [closest_count[planet] / count * 100]. *)
Definition format_percentage (d : gmap loc Z) (count : Z) (planet : loc)
  : result R :=
  match d !! planet with
  | None => Raise KeyError
  | Some v => q ← py_div (IZR v) (IZR count); Ok (q * 100)
  end.

(** Lines 236-238: the tally update of one iteration, on the store [h] the
    physics step has produced. *)
Definition tally (sc : scenario) (h : gmap loc object) (st : sim_state)
  : result sim_state :=
  let count' := (count st + 1)%Z in
  closest_planet ← mostest_closest_neighbour h (earth sc) (all_planets sc);
  d ← increment (closest_count st) closest_planet;
  Ok (mkSimState h count' d).

(** One iteration of [while run]: the physics step, the tally and the three
    percentages.  The calls into pygame only read the state. *)
Definition tick (sc : scenario) (st : sim_state) : result sim_state :=
  h ← update_positions (store st) (solar_system sc);
  st' ← tally sc h st;
  _ ← format_percentage (closest_count st') (count st') (mercury sc);
  _ ← format_percentage (closest_count st') (count st') (venus sc);
  _ ← format_percentage (closest_count st') (count st') (mars sc);
  Ok st'.

(** The loop: [frames] holds, for each iteration, whether [pygame.event.get()]
    delivered a QUIT event.  The iteration that sees QUIT still runs to its
    end. *)
Fixpoint main_loop (sc : scenario) (frames : list bool) (st : sim_state)
  : result sim_state :=
  match frames with
  | [] => Ok st
  | quit :: rest =>
      st' ← tick sc st;
      if quit then Ok st' else main_loop sc rest st'
  end.

(** The sum of the values of a dict. *)
Definition sum_counts (d : gmap loc Z) : Z :=
  map_fold (fun _ v acc => (v + acc)%Z) 0%Z d.

(** ** Vocabulary of the statements *)

(** The entries of [bodies] that are not the object [self] itself. *)
Definition others (self : loc) (bodies : list loc) : list loc :=
  filter (fun body => self <> body) bodies.

(** The force on [self] from each body of a list, in order. *)
Fixpoint forces (h : gmap loc object) (self : loc) (bs : list loc)
  : result (list (R * R)) :=
  match bs with
  | [] => Ok []
  | b :: rest =>
      f ← force_on h self b;
      fs ← forces h self rest;
      Ok (f :: fs)
  end.

Definition Rsum (l : list R) : R := foldr Rplus 0 l.

(** [self] after one step under the total force [(fx, fy)]. *)
Definition euler_step (b : CelestialObject) (fx fy : R) : CelestialObject :=
  let x_vel' := x_vel b + fx / mass b * TIME_STEP in
  let y_vel' := y_vel b + fy / mass b * TIME_STEP in
  mkCelestialObject (name b) (radius b) (color b) (mass b)
    (x b + x_vel' * TIME_STEP) (y b + y_vel' * TIME_STEP) x_vel' y_vel'.

(** The position of the object at a location, and the distance between the
    objects at two locations. *)
Definition position_of (h : gmap loc object) (l : loc) : R * R :=
  match h !! l with
  | Some o => get_position (base o)
  | None => (0, 0)
  end.

Definition distance (h : gmap loc object) (p q : loc) : R :=
  dist (position_of h p) (position_of h q).

(** [q], found at index [i] of [l], is a nearest candidate, and every
    candidate before it is strictly farther from [planet]. *)
Definition first_nearest (h : gmap loc object) (planet : loc) (l : list loc)
    (q : loc) (i : nat) : Prop :=
  l !! i = Some q /\ q <> planet /\
  forall (j : nat) (q' : loc), l !! j = Some q' -> q' <> planet ->
    distance h planet q <= distance h planet q' /\
    ((j < i)%nat -> distance h planet q < distance h planet q').

(** The loop variables of [mostest_closest_neighbour] after the prefix [pre]
    of the candidates. *)
Definition closest_so_far (h : gmap loc object) (planet : loc) (pre : list loc)
    (closest_neighbour : option loc) (closest_distance : xreal) : Prop :=
  match closest_neighbour with
  | None => closest_distance = PInf /\ forall q, q ∈ pre -> q = planet
  | Some q => closest_distance = Fin (distance h planet q) /\
              exists i, first_nearest h planet pre q i
  end.

(** ** The state [run_simulation] starts its loop in *)

Definition sun0 : object :=
  mkObject (mkCelestialObject "Sun" 16 YELLOW (198892 / 100000 * 10 ^ 30) 0 0 0 0)
    None.

(** Every planet is built at the origin, where the sun is, and moved
    afterwards: its [distance_to_parent] is [dist (0, 0) (0, 0)]. *)
Definition planet0 (name : string) (radius : Z) (color : Color) (mass : R)
    (x0 y_vel0 : R) : object :=
  mkObject (mkCelestialObject name radius color mass x0 0 0 y_vel0)
    (Some (mkPlanetFields [] 0 (dist (0, 0) (0, 0)))).

Definition mercury0 : object :=
  planet0 "Mercury" 4 GRAY (330 / 100 * 10 ^ 23) (387 / 1000 * AU) 47400.
Definition venus0 : object :=
  planet0 "Venus" 5 ORANGE (48685 / 10000 * 10 ^ 24) (- (723 / 1000) * AU) (- 35020).
Definition earth0 : object :=
  planet0 "Earth" 5 BLUE (59742 / 10000 * 10 ^ 24) (1 * AU) 29783.
Definition mars0 : object :=
  planet0 "Mars" 4 RED (639 / 100 * 10 ^ 23) (- (1524 / 1000) * AU) (- 24077).

Definition store0 : gmap loc object :=
  <[4%nat := mars0]> (<[3%nat := earth0]> (<[2%nat := venus0]>
    (<[1%nat := mercury0]> (<[0%nat := sun0]> ∅)))).

Definition scenario0 : scenario :=
  mkScenario 0 1 2 3 4 [1; 2; 3; 4]%nat
    (mkSolarSystem "The Solar System" 0 [1; 2; 3; 4]%nat).

Definition counts0 : gmap loc Z :=
  <[4%nat := 0%Z]> (<[2%nat := 0%Z]> (<[1%nat := 0%Z]> ∅)).

Definition state0 : sim_state := mkSimState store0 0 counts0.

(** The states the loop passes through. *)
Inductive reachable (sc : scenario) (st0 : sim_state) : sim_state -> Prop :=
  | reach_start : reachable sc st0 st0
  | reach_tick (st st' : sim_state) :
      reachable sc st0 st -> tick sc st = Ok st' -> reachable sc st0 st'.

(** What every iteration of the loop keeps true: the objects of the store,
    the keys of the dict, and the sum of the counts. *)
Definition invariant (st : sim_state) : Prop :=
  dom (store st) = dom store0 /\
  dom (closest_count st) = dom counts0 /\
  sum_counts (closest_count st) = count st /\
  (0 <= count st)%Z.

(** The number of iterations [main_loop] runs on [frames]. *)
Fixpoint ticks_run (frames : list bool) : Z :=
  match frames with
  | [] => 0
  | quit :: rest => (1 + if quit then 0 else ticks_run rest)%Z
  end.

(** ** Sample bodies used by the examples below *)

(** Two bodies at distance 5. *)
Definition body_a : CelestialObject := mkCelestialObject "a" 1 WHITE 2 0 0 0 0.
Definition body_b : CelestialObject := mkCelestialObject "b" 1 WHITE 3 3 4 0 0.

(** A store holding [body_a] at location 0 and [body_b] at location 1. *)
Definition heap_ab : gmap loc object :=
  <[1%nat := mkObject body_b None]> (<[0%nat := mkObject body_a None]> ∅).

(** The force [body_b] exerts on [body_a]. *)
Definition force_ab : R * R :=
  (G * 2 * 3 / 5 ^ 2 * ((3 - 0) / 5), G * 2 * 3 / 5 ^ 2 * ((4 - 0) / 5)).

(** A star of mass 1 at the origin and a planet of mass 1 one metre to its
    left, at rest, as [Planet("p", s, 1, Color.BLUE, 1, (-1, 0))] builds it. *)
Definition star_s : CelestialObject := mkCelestialObject "s" 1 YELLOW 1 0 0 0 0.
Definition planet_p : CelestialObject := mkCelestialObject "p" 1 BLUE 1 (-1) 0 0 0.
Definition planet_p_fields : PlanetFields :=
  mkPlanetFields [] 0 (dist (get_position planet_p) (get_position star_s)).
Definition heap_close : gmap loc object :=
  <[1%nat := mkObject planet_p (Some planet_p_fields)]>
    (<[0%nat := mkObject star_s None]> ∅).

(** The force [star_s] exerts on [planet_p]. *)
Definition force_ps : R * R :=
  (G * 1 * 1 / 1 ^ 2 * ((0 - -1) / 1), G * 1 * 1 / 1 ^ 2 * ((0 - 0) / 1)).

(** [body_a] with two candidates at the same distance 5, the one at
    location 1 first. *)
Definition body_c : CelestialObject := mkCelestialObject "c" 1 WHITE 3 4 3 0 0.
Definition heap_tie : gmap loc object :=
  <[2%nat := mkObject body_c None]> heap_ab.

(** ** Repeated steps *)

(** [n] calls of [self.update_position(bodies)] of the base class, one after
    the other. *)
Fixpoint repeat_update_position (n : nat) (h : gmap loc object) (self : loc)
    (bodies : list loc) : result (gmap loc object) :=
  match n with
  | O => Ok h
  | S n' =>
      h1 ← CelestialObject_update_position h self bodies;
      repeat_update_position n' h1 self bodies
  end.

(** ** What a body is *)

(** [o'] has the name, radius, colour and mass of [o], is of the same class
    and, if a planet, has the same parent star. *)
Definition same_body (o o' : object) : Prop :=
  name (base o') = name (base o) /\
  radius (base o') = radius (base o) /\
  color (base o') = color (base o) /\
  mass (base o') = mass (base o) /\
  match planet o, planet o' with
  | None, None => True
  | Some pf, Some pf' => parent_star pf' = parent_star pf
  | _, _ => False
  end.

(** ** Stores without dangling references *)

(** The star and the planets of [sys] are objects of the store, and so is the
    parent star of every planet in the store.  Python references always
    point to objects, so a store of the program is always of this kind. *)
Definition well_formed (h : gmap loc object) (sys : SolarSystem) : Prop :=
  is_Some (h !! star sys) /\
  (forall p, p ∈ planets sys -> is_Some (h !! p)) /\
  (forall (l : loc) (o : object) (pf : PlanetFields),
     h !! l = Some o -> planet o = Some pf -> is_Some (h !! parent_star pf)).

(** ** Iterations *)

(** [n] iterations of the loop body. *)
Fixpoint iterate_tick (sc : scenario) (n : nat) (st : sim_state)
  : result sim_state :=
  match n with
  | O => Ok st
  | S n' => st' ← tick sc st; iterate_tick sc n' st'
  end.

(** ** Drawing *)

(** [Color.value]: the RGB triple of a colour. *)
Definition value (c : Color) : Z * Z * Z :=
  match c with
  | WHITE => (255, 255, 255)
  | BLACK => (0, 0, 0)
  | YELLOW => (255, 255, 0)
  | GRAY => (128, 128, 128)
  | ORANGE => (255, 128, 0)
  | BLUE => (0, 0, 255)
  | RED => (255, 0, 0)
  end%Z.

(** The calls into pygame that paint on the window, with their arguments:
    [pygame.draw.circle], [pygame.draw.lines], [pygame.draw.line], and
    [font.render] followed by [window.blit]. *)
Inductive pygame_call : Type :=
  | Circle (color : Z * Z * Z) (center : R * R) (radius : Z)
  | Lines (color : Z * Z * Z) (closed : bool) (points : list (R * R)) (width : Z)
  | Line (color : Z * Z * Z) (start_pos end_pos : R * R)
  | Blit (text : string) (antialias : bool) (color : Z * Z * Z) (dest : R * R).

(** [CelestialObject.draw]: the calls it makes, in order. *)
Definition CelestialObject_draw (self : CelestialObject) : list pygame_call :=
  let x' := x self * SCALE + IZR WIDTH / 2 in
  let y' := y self * SCALE + IZR HEIGHT / 2 in
  [Circle (value (color self)) (x', y') (radius self);
   Blit (name self) true (value WHITE) (x', y' + IZR (radius self))].

(** The loop of [Planet.draw] that fills [updated_points]. *)
Fixpoint updated_points (orbit : list (R * R)) (acc : list (R * R))
  : list (R * R) :=
  match orbit with
  | [] => acc
  | point :: rest =>
      let '(x0, y0) := point in
      let x' := x0 * SCALE + IZR WIDTH / 2 in
      let y' := y0 * SCALE + IZR HEIGHT / 2 in
      updated_points rest (acc ++ [(x', y')])
  end.

(** [Planet.draw] *)
Definition Planet_draw (self : CelestialObject) (pf : PlanetFields)
  : list pygame_call :=
  (if (2 <? length (orbit pf))%nat
   then [Lines (value (color self)) false (updated_points (orbit pf) []) 1]
   else []) ++
  let x' := x self * SCALE + IZR WIDTH / 2 in
  let y' := y self * SCALE + IZR HEIGHT / 2 in
  [Circle (value (color self)) (x', y') (radius self);
   Blit (name self) true (value WHITE) (x', y' + IZR (radius self))].

(** [body.draw(window, font)]: the method of the object's class. *)
Definition draw (h : gmap loc object) (self : loc) : result (list pygame_call) :=
  o ← deref h self;
  match planet o with
  | Some pf => Ok (Planet_draw (base o) pf)
  | None => Ok (CelestialObject_draw (base o))
  end.

(** The [for planet in self.planets] loop of [SolarSystem.draw]. *)
Fixpoint draw_planets (h : gmap loc object) (ps : list loc)
  : result (list pygame_call) :=
  match ps with
  | [] => Ok []
  | p :: rest =>
      calls ← draw h p;
      more ← draw_planets h rest;
      Ok (calls ++ more)
  end.

(** [SolarSystem.draw] *)
Definition SolarSystem_draw (h : gmap loc object) (self : SolarSystem)
  : result (list pygame_call) :=
  calls ← draw h (star self);
  more ← draw_planets h (planets self);
  Ok (calls ++ more).

(** [draw_line(window, start_planet, end_planet, color)] *)
Definition draw_line (h : gmap loc object) (start_planet end_planet : loc)
    (color : Z * Z * Z) : result (list pygame_call) :=
  s ← deref h start_planet;
  e ← deref h end_planet;
  let start := (x (base s) * SCALE + IZR WIDTH / 2,
                y (base s) * SCALE + IZR HEIGHT / 2) in
  let end_ := (x (base e) * SCALE + IZR WIDTH / 2,
               y (base e) * SCALE + IZR HEIGHT / 2) in
  Ok [Line color start end_].

(** World coordinates to window coordinates, as every drawing function
    computes them. *)
Definition to_screen (p : R * R) : R * R :=
  (p.1 * SCALE + IZR WIDTH / 2, p.2 * SCALE + IZR HEIGHT / 2).

(** The centres of the circles among some calls. *)
Fixpoint circle_centers (calls : list pygame_call) : list (R * R) :=
  match calls with
  | [] => []
  | Circle _ c _ :: rest => c :: circle_centers rest
  | _ :: rest => circle_centers rest
  end.

(** ** The percentage labels *)

(** [str(n)] for an int. *)
Definition str (n : Z) : string := NilZero.string_of_int (Z.to_int n).

(** [round(x)] for a float: the nearest int, the even one of the two when
    [x] is half-way. *)
Definition py_round (r : R) : Z :=
  let f := Zfloor r in
  if Rlt_dec (r - IZR f) (1 / 2) then f
  else if Rlt_dec (1 / 2) (r - IZR f) then (f + 1)%Z
  else if Z.even f then f else (f + 1)%Z.

Fixpoint spaces (n : nat) : string :=
  match n with
  | O => EmptyString
  | S n' => String " "%char (spaces n')
  end.

(** [s.ljust(width)] and [s.rjust(width)]: padded with spaces, never cut. *)
Definition ljust (s : string) (width : nat) : string :=
  String.append s (spaces (width - String.length s)).

Definition rjust (s : string) (width : nat) : string :=
  String.append (spaces (width - String.length s)) s.

(** [format_percentage] of [run_simulation], with the text it returns;
    [closest_count] and [count] are the variables of the enclosing
    function. *)
Definition format_percentage_text (h : gmap loc object) (d : gmap loc Z)
    (count : Z) (planet : loc) : result string :=
  o ← deref h planet;
  let txt_planet_name := ljust (name (base o)) 10 in
  percentage ← format_percentage d count planet;
  let txt_percentage := String.append (rjust (str (py_round percentage)) 3) "%" in
  Ok (String.append txt_planet_name txt_percentage).

(** ** The length of a trail *)

(** The number of points in the trail of the object at [l]; 0 for an object
    that is not a planet. *)
Definition trail_length (h : gmap loc object) (l : loc) : nat :=
  match h !! l with
  | Some o =>
      match planet o with
      | Some pf => length (orbit pf)
      | None => 0%nat
      end
  | None => 0%nat
  end.

(** ** One iteration with what it paints *)

(** Lines 234-249 of [run_simulation]: the physics step, the tally, the
    three labels, the line from Earth to the nearest planet and the drawing
    of the system, with the calls into pygame that paint, in order.
    [draw_line] reads [closest_planet.x]: on [None] that is an
    AttributeError. *)
Definition iteration (sc : scenario) (st : sim_state)
  : result (sim_state * list pygame_call) :=
  h ← update_positions (store st) (solar_system sc);
  let count' := (count st + 1)%Z in
  closest_planet ← mostest_closest_neighbour h (earth sc) (all_planets sc);
  closest_count' ← increment (closest_count st) closest_planet;
  txt_mercury ← format_percentage_text h closest_count' count' (mercury sc);
  txt_venus ← format_percentage_text h closest_count' count' (venus sc);
  txt_mars ← format_percentage_text h closest_count' count' (mars sc);
  line ← match closest_planet with
         | Some q => draw_line h (earth sc) q (value WHITE)
         | None => Raise AttributeError
         end;
  bodies ← SolarSystem_draw h (solar_system sc);
  Ok (mkSimState h count' closest_count',
      [Blit txt_mercury true (value WHITE) (5, 5);
       Blit txt_venus true (value WHITE) (5, 20);
       Blit txt_mars true (value WHITE) (5, 35)] ++ line ++ bodies).

(** ** More sample data *)

(** Two objects with the same state: [body_a] at location 0 and another
    object with the very same fields at location 1. *)
Definition heap_twin : gmap loc object :=
  <[1%nat := mkObject body_a None]> (<[0%nat := mkObject body_a None]> ∅).

(** The default scenario with Earth as the only candidate of the search. *)
Definition scenario_alone : scenario :=
  mkScenario 0 1 2 3 4 [3]%nat (solar_system scenario0).

(** ** The force and the nearest neighbour on binary64 floats

    A Python [float] is an IEEE 754 binary64 number.  The definitions above
    read it as a real number; the ones below follow the same source lines on
    the floats themselves, with the operations of the processor, where a
    square can underflow to zero or overflow to infinity. *)

Module Binary64.
Import PrimFloat.
Local Open Scope float_scope.

Definition G : float := 6.67428e-11.

(** The fields set by [CelestialObject.__init__]. *)
Record CelestialObject : Type := mkCelestialObject {
  name : string;
  radius : Z;
  color : Color;
  mass : float;
  x : float;
  y : float;
  x_vel : float;
  y_vel : float
}.

Definition get_position (b : CelestialObject) : float * float := (x b, y b).

(** [math.dist(p, q)] for two-dimensional points.  CPython takes the
    absolute differences; it returns inf when one of them is inf, nan when
    one is nan, and otherwise scales by the larger one before squaring, so
    that no square underflows or overflows.  The scaled sum is written here
    in its textbook form; CPython adds the squares with a correction, which
    can differ in the last bit.  The two agree exactly when one difference
    is zero, as in every example below. *)
Definition math_dist (p q : float * float) : float :=
  let dx := abs (p.1 - q.1) in
  let dy := abs (p.2 - q.2) in
  if is_infinity dx || is_infinity dy then infinity
  else if is_nan dx || is_nan dy then nan
  else
    let max := if dx <? dy then dy else dx in
    let min := if dx <? dy then dx else dy in
    if max =? 0 then max
    else max * sqrt (1 + (min / max) * (min / max)).

(** [x ** 2]: the rounded square; a result out of range is an
    OverflowError, a result that underflows is 0.0 and no error. *)
Definition py_pow2 (x : float) : result float :=
  let r := x * x in
  if is_infinity r && is_finite x then Raise OverflowError else Ok r.

(** [a / b] on floats. *)
Definition py_div (a b : float) : result float :=
  if b =? 0 then Raise ZeroDivisionError else Ok (a / b).

(** Lines 63 and 65 of [calculate_force_vectors]: the value of [force].
    Line 62 subtracts, and lines 66-68 call [math.atan2], [math.cos] and
    [math.sin] on an angle; none of them raises, so the call raises exactly
    what line 65 raises, and returns a pair when line 65 yields a value. *)
Definition force (self other_body : CelestialObject) : result float :=
  let distance := math_dist (get_position self) (get_position other_body) in
  square ← py_pow2 distance;
  py_div (G * mass self * mass other_body) square.

Definition deref (h : gmap loc CelestialObject) (l : loc)
  : result CelestialObject :=
  match h !! l with
  | Some o => Ok o
  | None => Raise Dangling
  end.

(** The loop of [mostest_closest_neighbour]; [closest_distance] starts at
    [math.inf]. *)
Fixpoint closest_loop (h : gmap loc CelestialObject) (planet : loc)
    (other_planets : list loc) (closest_neighbour : option loc)
    (closest_distance : float) : result (option loc) :=
  match other_planets with
  | [] => Ok closest_neighbour
  | other_planet :: rest =>
      if decide (other_planet = planet)
      then closest_loop h planet rest closest_neighbour closest_distance
      else
        p ← deref h planet;
        o ← deref h other_planet;
        let distance := math_dist (get_position p) (get_position o) in
        if distance <? closest_distance
        then closest_loop h planet rest (Some other_planet) distance
        else closest_loop h planet rest closest_neighbour closest_distance
  end.

Definition mostest_closest_neighbour (h : gmap loc CelestialObject)
    (planet : loc) (other_planets : list loc) : result (option loc) :=
  closest_loop h planet other_planets None infinity.

(** A body of mass 1 at rest at [(x0, 0)]. *)
Definition body_at (x0 : float) : CelestialObject :=
  mkCelestialObject "b" 1 WHITE 1 x0 0 0 0.

(** Two bodies 2e308 metres apart: the difference of their abscissas is
    beyond the largest float. *)
Definition body_west : CelestialObject := body_at (-1e308).
Definition body_east : CelestialObject := body_at 1e308.
Definition heap_wide : gmap loc CelestialObject :=
  <[1%nat := body_east]> (<[0%nat := body_west]> ∅).

End Binary64.

(** * Properties *)

(** ** The error monad *)

Lemma bind_Ok_inv {A B} (m : result A) (k : A -> result B) (b : B) :
  m ≫= k = Ok b <-> exists a, m = Ok a /\ k a = Ok b.
Proof.
  destruct m as [a|e]; simpl; split.
  - intros H; exists a; auto.
  - intros (a' & Ha & Hk); inversion Ha; subst; exact Hk.
  - discriminate.
  - intros (a' & Ha & _); discriminate.
Qed.

Lemma bind_Ok_l {A B} (m : result A) (k : A -> result B) (a : A) :
  m = Ok a -> m ≫= k = k a.
Proof. intros ->; reflexivity. Qed.

Lemma deref_Some (h : gmap loc object) (l : loc) (o : object) :
  h !! l = Some o -> deref h l = Ok o.
Proof. unfold deref; intros ->; reflexivity. Qed.

Lemma deref_Ok_inv (h : gmap loc object) (l : loc) (o : object) :
  deref h l = Ok o -> h !! l = Some o.
Proof. unfold deref; destruct (h !! l); congruence. Qed.

(** ** Distances *)

Lemma sqr_zero (r : R) : r ^ 2 = 0 -> r = 0.
Proof.
  intros H. destruct (Req_dec_T r 0) as [E|N]; [exact E|].
  exfalso. exact (pow_nonzero r 2 N H).
Qed.

Lemma dist_sqr (p q : R * R) :
  dist p q ^ 2 = (p.1 - q.1) ^ 2 + (p.2 - q.2) ^ 2.
Proof.
  unfold dist. rewrite pow2_sqrt; [reflexivity|].
  generalize (pow2_ge_0 (p.1 - q.1)) (pow2_ge_0 (p.2 - q.2)); lra.
Qed.

Lemma dist_nonneg (p q : R * R) : 0 <= dist p q.
Proof. unfold dist; apply sqrt_pos. Qed.

Lemma dist_zero_iff (p q : R * R) : dist p q = 0 <-> p = q.
Proof.
  split.
  - intros H. assert (Hs := dist_sqr p q). rewrite H in Hs.
    destruct p as [p1 p2], q as [q1 q2]; cbn [fst snd] in *.
    assert (H1 : 0 <= (p1 - q1) ^ 2) by apply pow2_ge_0.
    assert (H2 : 0 <= (p2 - q2) ^ 2) by apply pow2_ge_0.
    assert (E1 : (p1 - q1) ^ 2 = 0) by lra.
    assert (E2 : (p2 - q2) ^ 2 = 0) by lra.
    apply sqr_zero in E1. apply sqr_zero in E2.
    f_equal; lra.
  - intros ->. unfold dist.
    replace ((q.1 - q.1) ^ 2 + (q.2 - q.2) ^ 2) with 0 by ring.
    apply sqrt_0.
Qed.

Lemma dist_sym (p q : R * R) : dist p q = dist q p.
Proof. unfold dist; f_equal; ring. Qed.

(** ** C8: the only failure of the force computation *)

Lemma py_div_Ok (a b : R) : b <> 0 -> py_div a b = Ok (a / b).
Proof. unfold py_div; destruct (Req_dec_T b 0); [contradiction | reflexivity]. Qed.

Lemma py_div_zero (a : R) : py_div a 0 = Raise ZeroDivisionError.
Proof. unfold py_div; destruct (Req_dec_T 0 0); [reflexivity | contradiction]. Qed.

Lemma calculate_force_vectors_Ok (a b : CelestialObject) :
  let d := dist (get_position a) (get_position b) in
  d <> 0 ->
  calculate_force_vectors a b =
    Ok (cos (atan2 (y b - y a) (x b - x a)) * (G * mass a * mass b / d ^ 2),
        sin (atan2 (y b - y a) (x b - x a)) * (G * mass a * mass b / d ^ 2)).
Proof.
  intros d Hd. unfold calculate_force_vectors, calculate_distance_vectors.
  simpl get_position at 1. cbv iota beta.
  fold d. rewrite py_div_Ok; [reflexivity|].
  apply pow_nonzero; exact Hd.
Qed.

Lemma calculate_force_vectors_Raise (a b : CelestialObject) :
  dist (get_position a) (get_position b) = 0 ->
  calculate_force_vectors a b = Raise ZeroDivisionError.
Proof.
  intros Hd. unfold calculate_force_vectors, calculate_distance_vectors.
  simpl get_position at 1. cbv iota beta.
  rewrite Hd. replace (0 ^ 2) with 0 by ring.
  rewrite py_div_zero. reflexivity.
Qed.

(** C8, over exact real arithmetic.  With floats read as real numbers the
    force computation raises ZeroDivisionError exactly when the two bodies
    are at distance zero, which is exactly when their coordinates are
    identical; at a positive distance it returns a value and no error branch
    is taken.  On binary64 floats a positive distance is not enough: the
    square of the distance can underflow to zero. *)
Theorem calculate_force_vectors_defined_iff (a b : CelestialObject) :
  let d := dist (get_position a) (get_position b) in
  (d = 0 <-> get_position a = get_position b) /\
  (calculate_force_vectors a b = Raise ZeroDivisionError <-> d = 0) /\
  ((exists f, calculate_force_vectors a b = Ok f) <-> 0 < d).
Proof.
  intros d. split; [apply dist_zero_iff|].
  assert (Hnn : 0 <= d) by apply dist_nonneg.
  destruct (Req_dec_T d 0) as [Hz|Hnz].
  - pose proof (calculate_force_vectors_Raise a b Hz) as HR.
    split; split; intros H; auto.
    + destruct H as [f Hf]. rewrite HR in Hf. discriminate.
    + lra.
  - pose proof (calculate_force_vectors_Ok a b Hnz) as HO.
    split; split; intros H.
    + rewrite HO in H. discriminate.
    + contradiction.
    + lra.
    + eexists; exact HO.
Qed.

(** ** The angle returned by atan2 *)

Section Atan2.

Variables dx dy : R.
Hypothesis apart : 0 < sqrt (dx ^ 2 + dy ^ 2).

Local Abbreviation r := (sqrt (dx ^ 2 + dy ^ 2)).

Lemma radius_sqr : r * r = dx ^ 2 + dy ^ 2.
Proof.
  apply sqrt_sqrt.
  generalize (pow2_ge_0 dx) (pow2_ge_0 dy); lra.
Qed.

(** For [dx <> 0] the tangent [dy / dx] has [sqrt (1 + t²) = r / |dx|]. *)
Lemma sqrt_one_plus_tan : dx <> 0 -> sqrt (1 + (dy / dx)²) = r / Rabs dx.
Proof.
  intros Hx.
  assert (Ha : 0 < Rabs dx) by (apply Rabs_pos_lt; exact Hx).
  apply sqrt_lem_1.
  - generalize (Rle_0_sqr (dy / dx)); lra.
  - apply Rlt_le, Rdiv_lt_0_compat; [exact apart | exact Ha].
  - assert (Hab : Rabs dx * Rabs dx = dx * dx).
    { rewrite <- Rabs_mult. apply Rabs_pos_eq.
      generalize (Rle_0_sqr dx); unfold Rsqr; lra. }
    assert (Hr := radius_sqr).
    unfold Rsqr.
    replace (r / Rabs dx * (r / Rabs dx)) with (r * r / (Rabs dx * Rabs dx))
      by (field; lra).
    rewrite Hr, Hab. field. exact Hx.
Qed.

Lemma cos_atan2 : cos (atan2 dy dx) = dx / r.
Proof.
  unfold atan2.
  destruct (Rlt_dec 0 dx) as [Hp|Hnp].
  - rewrite cos_atan, sqrt_one_plus_tan by lra.
    rewrite Rabs_pos_eq by lra. field. split; lra.
  - destruct (Rlt_dec dx 0) as [Hn|Hnn].
    + assert (E : cos (atan (dy / dx)) = - dx / r).
      { rewrite cos_atan, sqrt_one_plus_tan by lra.
        rewrite Rabs_left by lra. field. split; lra. }
      destruct (Rle_dec 0 dy).
      * rewrite neg_cos, E. field. lra.
      * replace (atan (dy / dx) - PI) with (- (- atan (dy / dx) + PI)) by ring.
        rewrite cos_neg, neg_cos, cos_neg, E. field. lra.
    + assert (dx = 0) by lra. subst dx.
      destruct (Rlt_dec 0 dy); [rewrite cos_PI2; field; lra|].
      destruct (Rlt_dec dy 0).
      * rewrite cos_neg, cos_PI2. field. lra.
      * exfalso. assert (dy = 0) by lra. subst dy.
        replace (0 ^ 2 + 0 ^ 2) with 0 in apart by ring.
        rewrite sqrt_0 in apart. lra.
Qed.

Lemma sin_atan2 : sin (atan2 dy dx) = dy / r.
Proof.
  unfold atan2.
  destruct (Rlt_dec 0 dx) as [Hp|Hnp].
  - rewrite sin_atan, sqrt_one_plus_tan by lra.
    rewrite Rabs_pos_eq by lra. field. split; lra.
  - destruct (Rlt_dec dx 0) as [Hn|Hnn].
    + assert (E : sin (atan (dy / dx)) = - dy / r).
      { rewrite sin_atan, sqrt_one_plus_tan by lra.
        rewrite Rabs_left by lra. field. split; lra. }
      destruct (Rle_dec 0 dy).
      * rewrite neg_sin, E. field. lra.
      * replace (atan (dy / dx) - PI) with (- (- atan (dy / dx) + PI)) by ring.
        rewrite sin_neg, neg_sin, sin_neg, E. field. lra.
    + assert (dx = 0) by lra. subst dx.
      assert (Hr : sqrt (0 ^ 2 + dy ^ 2) = Rabs dy).
      { replace (0 ^ 2 + dy ^ 2) with (dy²) by (unfold Rsqr; ring).
        apply sqrt_Rsqr_abs. }
      destruct (Rlt_dec 0 dy).
      { rewrite sin_PI2, Hr, Rabs_pos_eq by lra. field. lra. }
      destruct (Rlt_dec dy 0).
      * rewrite sin_neg, sin_PI2, Hr, Rabs_left by lra. field. lra.
      * exfalso. assert (dy = 0) by lra. subst dy.
        replace (0 ^ 2 + 0 ^ 2) with 0 in apart by ring.
        rewrite sqrt_0 in apart. lra.
Qed.

End Atan2.

(** ** C2 and C6: the force between two bodies *)

Lemma dist_towards (a b : CelestialObject) :
  dist (get_position a) (get_position b) =
  sqrt ((x b - x a) ^ 2 + (y b - y a) ^ 2).
Proof. unfold dist, get_position; cbn [fst snd]. f_equal. ring. Qed.

Lemma dist_a_b : dist (get_position body_a) (get_position body_b) = 5.
Proof.
  unfold dist, get_position, body_a, body_b; cbn [fst snd x y].
  replace ((0 - 3) ^ 2 + (0 - 4) ^ 2) with (5 ^ 2) by ring.
  apply sqrt_pow2. lra.
Qed.

(** C2, over exact real arithmetic.  With floats read as real numbers, for
    two bodies at a distance d > 0 the force on the first is
    (F cos theta, F sin theta) with F = G * mass_a * mass_b / d^2 and
    theta = atan2 (b.y - a.y) (b.x - a.x).  On binary64 floats the call
    returns nothing when the square of the distance overflows or underflows
    to zero. *)
Theorem calculate_force_vectors_components (a b : CelestialObject) :
  let d := dist (get_position a) (get_position b) in
  let F := G * mass a * mass b / d ^ 2 in
  let theta := atan2 (y b - y a) (x b - x a) in
  0 < d ->
  calculate_force_vectors a b = Ok (F * cos theta, F * sin theta).
Proof.
  intros d F theta Hd.
  rewrite calculate_force_vectors_Ok by (fold d; lra).
  fold d F theta. f_equal. f_equal; ring.
Qed.

Lemma calculate_force_vectors_components_witness :
  calculate_force_vectors body_a body_b =
    Ok (G * 2 * 3 / 5 ^ 2 * cos (atan2 (4 - 0) (3 - 0)),
        G * 2 * 3 / 5 ^ 2 * sin (atan2 (4 - 0) (3 - 0))).
Proof.
  rewrite <- dist_a_b.
  apply (calculate_force_vectors_components body_a body_b).
  rewrite dist_a_b. lra.
Defined.

(** The force on [a] is F times the unit vector from [a] to [b]. *)
Lemma calculate_force_vectors_unit (a b : CelestialObject) :
  let d := dist (get_position a) (get_position b) in
  let F := G * mass a * mass b / d ^ 2 in
  0 < d ->
  calculate_force_vectors a b =
    Ok (F * ((x b - x a) / d), F * ((y b - y a) / d)).
Proof.
  intros d F Hd.
  rewrite calculate_force_vectors_Ok by (fold d; lra).
  assert (Hd' : 0 < sqrt ((x b - x a) ^ 2 + (y b - y a) ^ 2))
    by (rewrite <- dist_towards; exact Hd).
  rewrite (cos_atan2 _ _ Hd'), (sin_atan2 _ _ Hd').
  rewrite <- dist_towards. fold d F. f_equal. f_equal; ring.
Qed.

(** C6. At a distance d > 0 the force on [a] from [b] and the force on [b]
    from [a] are opposite vectors; each points towards the other body, and
    its length is |G mass_a mass_b / d^2|, which is G mass_a mass_b / d^2
    for positive masses. *)
Theorem newton_third_law (a b : CelestialObject) :
  let d := dist (get_position a) (get_position b) in
  let F := G * mass a * mass b / d ^ 2 in
  0 < d ->
  exists fx fy : R,
    calculate_force_vectors a b = Ok (fx, fy) /\
    calculate_force_vectors b a = Ok (- fx, - fy) /\
    fx = F * ((x b - x a) / d) /\
    fy = F * ((y b - y a) / d) /\
    sqrt (fx ^ 2 + fy ^ 2) = Rabs F /\
    sqrt ((- fx) ^ 2 + (- fy) ^ 2) = Rabs F /\
    (0 < mass a -> 0 < mass b -> sqrt (fx ^ 2 + fy ^ 2) = F).
Proof.
  intros d F Hd.
  exists (F * ((x b - x a) / d)), (F * ((y b - y a) / d)).
  assert (Hab := calculate_force_vectors_unit a b Hd).
  assert (Hd2 : 0 < dist (get_position b) (get_position a))
    by (rewrite dist_sym; exact Hd).
  assert (Hba := calculate_force_vectors_unit b a Hd2).
  cbv zeta in Hab, Hba. rewrite (dist_sym (get_position b)) in Hba.
  fold d in Hab, Hba. fold F in Hab.
  assert (Hmag : sqrt ((F * ((x b - x a) / d)) ^ 2 + (F * ((y b - y a) / d)) ^ 2)
                 = Rabs F).
  { assert (Hs : d ^ 2 = (x b - x a) ^ 2 + (y b - y a) ^ 2).
    { unfold d. rewrite dist_towards. rewrite pow2_sqrt; [reflexivity|].
      generalize (pow2_ge_0 (x b - x a)) (pow2_ge_0 (y b - y a)); lra. }
    replace ((F * ((x b - x a) / d)) ^ 2 + (F * ((y b - y a) / d)) ^ 2)
      with (F² * (((x b - x a) ^ 2 + (y b - y a) ^ 2) / d ^ 2))
      by (unfold Rsqr; field; lra).
    rewrite <- Hs. replace (F² * (d ^ 2 / d ^ 2)) with (F²) by (field; lra).
    apply sqrt_Rsqr_abs. }
  split; [exact Hab|]. split.
  { rewrite Hba. f_equal. f_equal; unfold F; field; lra. }
  split; [reflexivity|]. split; [reflexivity|]. split; [exact Hmag|]. split.
  { rewrite <- Hmag. f_equal. ring. }
  intros Ha Hb. rewrite Hmag. apply Rabs_pos_eq.
  unfold F. apply Rlt_le, Rdiv_lt_0_compat.
  - assert (0 < G) by (unfold G; lra). 
    apply Rmult_lt_0_compat; [apply Rmult_lt_0_compat|]; assumption.
  - apply pow_lt; exact Hd.
Qed.

Lemma newton_third_law_witness :
  exists fx fy : R,
    calculate_force_vectors body_a body_b = Ok (fx, fy) /\
    calculate_force_vectors body_b body_a = Ok (- fx, - fy) /\
    fx = G * 2 * 3 / 5 ^ 2 * ((3 - 0) / 5) /\
    fy = G * 2 * 3 / 5 ^ 2 * ((4 - 0) / 5).
Proof.
  destruct (newton_third_law body_a body_b) as (fx & fy & H1 & H2 & H3 & H4 & _).
  - rewrite dist_a_b. lra.
  - exists fx, fy. rewrite dist_a_b in H3, H4. auto.
Defined.

(** ** C2 and C8 on binary64 floats *)

Section Binary64Facts.

Import PrimFloat.
Local Open Scope float_scope.

(** Two bodies of mass 1 five metres apart: the square is 25 and the
    division is carried out. *)
Example force_at_five_metres :
  Binary64.math_dist (0, 0) (3, 4) = 5 /\
  Binary64.force (Binary64.body_at 0) (Binary64.body_at 5)
    = Ok (Binary64.G / 25).
Proof. split; reflexivity. Qed.

(** C2 does not hold on binary64 floats.  Two bodies of mass 1 at (0, 0) and
    (1e200, 0) are at the distance 1e200 > 0; [distance ** 2] is out of
    range, line 65 raises OverflowError and the call returns no
    components. *)
Lemma force_overflows_at_1e200 :
  Binary64.math_dist (Binary64.get_position (Binary64.body_at 0))
                     (Binary64.get_position (Binary64.body_at 1e200)) = 1e200 /\
  (0 <? 1e200) = true /\
  Binary64.force (Binary64.body_at 0) (Binary64.body_at 1e200)
    = Raise OverflowError.
Proof. repeat split. Qed.

(** C8 does not hold on binary64 floats.  Two bodies of mass 1 at (0, 0) and
    (1e-200, 0) have different coordinates and are at the distance
    1e-200 > 0; [distance ** 2] underflows to 0.0 and the division of line
    65 raises ZeroDivisionError. *)
Lemma division_by_zero_at_positive_distance :
  Binary64.math_dist (Binary64.get_position (Binary64.body_at 0))
                     (Binary64.get_position (Binary64.body_at 1e-200)) = 1e-200 /\
  (0 <? 1e-200) = true /\
  Binary64.py_pow2 1e-200 = Ok 0 /\
  Binary64.force (Binary64.body_at 0) (Binary64.body_at 1e-200)
    = Raise ZeroDivisionError.
Proof. repeat split. Qed.

End Binary64Facts.

(** ** C1: one step of a body *)

Lemma others_cons_self (self : loc) (rest : list loc) :
  others self (self :: rest) = others self rest.
Proof.
  unfold others. rewrite filter_cons.
  destruct (decide (self <> self)) as [N|_]; [contradiction | reflexivity].
Qed.

Lemma others_cons_other (self body : loc) (rest : list loc) :
  self <> body -> others self (body :: rest) = body :: others self rest.
Proof.
  intros N. unfold others. rewrite filter_cons.
  destruct (decide (self <> body)) as [_|E]; [reflexivity | contradiction].
Qed.

Lemma total_force_forces (h : gmap loc object) (self : loc) (bodies : list loc) :
  forall (fs : list (R * R)) (total : R * R),
  forces h self (others self bodies) = Ok fs ->
  total_force h self bodies total =
    Ok (total.1 + Rsum fs.*1, total.2 + Rsum fs.*2).
Proof.
  induction bodies as [|body rest IH]; intros fs total Hfs.
  - cbn in Hfs. injection Hfs as <-. cbn [total_force fmap list_fmap].
    destruct total as [tx ty]. apply (f_equal Ok), (f_equal2 pair); cbn; ring.
  - cbn [total_force].
    destruct (decide (self = body)) as [E|N].
    + subst body. rewrite others_cons_self in Hfs. apply IH. exact Hfs.
    + rewrite (others_cons_other _ _ _ N) in Hfs. cbn [forces] in Hfs.
      apply bind_Ok_inv in Hfs as (f & Hf & Hfs).
      apply bind_Ok_inv in Hfs as (fs' & Hfs' & Hfs).
      injection Hfs as <-.
      rewrite (bind_Ok_l _ _ _ Hf).
      rewrite (IH fs' _ Hfs'). cbn [fst snd fmap list_fmap].
      apply (f_equal Ok), (f_equal2 pair); unfold Rsum; cbn [foldr]; ring.
Qed.

(** When a force cannot be computed the loop raises, and so does the step. *)
Lemma total_force_Raise (h : gmap loc object) (self : loc) (bodies : list loc) :
  forall (e : exn) (total : R * R),
  forces h self (others self bodies) = Raise e ->
  total_force h self bodies total = Raise e.
Proof.
  induction bodies as [|body rest IH]; intros e total Hfs.
  - discriminate.
  - cbn [total_force].
    destruct (decide (self = body)) as [E|N].
    + subst body. rewrite others_cons_self in Hfs. apply IH. exact Hfs.
    + rewrite (others_cons_other _ _ _ N) in Hfs. cbn [forces] in Hfs.
      destruct (force_on h self body) as [f|e'] eqn:Hf; cbn in Hfs |- *.
      * apply IH.
        destruct (forces h self (others self rest)); cbn in Hfs; congruence.
      * congruence.
Qed.

(** The step succeeds when every force does and the mass is not zero. *)
Lemma CelestialObject_update_position_Ok
    (h : gmap loc object) (self : loc) (bodies : list loc)
    (o : object) (fs : list (R * R)) :
  h !! self = Some o ->
  forces h self (others self bodies) = Ok fs ->
  mass (base o) <> 0 ->
  CelestialObject_update_position h self bodies =
    Ok (<[self := mkObject (euler_step (base o) (Rsum fs.*1) (Rsum fs.*2))
                    (planet o)]> h).
Proof.
  intros Ho Hfs Hm.
  unfold CelestialObject_update_position.
  rewrite (bind_Ok_l _ _ _ (total_force_forces h self bodies fs (0, 0) Hfs)).
  rewrite (bind_Ok_l _ _ _ (deref_Some _ _ _ Ho)).
  cbn [fst snd].
  rewrite (bind_Ok_l _ _ _ (py_div_Ok _ _ Hm)).
  rewrite (bind_Ok_l _ _ _ (py_div_Ok _ _ Hm)).
  unfold with_base, euler_step. rewrite !Rplus_0_l. reflexivity.
Qed.

Lemma others_app (self : loc) (l1 l2 : list loc) :
  others self (l1 ++ l2) = others self l1 ++ others self l2.
Proof. unfold others. apply filter_app. Qed.

(** The forces are computed in list order: when one cannot be computed,
    after those before it could, the whole computation raises. *)
Lemma forces_app_Raise (h : gmap loc object) (self : loc) (l1 l2 : list loc)
    (e : exn) :
  forall fs : list (R * R),
  forces h self l1 = Ok fs -> forces h self l2 = Raise e ->
  forces h self (l1 ++ l2) = Raise e.
Proof.
  induction l1 as [|b l1 IH]; intros fs H1 H2; cbn [app forces] in *.
  - exact H2.
  - apply bind_Ok_inv in H1 as (f & Hf & H1).
    apply bind_Ok_inv in H1 as (fs' & Hfs' & _).
    rewrite (bind_Ok_l _ _ _ Hf), (IH fs' Hfs' H2). reflexivity.
Qed.

(** C1. The step of a body sums the forces from the entries of [bodies]
    other than the body itself, adds total / mass * TIME_STEP to the velocity
    and then adds the new velocity times TIME_STEP to the position; nothing
    else in the store changes.  The body is told from the entries by its
    location, not by its state: an entry at another location is not skipped
    even when the object there has the state of the body; its force is
    computed and, the two positions being equal, the division raises
    ZeroDivisionError. *)
Theorem update_position_semi_implicit_euler
    (h : gmap loc object) (self : loc) (bodies : list loc) (o : object) :
  h !! self = Some o ->
  (forall fs : list (R * R),
     forces h self (others self bodies) = Ok fs ->
     mass (base o) <> 0 ->
     let total_fx := Rsum fs.*1 in
     let total_fy := Rsum fs.*2 in
     let x_vel' := x_vel (base o) + total_fx / mass (base o) * TIME_STEP in
     let y_vel' := y_vel (base o) + total_fy / mass (base o) * TIME_STEP in
     CelestialObject_update_position h self bodies =
       Ok (<[self := mkObject
               (mkCelestialObject (name (base o)) (radius (base o))
                  (color (base o)) (mass (base o))
                  (x (base o) + x_vel' * TIME_STEP)
                  (y (base o) + y_vel' * TIME_STEP)
                  x_vel' y_vel')
               (planet o)]> h)) /\
  (forall (before after : list loc) (twin : loc) (o' : object)
          (fs : list (R * R)),
     bodies = before ++ twin :: after ->
     twin <> self ->
     h !! twin = Some o' ->
     get_position (base o') = get_position (base o) ->
     forces h self (others self before) = Ok fs ->
     CelestialObject_update_position h self bodies = Raise ZeroDivisionError).
Proof.
  intros Ho. split.
  - intros fs Hfs Hm. cbv zeta.
    unfold CelestialObject_update_position.
    rewrite (bind_Ok_l _ _ _ (total_force_forces h self bodies fs (0, 0) Hfs)).
    rewrite (bind_Ok_l _ _ _ (deref_Some _ _ _ Ho)).
    cbn [fst snd].
    rewrite (bind_Ok_l _ _ _ (py_div_Ok _ _ Hm)).
    rewrite (bind_Ok_l _ _ _ (py_div_Ok _ _ Hm)).
    unfold with_base. rewrite !Rplus_0_l. reflexivity.
  - intros before after twin o' fs -> Hne Ho' Hpos Hfs.
    unfold CelestialObject_update_position.
    rewrite (total_force_Raise h self _ ZeroDivisionError); [reflexivity|].
    rewrite others_app.
    rewrite others_cons_other by (intros E; apply Hne; symmetry; exact E).
    apply (forces_app_Raise h self _ _ ZeroDivisionError fs Hfs).
    cbn [forces]. unfold force_on.
    rewrite (bind_Ok_l _ _ _ (deref_Some _ _ _ Ho)).
    rewrite (bind_Ok_l _ _ _ (deref_Some _ _ _ Ho')).
    rewrite calculate_force_vectors_Raise; [reflexivity|].
    apply dist_zero_iff. symmetry. exact Hpos.
Qed.

Lemma heap_ab_0 : heap_ab !! 0%nat = Some (mkObject body_a None).
Proof.
  unfold heap_ab. rewrite lookup_insert_ne by discriminate.
  apply lookup_insert_eq.
Qed.

Lemma heap_ab_1 : heap_ab !! 1%nat = Some (mkObject body_b None).
Proof. unfold heap_ab. apply lookup_insert_eq. Qed.

Lemma force_on_ab : force_on heap_ab 0 1 = Ok force_ab.
Proof.
  unfold force_on.
  rewrite (bind_Ok_l _ _ _ (deref_Some _ _ _ heap_ab_0)).
  rewrite (bind_Ok_l _ _ _ (deref_Some _ _ _ heap_ab_1)).
  cbn [base]. rewrite calculate_force_vectors_unit by (rewrite dist_a_b; lra).
  rewrite dist_a_b. reflexivity.
Qed.

Lemma heap_twin_0 : heap_twin !! 0%nat = Some (mkObject body_a None).
Proof.
  unfold heap_twin. rewrite lookup_insert_ne by discriminate.
  apply lookup_insert_eq.
Qed.

Lemma heap_twin_1 : heap_twin !! 1%nat = Some (mkObject body_a None).
Proof. unfold heap_twin. apply lookup_insert_eq. Qed.

(** [body_a] pulled by [body_b] makes its step; [body_a] listed with itself
    and with an object of the same state at another location skips only
    itself, and the step raises. *)
Lemma update_position_semi_implicit_euler_witness :
  CelestialObject_update_position heap_ab 0 [0; 1]%nat =
    Ok (<[0%nat := mkObject
            (euler_step body_a (Rsum [force_ab].*1) (Rsum [force_ab].*2))
            None]> heap_ab) /\
  CelestialObject_update_position heap_twin 0 [0; 1]%nat =
    Raise ZeroDivisionError.
Proof.
  split.
  - apply (proj1 (update_position_semi_implicit_euler heap_ab 0 [0; 1]%nat
                    (mkObject body_a None) heap_ab_0) [force_ab]).
    + rewrite others_cons_self, others_cons_other by discriminate.
      cbn [others filter list_filter forces].
      rewrite (bind_Ok_l _ _ _ force_on_ab). reflexivity.
    + cbn [base mass body_a]. lra.
  - apply (proj2 (update_position_semi_implicit_euler heap_twin 0 [0; 1]%nat
                    (mkObject body_a None) heap_twin_0)
             [0]%nat [] 1%nat (mkObject body_a None) []).
    + reflexivity.
    + discriminate.
    + exact heap_twin_1.
    + reflexivity.
    + rewrite others_cons_self. reflexivity.
Defined.

(** ** C3: the orbit trail *)

Lemma py_int_nonneg (r : R) : 0 <= r -> py_int r = Zfloor r.
Proof. intros H. unfold py_int. destruct (Rle_dec 0 r); [reflexivity | contradiction]. Qed.

Lemma py_int_small (r : R) : 0 <= r < 1 -> py_int r = 0%Z.
Proof.
  intros [H0 H1]. rewrite py_int_nonneg by exact H0.
  apply Zfloor_eq. simpl. lra.
Qed.

Lemma truncate_zero {A} (l : list A) : truncate 0 l = l.
Proof.
  unfold truncate, slice_from. cbn [Z.opp Z.ltb Z.compare].
  destruct (0 <? Z.of_nat (length l))%Z; [|reflexivity].
  rewrite Z.min_l by lia. reflexivity.
Qed.

Lemma truncate_length {A} (t : Z) (l : list A) :
  (0 < t)%Z -> (Z.of_nat (length (truncate t l)) <= t)%Z.
Proof.
  intros Ht. unfold truncate, slice_from.
  destruct (t <? Z.of_nat (length l))%Z eqn:E.
  - apply Z.ltb_lt in E.
    assert (Hn : (- t <? 0)%Z = true) by (apply Z.ltb_lt; lia).
    rewrite Hn, length_drop. lia.
  - apply Z.ltb_ge in E. exact E.
Qed.

Lemma truncate_suffix {A} (t : Z) (l : list A) : truncate t l `suffix_of` l.
Proof.
  unfold truncate, slice_from.
  destruct (t <? Z.of_nat (length l))%Z; [apply suffix_drop | reflexivity].
Qed.

(** What [Planet.update_position] does after the inherited step. *)
Lemma Planet_update_position_Ok
    (h h1 : gmap loc object) (self : loc) (bodies : list loc)
    (o star : object) (pf : PlanetFields) :
  CelestialObject_update_position h self bodies = Ok h1 ->
  h1 !! self = Some o ->
  planet o = Some pf ->
  h1 !! parent_star pf = Some star ->
  let d := dist (get_position (base o)) (get_position (base star)) in
  Planet_update_position h self bodies =
    Ok (<[self := mkObject (base o)
            (Some (mkPlanetFields
                     (truncate (py_int (d * SCALE))
                        (orbit pf ++ [(x (base o), y (base o))]))
                     (parent_star pf) d))]> h1).
Proof.
  intros H1 Ho Hpf Hs d. unfold Planet_update_position.
  rewrite (bind_Ok_l _ _ _ H1), (bind_Ok_l _ _ _ (deref_Some _ _ _ Ho)), Hpf.
  rewrite (bind_Ok_l _ _ _ (deref_Some _ _ _ Hs)). reflexivity.
Qed.

Lemma Planet_update_position_inv
    (h h' : gmap loc object) (self : loc) (bodies : list loc) :
  Planet_update_position h self bodies = Ok h' ->
  exists (h1 : gmap loc object) (o star : object) (pf : PlanetFields),
    CelestialObject_update_position h self bodies = Ok h1 /\
    h1 !! self = Some o /\
    planet o = Some pf /\
    h1 !! parent_star pf = Some star /\
    let d := dist (get_position (base o)) (get_position (base star)) in
    h' = <[self := mkObject (base o)
             (Some (mkPlanetFields
                      (truncate (py_int (d * SCALE))
                         (orbit pf ++ [(x (base o), y (base o))]))
                      (parent_star pf) d))]> h1.
Proof.
  unfold Planet_update_position. intros H.
  apply bind_Ok_inv in H as (h1 & H1 & H).
  apply bind_Ok_inv in H as (o & Ho & H).
  destruct (planet o) as [pf|] eqn:Hpf; [|discriminate].
  apply bind_Ok_inv in H as (st & Hs & H).
  injection H as <-.
  exists h1, o, st, pf. repeat split; auto using deref_Ok_inv.
Qed.

(** Whenever the step of a planet returns and the tail length is at least
    one, the trail is no longer than the tail length. *)
Lemma orbit_bounded_when_tail_positive
    (h h' : gmap loc object) (self : loc) (bodies : list loc) :
  Planet_update_position h self bodies = Ok h' ->
  exists (o' : object) (pf' : PlanetFields),
    h' !! self = Some o' /\ planet o' = Some pf' /\
    ((0 < py_int (distance_to_parent pf' * SCALE))%Z ->
     (Z.of_nat (length (orbit pf')) <= py_int (distance_to_parent pf' * SCALE))%Z).
Proof.
  intros H. apply Planet_update_position_inv in H
    as (h1 & o & st & pf & _ & _ & _ & _ & ->).
  eexists _, _. split; [apply lookup_insert_eq|]. split; [reflexivity|].
  cbn [distance_to_parent orbit]. apply truncate_length.
Qed.

Lemma heap_close_0 : heap_close !! 0%nat = Some (mkObject star_s None).
Proof.
  unfold heap_close. rewrite lookup_insert_ne by discriminate.
  apply lookup_insert_eq.
Qed.

Lemma heap_close_1 :
  heap_close !! 1%nat = Some (mkObject planet_p (Some planet_p_fields)).
Proof. unfold heap_close. apply lookup_insert_eq. Qed.

Lemma heap_close_constructed :
  let '(h, s) := CelestialObject_init ∅ "s" 1 YELLOW 1 (0, 0) (0, 0) in
  Planet_init h "p" s 1 BLUE 1 (-1, 0) (0, 0) = Ok (heap_close, 1%nat).
Proof. reflexivity. Qed.

Lemma dist_p_s : dist (get_position planet_p) (get_position star_s) = 1.
Proof.
  unfold dist, get_position, planet_p, star_s; cbn [fst snd x y].
  replace ((-1 - 0) ^ 2 + (0 - 0) ^ 2) with (1 ^ 2) by ring.
  apply sqrt_pow2. lra.
Qed.

Lemma force_on_ps : force_on heap_close 1 0 = Ok force_ps.
Proof.
  unfold force_on.
  rewrite (bind_Ok_l _ _ _ (deref_Some _ _ _ heap_close_1)).
  rewrite (bind_Ok_l _ _ _ (deref_Some _ _ _ heap_close_0)).
  cbn [base]. rewrite calculate_force_vectors_unit by (rewrite dist_p_s; lra).
  rewrite dist_p_s. reflexivity.
Qed.

(** The inherited step moves the planet about half a metre towards the star. *)
Lemma planet_p_step :
  CelestialObject_update_position heap_close 1 [0; 1]%nat =
    Ok (<[1%nat := mkObject
            (euler_step planet_p (Rsum [force_ps].*1) (Rsum [force_ps].*2))
            (Some planet_p_fields)]> heap_close).
Proof.
  apply (CelestialObject_update_position_Ok heap_close 1 [0; 1]%nat
           (mkObject planet_p (Some planet_p_fields)) [force_ps]).
  - exact heap_close_1.
  - rewrite others_cons_other, others_cons_self by discriminate.
    cbn [others filter list_filter forces].
    rewrite (bind_Ok_l _ _ _ force_on_ps). reflexivity.
  - cbn [base mass planet_p]. lra.
Qed.

Lemma planet_p_new_distance :
  let b := euler_step planet_p (Rsum [force_ps].*1) (Rsum [force_ps].*2) in
  0 <= dist (get_position b) (get_position star_s) * SCALE < 1.
Proof.
  intros b.
  set (d := dist (get_position b) (get_position star_s)).
  assert (Hd0 : 0 <= d) by apply dist_nonneg.
  assert (Hd2 : d ^ 2 < 1).
  { unfold d. rewrite dist_sqr.
    unfold b, euler_step, get_position, planet_p, star_s, force_ps, Rsum,
      TIME_STEP, G.
    cbn [fst snd x y x_vel y_vel mass fmap list_fmap foldr]. lra. }
  assert (Hd1 : d < 1) by nra.
  assert (HS : 0 < SCALE < 1) by (unfold SCALE, AU; split; lra).
  split; nra.
Qed.

(** C3, at a planet closer to its star than 1 / SCALE metres.  The step
    returns, the tail length int(distance_to_parent * SCALE) is 0, the slice
    [orbit[-0:]] keeps the whole list, and the trail has one point. *)
Theorem orbit_exceeds_zero_tail_length :
  exists (h' : gmap loc object) (o' : object) (pf' : PlanetFields),
    Planet_update_position heap_close 1 [0; 1]%nat = Ok h' /\
    h' !! 1%nat = Some o' /\
    planet o' = Some pf' /\
    distance_to_parent pf' =
      dist (get_position (base o')) (get_position star_s) /\
    py_int (distance_to_parent pf' * SCALE) = 0%Z /\
    length (orbit pf') = 1%nat.
Proof.
  pose proof planet_p_step as Hstep.
  set (b := euler_step planet_p (Rsum [force_ps].*1) (Rsum [force_ps].*2)) in *.
  set (h1 := <[1%nat := mkObject b (Some planet_p_fields)]> heap_close) in *.
  assert (Ho : h1 !! 1%nat = Some (mkObject b (Some planet_p_fields)))
    by apply lookup_insert_eq.
  assert (Hs : h1 !! parent_star planet_p_fields = Some (mkObject star_s None)).
  { unfold h1. cbn [parent_star planet_p_fields].
    rewrite lookup_insert_ne by discriminate. exact heap_close_0. }
  pose proof (Planet_update_position_Ok heap_close h1 1 [0; 1]%nat _ _ _
                Hstep Ho eq_refl Hs) as HP.
  cbv zeta in HP. cbn [base orbit parent_star planet_p_fields] in HP.
  assert (Ht := py_int_small _ planet_p_new_distance). fold b in Ht.
  rewrite Ht, truncate_zero in HP.
  eexists _, _, _. split; [exact HP|].
  split; [apply lookup_insert_eq|]. split; [reflexivity|].
  cbn [distance_to_parent orbit base]. split; [reflexivity|].
  split; [exact Ht | reflexivity].
Qed.

(** ** C4: the nearest neighbour *)

Section Closest.

Variable h : gmap loc object.
Variable planet : loc.
Hypothesis planet_alive : is_Some (h !! planet).

Lemma closest_so_far_skip (pre : list loc) cn cd :
  closest_so_far h planet pre cn cd ->
  closest_so_far h planet (pre ++ [planet]) cn cd.
Proof.
  destruct cn as [q|]; cbn.
  - intros (Hcd & i & Hi & Hq & Hmin). split; [exact Hcd|].
    exists i. split; [apply lookup_app_l_Some; exact Hi|]. split; [exact Hq|].
    intros j q' Hj Hq'. apply lookup_snoc_Some in Hj as [[_ Hj]|[_ <-]].
    + exact (Hmin j q' Hj Hq').
    + contradiction.
  - intros [Hcd Hall]. split; [exact Hcd|].
    intros q [Hq|Hq]%elem_of_app; [auto|].
    apply list_elem_of_singleton in Hq. exact Hq.
Qed.

Lemma closest_so_far_keep (pre : list loc) (q other : loc) :
  closest_so_far h planet pre (Some q) (Fin (distance h planet q)) ->
  distance h planet q <= distance h planet other ->
  closest_so_far h planet (pre ++ [other]) (Some q) (Fin (distance h planet q)).
Proof.
  cbn. intros (_ & i & Hi & Hq & Hmin) Hle. split; [reflexivity|].
  exists i. split; [apply lookup_app_l_Some; exact Hi|]. split; [exact Hq|].
  intros j q' Hj Hq'. apply lookup_snoc_Some in Hj as [[_ Hj]|[Hjl <-]].
  - exact (Hmin j q' Hj Hq').
  - split; [exact Hle|]. intros Hlt. apply lookup_lt_Some in Hi. lia.
Qed.

Lemma closest_so_far_replace (pre : list loc) cn cd (other : loc) :
  closest_so_far h planet pre cn cd ->
  other <> planet ->
  lt_x (distance h planet other) cd = true ->
  closest_so_far h planet (pre ++ [other]) (Some other)
    (Fin (distance h planet other)).
Proof.
  intros Hst Hne Hlt. cbn. split; [reflexivity|].
  exists (length pre). split; [apply list_lookup_middle; reflexivity|].
  split; [exact Hne|].
  intros j q' Hj Hq'. apply lookup_snoc_Some in Hj as [[Hjl Hj]|[Hjl <-]].
  - destruct cn as [q|]; cbn in Hst.
    + destruct Hst as (-> & i & Hi & Hq & Hmin).
      cbn in Hlt. destruct (Rlt_dec _ _) as [Hlt'|]; [|discriminate].
      destruct (Hmin j q' Hj Hq') as [Hle _]. split; [|intros _]; lra.
    + destruct Hst as [_ Hall]. exfalso. apply Hq', Hall.
      apply list_elem_of_lookup. exists j. exact Hj.
  - split; [lra | lia].
Qed.

Lemma closest_loop_spec (rest : list loc) :
  forall (pre : list loc) cn cd,
  (forall q, q ∈ rest -> is_Some (h !! q)) ->
  closest_so_far h planet pre cn cd ->
  exists res cd',
    closest_loop h planet rest cn cd = Ok res /\
    closest_so_far h planet (pre ++ rest) res cd'.
Proof.
  induction rest as [|other rest IH]; intros pre cn cd Halive Hst.
  - exists cn, cd. rewrite app_nil_r. split; [reflexivity | exact Hst].
  - assert (Hrest : forall q, q ∈ rest -> is_Some (h !! q))
      by (intros q Hq; apply Halive; right; exact Hq).
    replace (pre ++ other :: rest) with ((pre ++ [other]) ++ rest)
      by (rewrite <- app_assoc; reflexivity).
    cbn [closest_loop]. destruct (decide (other = planet)) as [->|Hne].
    + apply IH; [exact Hrest|]. apply closest_so_far_skip. exact Hst.
    + destruct planet_alive as [p Hp].
      destruct (Halive other) as [o Ho]; [left|].
      rewrite (bind_Ok_l _ _ _ (deref_Some _ _ _ Hp)).
      rewrite (bind_Ok_l _ _ _ (deref_Some _ _ _ Ho)).
      assert (Hd : dist (get_position (base p)) (get_position (base o))
                   = distance h planet other)
        by (unfold distance, position_of; rewrite Hp, Ho; reflexivity).
      rewrite Hd.
      destruct (lt_x (distance h planet other) cd) eqn:Hlt.
      * apply IH; [exact Hrest|].
        exact (closest_so_far_replace pre cn cd other Hst Hne Hlt).
      * apply IH; [exact Hrest|].
        destruct cd as [r|]; [|discriminate]. cbn in Hlt.
        destruct (Rlt_dec _ _) as [|Hge]; [discriminate|].
        destruct cn as [q|]; cbn in Hst.
        -- destruct Hst as [E Hq]. injection E as ->.
           apply closest_so_far_keep; [|lra].
           cbn. split; [reflexivity | exact Hq].
        -- destruct Hst as [E _]. discriminate.
Qed.

End Closest.

(** C4, for distances that are real numbers.  For a reference body and
    candidates of the store the function returns without raising; the result
    is None exactly when every candidate is the reference itself (in
    particular for the empty list); otherwise it is a candidate other than
    the reference, at minimal distance among the candidates other than the
    reference, and every such candidate before it in the list is strictly
    farther.  The caller in [run_simulation] does not take None for an
    answer: on None the tally update of line 238 raises KeyError. *)
Theorem mostest_closest_neighbour_spec
    (h : gmap loc object) (planet : loc) (candidates : list loc) :
  is_Some (h !! planet) ->
  (forall q, q ∈ candidates -> is_Some (h !! q)) ->
  exists res,
    mostest_closest_neighbour h planet candidates = Ok res /\
    (res = None <-> forall q, q ∈ candidates -> q = planet) /\
    (forall q, res = Some q -> exists i, first_nearest h planet candidates q i) /\
    (res = None ->
     forall (sc : scenario) (st : sim_state),
       earth sc = planet -> all_planets sc = candidates ->
       tally sc h st = Raise KeyError).
Proof.
  intros Hp Hc.
  destruct (closest_loop_spec h planet Hp candidates [] None PInf Hc)
    as (res & cd & Hres & Hst).
  { cbn. split; [reflexivity|]. intros q Hq. inversion Hq. }
  rewrite app_nil_l in Hst.
  exists res. split; [exact Hres|].
  assert (Hcaller : res = None ->
            forall (sc : scenario) (st : sim_state),
              earth sc = planet -> all_planets sc = candidates ->
              tally sc h st = Raise KeyError).
  { intros -> sc st He Ha. unfold tally. rewrite He, Ha.
    rewrite (bind_Ok_l _ _ _ Hres). reflexivity. }
  destruct res as [q|]; cbn in Hst.
  - destruct Hst as (_ & i & Hi & Hq & Hmin). split; [|split].
    + split; [discriminate|]. intros Hall. exfalso. apply Hq, Hall.
      apply list_elem_of_lookup. exists i. exact Hi.
    + intros q' E. injection E as <-. exists i. repeat split; auto.
      all: apply (Hmin j q'); assumption.
    + exact Hcaller.
  - destruct Hst as [_ Hall]. split; [|split].
    + split; [intros _; exact Hall | reflexivity].
    + discriminate.
    + exact Hcaller.
Qed.

(** C4 does not hold as stated.  With Earth as the only candidate the
    search returns None, and the caller, lines 237-238, raises KeyError on
    it instead of taking it as an outcome.  And on binary64 floats None is
    returned although the list holds a candidate other than the reference:
    the two bodies of [heap_wide] are at the distance inf, which is not
    below [math.inf]. *)
Lemma none_is_an_error_for_the_caller :
  mostest_closest_neighbour store0 3 [3]%nat = Ok None /\
  tally scenario_alone store0 state0 = Raise KeyError /\
  Binary64.math_dist (Binary64.get_position Binary64.body_west)
                     (Binary64.get_position Binary64.body_east)
    = PrimFloat.infinity /\
  Binary64.mostest_closest_neighbour Binary64.heap_wide 0 [0; 1]%nat = Ok None.
Proof. repeat split. Qed.

Lemma heap_tie_0 : heap_tie !! 0%nat = Some (mkObject body_a None).
Proof.
  unfold heap_tie. rewrite lookup_insert_ne by discriminate. exact heap_ab_0.
Qed.

Lemma heap_tie_1 : heap_tie !! 1%nat = Some (mkObject body_b None).
Proof.
  unfold heap_tie. rewrite lookup_insert_ne by discriminate. exact heap_ab_1.
Qed.

Lemma heap_tie_2 : heap_tie !! 2%nat = Some (mkObject body_c None).
Proof. unfold heap_tie. apply lookup_insert_eq. Qed.

Lemma distance_tie_1 : distance heap_tie 0 1 = 5.
Proof.
  unfold distance, position_of. rewrite heap_tie_0, heap_tie_1.
  exact dist_a_b.
Qed.

Lemma distance_tie_2 : distance heap_tie 0 2 = 5.
Proof.
  unfold distance, position_of. rewrite heap_tie_0, heap_tie_2.
  unfold dist, get_position, body_a, body_c; cbn [fst snd base x y].
  replace ((0 - 4) ^ 2 + (0 - 3) ^ 2) with (5 ^ 2) by ring.
  apply sqrt_pow2. lra.
Qed.

Lemma store0_3 : store0 !! 3%nat = Some earth0.
Proof.
  unfold store0. rewrite !lookup_insert_ne by discriminate.
  apply lookup_insert_eq.
Qed.

(** With two candidates at the same distance the first one is returned; and
    with Earth as the only candidate the result is None and the tally
    update raises. *)
Lemma mostest_closest_neighbour_spec_witness :
  mostest_closest_neighbour heap_tie 0 [0; 1; 2]%nat = Ok (Some 1%nat) /\
  tally scenario_alone store0 state0 = Raise KeyError.
Proof.
  split.
  - destruct (mostest_closest_neighbour_spec heap_tie 0 [0; 1; 2]%nat)
      as (res & Hres & Hnone & Hsome & _).
    + eexists; exact heap_tie_0.
    + intros q Hq. apply list_elem_of_lookup in Hq as [i Hi].
      destruct i as [|[|[|i]]]; cbn in Hi; try discriminate;
        injection Hi as <-.
      * eexists; exact heap_tie_0.
      * eexists; exact heap_tie_1.
      * eexists; exact heap_tie_2.
    + rewrite Hres. destruct res as [q|].
      * destruct (Hsome q eq_refl) as (i & Hi & Hq & Hmin).
        destruct i as [|[|[|i]]]; cbn in Hi; try discriminate;
          injection Hi as <-.
        -- contradiction.
        -- reflexivity.
        -- exfalso.
           destruct (Hmin 1%nat 1%nat eq_refl ltac:(discriminate)) as [_ Hlt].
           specialize (Hlt ltac:(lia)).
           rewrite distance_tie_1, distance_tie_2 in Hlt. lra.
      * exfalso. destruct Hnone as [Hall _].
        specialize (Hall eq_refl 1%nat ltac:(right; left)). discriminate.
  - destruct (mostest_closest_neighbour_spec store0 3 [3]%nat)
      as (res & Hres & Hnone & _ & Hcaller).
    + eexists; exact store0_3.
    + intros q Hq. apply list_elem_of_singleton in Hq as ->.
      eexists; exact store0_3.
    + apply Hcaller; [|reflexivity..].
      apply Hnone. intros q Hq. apply list_elem_of_singleton in Hq. exact Hq.
Defined.

(** ** The store keeps its objects *)

Lemma CelestialObject_update_position_inv
    (h h' : gmap loc object) (self : loc) (bodies : list loc) :
  CelestialObject_update_position h self bodies = Ok h' ->
  exists (o : object) (b' : CelestialObject),
    h !! self = Some o /\ h' = <[self := mkObject b' (planet o)]> h.
Proof.
  unfold CelestialObject_update_position. intros H.
  apply bind_Ok_inv in H as (total & _ & H).
  apply bind_Ok_inv in H as (o & Ho & H).
  apply bind_Ok_inv in H as (ax & _ & H).
  apply bind_Ok_inv in H as (ay & _ & H).
  injection H as <-. apply deref_Ok_inv in Ho.
  eexists o, _. split; [exact Ho | reflexivity].
Qed.

Lemma dom_insert_alive (h : gmap loc object) (l : loc) (o o' : object) :
  h !! l = Some o -> dom (<[l := o']> h) = dom h.
Proof.
  intros Hl. apply dom_insert_lookup_L. eexists; exact Hl.
Qed.

Lemma CelestialObject_update_position_dom
    (h h' : gmap loc object) (self : loc) (bodies : list loc) :
  CelestialObject_update_position h self bodies = Ok h' -> dom h' = dom h.
Proof.
  intros H. apply CelestialObject_update_position_inv in H as (o & b' & Ho & ->).
  exact (dom_insert_alive _ _ _ _ Ho).
Qed.

Lemma Planet_update_position_dom
    (h h' : gmap loc object) (self : loc) (bodies : list loc) :
  Planet_update_position h self bodies = Ok h' -> dom h' = dom h.
Proof.
  intros H. apply Planet_update_position_inv in H
    as (h1 & o & st & pf & H1 & Ho & _ & _ & ->).
  rewrite (dom_insert_alive _ _ _ _ Ho).
  exact (CelestialObject_update_position_dom _ _ _ _ H1).
Qed.

Lemma update_position_dom
    (h h' : gmap loc object) (self : loc) (bodies : list loc) :
  update_position h self bodies = Ok h' -> dom h' = dom h.
Proof.
  unfold update_position. intros H.
  apply bind_Ok_inv in H as (o & _ & H). destruct (planet o).
  - exact (Planet_update_position_dom _ _ _ _ H).
  - exact (CelestialObject_update_position_dom _ _ _ _ H).
Qed.

Lemma update_planets_dom (bodies ps : list loc) :
  forall h h' : gmap loc object,
  update_planets h bodies ps = Ok h' -> dom h' = dom h.
Proof.
  induction ps as [|p ps IH]; intros h h' H; cbn [update_planets] in H.
  - injection H as <-. reflexivity.
  - apply bind_Ok_inv in H as (h1 & H1 & H).
    rewrite (IH _ _ H). exact (update_position_dom _ _ _ _ H1).
Qed.

Lemma update_positions_dom (h h' : gmap loc object) (sys : SolarSystem) :
  update_positions h sys = Ok h' -> dom h' = dom h.
Proof.
  unfold update_positions. intros H.
  apply bind_Ok_inv in H as (h0 & H0 & H).
  rewrite (update_planets_dom _ _ _ _ H).
  exact (update_position_dom _ _ _ _ H0).
Qed.

(** ** The loop over the planets, split *)

Lemma update_planets_app (bodies ps1 ps2 : list loc) :
  forall h : gmap loc object,
  update_planets h bodies (ps1 ++ ps2) =
    update_planets h bodies ps1 ≫= fun h1 => update_planets h1 bodies ps2.
Proof.
  induction ps1 as [|p ps1 IH]; intros h; cbn [app update_planets].
  - reflexivity.
  - destruct (update_position h p bodies) as [h1|e]; cbn; [apply IH | reflexivity].
Qed.

(** ** C9: the setters *)

Lemma set_position_Ok (h : gmap loc object) (self : loc) (o : object) (x' y' : R) :
  h !! self = Some o ->
  set_position h self x' y' =
    Ok (<[self := mkObject (with_position (base o) x' y') (planet o)]> h).
Proof.
  intros Ho. unfold set_position.
  rewrite (bind_Ok_l _ _ _ (deref_Some _ _ _ Ho)). reflexivity.
Qed.

Lemma set_velocity_Ok (h : gmap loc object) (self : loc) (o : object) (xv yv : R) :
  h !! self = Some o ->
  set_velocity h self xv yv =
    Ok (<[self := mkObject (with_velocity (base o) xv yv) (planet o)]> h).
Proof.
  intros Ho. unfold set_velocity.
  rewrite (bind_Ok_l _ _ _ (deref_Some _ _ _ Ho)). reflexivity.
Qed.

(** After the step of a planet its [distance_to_parent] is the distance
    between its new position and the position of its star. *)
Lemma Planet_update_position_distance
    (h h' : gmap loc object) (p : loc) (bodies : list loc) :
  Planet_update_position h p bodies = Ok h' ->
  exists (o' : object) (pf' : PlanetFields),
    h' !! p = Some o' /\ planet o' = Some pf' /\
    distance_to_parent pf' = distance h' p (parent_star pf').
Proof.
  intros H. apply Planet_update_position_inv in H
    as (h1 & o & st & pf & _ & Ho & Hpf & Hst & ->).
  eexists _, _. split; [apply lookup_insert_eq|]. split; [reflexivity|].
  cbn [distance_to_parent parent_star]. unfold distance, position_of.
  rewrite lookup_insert_eq. cbn [base].
  destruct (decide (p = parent_star pf)) as [E|N].
  - rewrite <- E in *. rewrite lookup_insert_eq. cbn [base].
    rewrite Ho in Hst. injection Hst as <-. reflexivity.
  - rewrite lookup_insert_ne by exact N. rewrite Hst. reflexivity.
Qed.

(** C9. [set_position] replaces x and y and [set_velocity] replaces x_vel
    and y_vel; every other field of the object, its planet fields included,
    and every other object stay as they were.  A planet built at [pos] and
    then moved keeps the [distance_to_parent] computed from [pos] and its
    empty trail; the step of a planet sets [distance_to_parent] to the
    current distance. *)
Theorem setters_change_only_their_fields :
  (forall (h : gmap loc object) (self : loc) (o : object) (x' y' : R),
     h !! self = Some o ->
     set_position h self x' y' =
       Ok (<[self := mkObject
               (mkCelestialObject (name (base o)) (radius (base o))
                  (color (base o)) (mass (base o)) x' y'
                  (x_vel (base o)) (y_vel (base o)))
               (planet o)]> h)) /\
  (forall (h : gmap loc object) (self : loc) (o : object) (xv yv : R),
     h !! self = Some o ->
     set_velocity h self xv yv =
       Ok (<[self := mkObject
               (mkCelestialObject (name (base o)) (radius (base o))
                  (color (base o)) (mass (base o)) (x (base o)) (y (base o))
                  xv yv)
               (planet o)]> h)) /\
  (forall (h h1 h2 : gmap loc object) (nm : string) (parent : loc) (r : Z)
          (c : Color) (m : R) (pos vel : R * R) (p : loc) (x' y' : R),
     Planet_init h nm parent r c m pos vel = Ok (h1, p) ->
     set_position h1 p x' y' = Ok h2 ->
     exists o : object,
       h2 !! p = Some o /\
       get_position (base o) = (x', y') /\
       planet o = Some (mkPlanetFields [] parent (dist pos (position_of h parent)))) /\
  (forall (h h' : gmap loc object) (p : loc) (bodies : list loc),
     Planet_update_position h p bodies = Ok h' ->
     exists (o' : object) (pf' : PlanetFields),
       h' !! p = Some o' /\ planet o' = Some pf' /\
       distance_to_parent pf' = distance h' p (parent_star pf')).
Proof.
  split; [exact set_position_Ok|]. split; [exact set_velocity_Ok|].
  split; [|exact Planet_update_position_distance].
  intros h h1 h2 nm parent r c m pos vel p x' y' Hinit Hset.
  unfold Planet_init in Hinit.
  apply bind_Ok_inv in Hinit as (st & Hst & Hinit).
  injection Hinit as <- <-.
  apply deref_Ok_inv in Hst.
  rewrite (set_position_Ok _ _ _ x' y' (lookup_insert_eq _ _ _)) in Hset.
  injection Hset as <-.
  eexists. split; [apply lookup_insert_eq|]. split; [reflexivity|].
  cbn [planet]. unfold position_of. rewrite Hst.
  destruct pos as [px py]. reflexivity.
Qed.

Lemma setters_change_only_their_fields_witness :
  let h : gmap loc object := <[0%nat := sun0]> ∅ in
  exists (h1 h2 : gmap loc object) (p : loc) (o : object) (pf : PlanetFields),
    Planet_init h "Mercury" 0 4 GRAY (330 / 100 * 10 ^ 23) (0, 0) (0, 0)
      = Ok (h1, p) /\
    set_position h1 p (387 / 1000 * AU) 0 = Ok h2 /\
    h2 !! p = Some o /\ planet o = Some pf /\ orbit pf = [] /\
    distance_to_parent pf = 0 /\
    distance h2 p 0 = 387 / 1000 * AU.
Proof.
  intros h.
  set (b := mkCelestialObject "Mercury" 4 GRAY (330 / 100 * 10 ^ 23) 0 0 0 0).
  set (pf := mkPlanetFields [] 0 (dist (0, 0) (0, 0))).
  set (h1 := <[1%nat := mkObject b (Some pf)]> h).
  set (h2 := <[1%nat := mkObject (with_position b (387 / 1000 * AU) 0) (Some pf)]> h1).
  assert (Hinit : Planet_init h "Mercury" 0 4 GRAY (330 / 100 * 10 ^ 23)
                    (0, 0) (0, 0) = Ok (h1, 1%nat)) by reflexivity.
  assert (Hset : set_position h1 1 (387 / 1000 * AU) 0 = Ok h2)
    by exact (set_position_Ok h1 1 (mkObject b (Some pf)) _ _
                (lookup_insert_eq _ _ _)).
  destruct setters_change_only_their_fields as (_ & _ & Hstale & _).
  destruct (Hstale _ _ _ _ _ _ _ _ _ _ _ _ _ Hinit Hset) as (o & Ho & Hpos & Hpl).
  assert (Hsun : position_of h 0 = (0, 0)).
  { unfold position_of, h. rewrite lookup_insert_eq. reflexivity. }
  rewrite Hsun in Hpl.
  exists h1, h2, 1%nat, o, pf. repeat split; auto.
  - apply dist_zero_iff. reflexivity.
  - unfold distance, position_of. rewrite Ho, Hpos.
    unfold h2, h1, h. rewrite !lookup_insert_ne by discriminate.
    rewrite lookup_insert_eq.
    unfold dist, get_position, sun0; cbn [fst snd base x y].
    replace ((387 / 1000 * AU - 0) ^ 2 + (0 - 0) ^ 2)
      with ((387 / 1000 * AU) ^ 2) by ring.
    apply sqrt_pow2. unfold AU. lra.
Defined.

(** ** C7 and C10: the tally *)

Lemma sum_counts_insert (d : gmap loc Z) (k : loc) (v v' : Z) :
  d !! k = Some v ->
  sum_counts (<[k := v']> d) = (sum_counts d - v + v')%Z.
Proof.
  intros Hk. unfold sum_counts.
  rewrite <- insert_delete_eq.
  rewrite map_fold_insert_L.
  - rewrite (map_fold_delete_L _ _ k v d); [lia| |exact Hk].
    intros; lia.
  - intros; lia.
  - apply lookup_delete_eq.
Qed.

Lemma increment_inv (d d' : gmap loc Z) (key : option loc) :
  increment d key = Ok d' ->
  exists (k : loc) (v : Z),
    key = Some k /\ d !! k = Some v /\ d' = <[k := (v + 1)%Z]> d.
Proof.
  unfold increment. destruct key as [k|]; [|discriminate].
  destruct (d !! k) as [v|] eqn:Hk; [|discriminate].
  intros H. injection H as <-. exists k, v. auto.
Qed.

Lemma tally_inv (sc : scenario) (h : gmap loc object) (st st' : sim_state) :
  tally sc h st = Ok st' ->
  exists (p : loc) (v : Z),
    mostest_closest_neighbour h (earth sc) (all_planets sc) = Ok (Some p) /\
    closest_count st !! p = Some v /\
    st' = mkSimState h (count st + 1) (<[p := (v + 1)%Z]> (closest_count st)).
Proof.
  unfold tally. intros H.
  apply bind_Ok_inv in H as (cp & Hcp & H).
  apply bind_Ok_inv in H as (d & Hd & H).
  injection H as <-.
  apply increment_inv in Hd as (p & v & -> & Hv & ->).
  exists p, v. auto.
Qed.

Lemma tick_inv (sc : scenario) (st st' : sim_state) :
  tick sc st = Ok st' ->
  exists h : gmap loc object,
    update_positions (store st) (solar_system sc) = Ok h /\
    tally sc h st = Ok st'.
Proof.
  unfold tick. intros H.
  apply bind_Ok_inv in H as (h & Hh & H).
  apply bind_Ok_inv in H as (st1 & Ht & H).
  apply bind_Ok_inv in H as (? & _ & H).
  apply bind_Ok_inv in H as (? & _ & H).
  apply bind_Ok_inv in H as (? & _ & H).
  injection H as <-. exists h. auto.
Qed.

(** With another body among the candidates the result is one of them. *)
Lemma mostest_closest_neighbour_Some
    (h : gmap loc object) (planet other : loc) (candidates : list loc) :
  is_Some (h !! planet) ->
  (forall q, q ∈ candidates -> is_Some (h !! q)) ->
  other ∈ candidates -> other <> planet ->
  exists q,
    mostest_closest_neighbour h planet candidates = Ok (Some q) /\
    q ∈ candidates /\ q <> planet.
Proof.
  intros Hp Hc Hin Hne.
  destruct (closest_loop_spec h planet Hp candidates [] None PInf Hc)
    as (res & cd & Hres & Hst).
  { cbn. split; [reflexivity|]. intros q Hq. inversion Hq. }
  rewrite app_nil_l in Hst. destruct res as [q|]; cbn in Hst.
  - destruct Hst as (_ & i & Hi & Hq & _).
    exists q. split; [exact Hres|]. split; [|exact Hq].
    apply list_elem_of_lookup. exists i. exact Hi.
  - destruct Hst as [_ Hall]. exfalso. exact (Hne (Hall other Hin)).
Qed.

Lemma setup_eq : setup = Ok (scenario0, state0).
Proof. reflexivity. Qed.

Lemma invariant_state0 : invariant state0.
Proof. repeat split. cbn. lia. Qed.

Lemma tally_invariant (h : gmap loc object) (st st' : sim_state) :
  invariant st -> dom h = dom (store st) ->
  tally scenario0 h st = Ok st' ->
  invariant st' /\ count st' = (count st + 1)%Z.
Proof.
  intros (Hs & Hk & Hsum & Hc) Hh Ht.
  apply tally_inv in Ht as (p & v & _ & Hv & ->).
  unfold invariant. cbn [store closest_count count].
  split; [split; [|split; [|split]]|].
  - rewrite Hh. exact Hs.
  - rewrite dom_insert_lookup_L by (eexists; exact Hv). exact Hk.
  - rewrite (sum_counts_insert _ _ _ _ Hv). lia.
  - lia.
  - reflexivity.
Qed.

Lemma tick_invariant (st st' : sim_state) :
  invariant st -> tick scenario0 st = Ok st' ->
  invariant st' /\ count st' = (count st + 1)%Z.
Proof.
  intros Hinv Ht. apply tick_inv in Ht as (h & Hh & Ht).
  apply (tally_invariant h st st' Hinv); [|exact Ht].
  exact (update_positions_dom _ _ _ Hh).
Qed.

Lemma reachable_invariant (st : sim_state) :
  reachable scenario0 state0 st -> invariant st.
Proof.
  induction 1 as [|st st' _ IH Ht].
  - exact invariant_state0.
  - exact (proj1 (tick_invariant st st' IH Ht)).
Qed.

Lemma main_loop_reachable (sc : scenario) (st0 : sim_state) (frames : list bool) :
  forall st st' : sim_state,
  reachable sc st0 st -> main_loop sc frames st = Ok st' ->
  reachable sc st0 st'.
Proof.
  induction frames as [|quit rest IH]; intros st st' Hr H; cbn [main_loop] in H.
  - injection H as <-. exact Hr.
  - apply bind_Ok_inv in H as (st1 & Ht & H).
    assert (Hr1 := reach_tick sc st0 st st1 Hr Ht).
    destruct quit; [injection H as <-; exact Hr1 | exact (IH st1 st' Hr1 H)].
Qed.

Lemma main_loop_count (frames : list bool) :
  forall st st' : sim_state,
  invariant st -> main_loop scenario0 frames st = Ok st' ->
  count st' = (count st + ticks_run frames)%Z.
Proof.
  induction frames as [|quit rest IH]; intros st st' Hinv H;
    cbn [main_loop ticks_run] in *.
  - injection H as <-. lia.
  - apply bind_Ok_inv in H as (st1 & Ht & H).
    destruct (tick_invariant st st1 Hinv Ht) as [Hinv1 Hc].
    destruct quit; [injection H as <-; lia|].
    rewrite (IH st1 st' Hinv1 H). lia.
Qed.


Lemma store0_alive (h : gmap loc object) (q : loc) :
  dom h = dom store0 -> q ∈ [0; 1; 2; 3; 4]%nat -> is_Some (h !! q).
Proof.
  intros Hd Hq. apply elem_of_dom. rewrite Hd. unfold store0.
  rewrite !dom_insert_L.
  repeat (apply elem_of_cons in Hq as [->|Hq]); [set_solver.. |].
  inversion Hq.
Qed.

Lemma counts0_key (d : gmap loc Z) (p : loc) :
  dom d = dom counts0 -> p ∈ [1; 2; 4]%nat -> is_Some (d !! p).
Proof.
  intros Hd Hp. apply elem_of_dom. rewrite Hd. unfold counts0.
  rewrite !dom_insert_L.
  repeat (apply elem_of_cons in Hp as [->|Hp]); [set_solver.. |].
  inversion Hp.
Qed.

(** Whatever the positions, the planet nearest to Earth is Mercury, Venus or
    Mars. *)
Lemma closest_to_earth (h : gmap loc object) :
  dom h = dom store0 ->
  exists p : loc,
    mostest_closest_neighbour h 3 [1; 2; 3; 4]%nat = Ok (Some p) /\
    p ∈ [1; 2; 4]%nat.
Proof.
  intros Hd.
  destruct (mostest_closest_neighbour_Some h 3 1 [1; 2; 3; 4]%nat)
    as (p & Hp & Hin & Hne).
  - apply (store0_alive h 3 Hd). set_solver.
  - intros q Hq. apply (store0_alive h q Hd). set_solver.
  - set_solver.
  - discriminate.
  - exists p. split; [exact Hp|].
    repeat (apply elem_of_cons in Hin as [->|Hin]);
      [set_solver | set_solver | contradiction | set_solver | inversion Hin].
Qed.


(** ** Bodies on one horizontal line *)

Lemma dist_horizontal (a b : CelestialObject) :
  y b = y a -> dist (get_position a) (get_position b) = Rabs (x b - x a).
Proof.
  intros Hy. rewrite dist_towards, Hy.
  replace ((x b - x a) ^ 2 + (y a - y a) ^ 2) with ((x b - x a)²)
    by (unfold Rsqr; ring).
  apply sqrt_Rsqr_abs.
Qed.

Lemma force_from_the_right (a b : CelestialObject) :
  y b = y a -> x a < x b ->
  calculate_force_vectors a b =
    Ok (G * mass a * mass b / (x b - x a) ^ 2, 0).
Proof.
  intros Hy Hx.
  assert (Hd : dist (get_position a) (get_position b) = x b - x a)
    by (rewrite dist_horizontal by exact Hy; apply Rabs_pos_eq; lra).
  rewrite calculate_force_vectors_unit by (rewrite Hd; lra).
  rewrite Hd, Hy. apply (f_equal Ok), (f_equal2 pair); field; lra.
Qed.

Lemma force_from_the_left (a b : CelestialObject) :
  y b = y a -> x b < x a ->
  calculate_force_vectors a b =
    Ok (- (G * mass a * mass b / (x a - x b) ^ 2), 0).
Proof.
  intros Hy Hx.
  assert (Hd : dist (get_position a) (get_position b) = x a - x b).
  { rewrite dist_horizontal by exact Hy. rewrite Rabs_left by lra. ring. }
  rewrite calculate_force_vectors_unit by (rewrite Hd; lra).
  rewrite Hd, Hy. apply (f_equal Ok), (f_equal2 pair); field; lra.
Qed.

(** ** A tick of a star and one planet *)

(** [star_s] after its step in [heap_close], pulled by [planet_p]. *)
Lemma star_s_step :
  exists b : CelestialObject,
    update_position heap_close 0 [1]%nat
      = Ok (<[0%nat := mkObject b None]> heap_close) /\
    x b = - (G * TIME_STEP ^ 2) /\ y b = 0 /\ mass b = 1.
Proof.
  set (f := (- (G * 1 * 1 / (0 - -1) ^ 2), 0) : R * R).
  exists (euler_step star_s (Rsum [f].*1) (Rsum [f].*2)). split.
  - unfold update_position.
    rewrite (bind_Ok_l _ _ _ (deref_Some _ _ _ heap_close_0)). cbn [planet].
    apply (CelestialObject_update_position_Ok heap_close 0 [1]%nat
             (mkObject star_s None) [f]).
    + exact heap_close_0.
    + rewrite others_cons_other by discriminate.
      cbn [others filter list_filter forces]. unfold force_on.
      rewrite (bind_Ok_l _ _ _ (deref_Some _ _ _ heap_close_0)).
      rewrite (bind_Ok_l _ _ _ (deref_Some _ _ _ heap_close_1)).
      cbn [base].
      rewrite (force_from_the_left star_s planet_p);
        [reflexivity | reflexivity | cbn; lra].
    + cbn. lra.
  - unfold euler_step, f, Rsum, star_s.
    cbn [fst snd x y x_vel y_vel mass fmap list_fmap foldr].
    repeat split; field.
Qed.

(** The planet is stepped after the star, on the store that holds the star
    at its new position: the pull it feels is G / (1 - G T^2)^2, not the
    G / 1^2 of the distance before the tick. *)
Example planet_step_sees_moved_star :
  exists (h' : gmap loc object) (o : object),
    update_positions heap_close (mkSolarSystem "s" 0 [1]%nat) = Ok h' /\
    h' !! 1%nat = Some o /\
    x_vel (base o) = G / (1 - G * TIME_STEP ^ 2) ^ 2 * TIME_STEP /\
    x_vel (base o) <> G / 1 ^ 2 * TIME_STEP.
Proof.
  destruct star_s_step as (sb & Hstar & Hsx & Hsy & Hsm).
  set (h0 := <[0%nat := mkObject sb None]> heap_close) in *.
  assert (H00 : h0 !! 0%nat = Some (mkObject sb None)) by apply lookup_insert_eq.
  assert (H01 : h0 !! 1%nat = Some (mkObject planet_p (Some planet_p_fields))).
  { unfold h0. rewrite lookup_insert_ne by discriminate. exact heap_close_1. }
  assert (HGT : 0 < G * TIME_STEP ^ 2 < 1) by (unfold G, TIME_STEP; lra).
  set (f := (G * mass planet_p * mass sb / (x sb - x planet_p) ^ 2, 0) : R * R).
  assert (Hf : forces h0 1 (others 1 [0; 1]%nat) = Ok [f]).
  { rewrite others_cons_other, others_cons_self by discriminate.
    cbn [others filter list_filter forces]. unfold force_on.
    rewrite (bind_Ok_l _ _ _ (deref_Some _ _ _ H01)).
    rewrite (bind_Ok_l _ _ _ (deref_Some _ _ _ H00)).
    cbn [base]. rewrite (force_from_the_right planet_p sb); [reflexivity| |].
    - rewrite Hsy. reflexivity.
    - rewrite Hsx. cbn [x planet_p]. lra. }
  set (b1 := euler_step planet_p (Rsum [f].*1) (Rsum [f].*2)).
  set (h1 := <[1%nat := mkObject b1 (Some planet_p_fields)]> h0).
  assert (Hstep : CelestialObject_update_position h0 1 [0; 1]%nat = Ok h1).
  { apply (CelestialObject_update_position_Ok h0 1 [0; 1]%nat _ [f] H01 Hf).
    cbn. lra. }
  assert (H11 : h1 !! 1%nat = Some (mkObject b1 (Some planet_p_fields)))
    by apply lookup_insert_eq.
  assert (H10 : h1 !! parent_star planet_p_fields = Some (mkObject sb None)).
  { unfold h1. cbn [parent_star planet_p_fields].
    rewrite lookup_insert_ne by discriminate. exact H00. }
  pose proof (Planet_update_position_Ok h0 h1 1 [0; 1]%nat _ _ _
                Hstep H11 eq_refl H10) as HP. cbv zeta in HP.
  eexists _, _. split; [|split; [apply lookup_insert_eq|]].
  - unfold update_positions. cbn [star planets].
    rewrite (bind_Ok_l _ _ _ Hstar). fold h0. cbn [update_planets].
    unfold update_position at 1.
    rewrite (bind_Ok_l _ _ _ (deref_Some _ _ _ H01)). cbn [planet].
    rewrite (bind_Ok_l _ _ _ HP). reflexivity.
  - cbn [base]. unfold b1, euler_step, f, Rsum.
    cbn [x_vel fst snd fmap list_fmap foldr mass x planet_p].
    rewrite Hsx, Hsm.
    set (D := (1 - G * TIME_STEP ^ 2) ^ 2).
    assert (HD : 0 < D < 1) by (unfold D; nra).
    assert (Hv : 0 + (G * 1 * 1 / (- (G * TIME_STEP ^ 2) - -1) ^ 2 + 0) / 1 * TIME_STEP
                 = G / D * TIME_STEP) by (unfold D; field; lra).
    rewrite Hv. split; [reflexivity|]. intros E.
    assert (HG : 0 < G * TIME_STEP) by (unfold G, TIME_STEP; lra).
    assert (E' : G * TIME_STEP = G * TIME_STEP * D).
    { replace (G * TIME_STEP) with (G / D * TIME_STEP * D) at 1 by (field; lra).
      rewrite E. field. }
    assert (0 < G * TIME_STEP * (1 - D)) by (apply Rmult_lt_0_compat; lra).
    lra.
Qed.

(** ** The first tick of the default scenario *)

Lemma force_defined (a b : CelestialObject) :
  get_position a <> get_position b ->
  exists f : R * R, calculate_force_vectors a b = Ok f.
Proof.
  intros Hne. eexists. apply calculate_force_vectors_Ok.
  intros Hd. apply Hne, dist_zero_iff, Hd.
Qed.

(** Between bodies at different heights the vertical pull is at most
    G |m_a m_b| / dy^2. *)
Lemma force_vertical_bound (a b : CelestialObject) :
  y b <> y a ->
  exists f : R * R,
    calculate_force_vectors a b = Ok f /\
    Rabs f.2 <= G * Rabs (mass a * mass b) / (y b - y a) ^ 2.
Proof.
  intros Hy.
  set (d := dist (get_position a) (get_position b)).
  assert (Hd2 : d ^ 2 = (x b - x a) ^ 2 + (y b - y a) ^ 2).
  { unfold d. rewrite dist_sqr. unfold get_position; cbn [fst snd]. ring. }
  assert (Hdy : 0 < (y b - y a) ^ 2).
  { assert (y b - y a <> 0) by lra.
    generalize (pow2_ge_0 (y b - y a)) (pow_nonzero (y b - y a) 2 H). lra. }
  assert (Hdx : 0 <= (x b - x a) ^ 2) by apply pow2_ge_0.
  assert (Hd0 : 0 <= d) by apply dist_nonneg.
  assert (Hd : 0 < d).
  { destruct (Req_dec_T d 0) as [E|N]; [|lra].
    rewrite E in Hd2. replace (0 ^ 2) with 0 in Hd2 by ring. lra. }
  eexists. split; [exact (calculate_force_vectors_unit a b Hd)|].
  cbn [snd]. fold d.
  assert (HG : 0 < G) by (unfold G; lra).
  replace (G * mass a * mass b / d ^ 2 * ((y b - y a) / d))
    with (G * (mass a * mass b) * / d ^ 2 * ((y b - y a) * / d)) by (field; lra).
  rewrite !Rabs_mult, !Rabs_inv, <- (Rabs_mult (mass a) (mass b)).
  rewrite (Rabs_pos_eq G), (Rabs_pos_eq d), (Rabs_pos_eq (d ^ 2)) by nra.
  set (M := Rabs (mass a * mass b)).
  assert (HM : 0 <= M) by apply Rabs_pos.
  assert (Hle : Rabs (y b - y a) <= d).
  { apply Rsqr_incr_0_var; [|exact Hd0].
    rewrite <- Rsqr_abs. unfold Rsqr. nra. }
  assert (Hid : 0 < / d) by (apply Rinv_0_lt_compat; exact Hd).
  assert (Hu : Rabs (y b - y a) * / d <= 1).
  { replace 1 with (d * / d) by (field; lra).
    apply Rmult_le_compat_r; [lra | exact Hle]. }
  assert (Hu0 : 0 <= Rabs (y b - y a) * / d).
  { apply Rmult_le_pos; [apply Rabs_pos | lra]. }
  assert (Hi : / d ^ 2 <= / (y b - y a) ^ 2).
  { apply Rinv_le_contravar; [exact Hdy | lra]. }
  assert (Hi0 : 0 < / d ^ 2) by (apply Rinv_0_lt_compat; nra).
  assert (HGM : 0 <= G * M) by nra.
  unfold Rdiv.
  apply Rle_trans with (G * M * / d ^ 2).
  - apply Rle_trans with (G * M * / d ^ 2 * 1); [|lra].
    apply Rmult_le_compat_l; [nra | exact Hu].
  - apply Rmult_le_compat_l; [exact HGM | exact Hi].
Qed.

Lemma force_on_Ok (h : gmap loc object) (self body : loc) (os ob : object) :
  h !! self = Some os -> h !! body = Some ob ->
  force_on h self body = calculate_force_vectors (base os) (base ob).
Proof.
  intros Hs Hb. unfold force_on.
  rewrite (bind_Ok_l _ _ _ (deref_Some _ _ _ Hs)).
  rewrite (bind_Ok_l _ _ _ (deref_Some _ _ _ Hb)). reflexivity.
Qed.

Lemma forces_four (h : gmap loc object) (self q1 q2 q3 q4 : loc)
    (f1 f2 f3 f4 : R * R) :
  force_on h self q1 = Ok f1 -> force_on h self q2 = Ok f2 ->
  force_on h self q3 = Ok f3 -> force_on h self q4 = Ok f4 ->
  forces h self [q1; q2; q3; q4] = Ok [f1; f2; f3; f4].
Proof. intros H1 H2 H3 H4. cbn [forces]. rewrite H1, H2, H3, H4. reflexivity. Qed.

(** The step of an object that is not a planet. *)
Lemma star_update_position_Ok
    (h : gmap loc object) (self : loc) (bodies : list loc)
    (o : object) (fs : list (R * R)) :
  h !! self = Some o -> planet o = None ->
  forces h self (others self bodies) = Ok fs ->
  mass (base o) <> 0 ->
  update_position h self bodies =
    Ok (<[self := mkObject (euler_step (base o) (Rsum fs.*1) (Rsum fs.*2))
                    None]> h).
Proof.
  intros Ho Hp Hfs Hm. unfold update_position.
  rewrite (bind_Ok_l _ _ _ (deref_Some _ _ _ Ho)), Hp.
  rewrite (CelestialObject_update_position_Ok h self bodies o fs Ho Hfs Hm).
  rewrite Hp. reflexivity.
Qed.

(** The step of a planet: the base fields take one Euler step. *)
Lemma planet_update_position_Ok
    (h : gmap loc object) (self : loc) (bodies : list loc)
    (o st : object) (pf : PlanetFields) (fs : list (R * R)) :
  h !! self = Some o -> planet o = Some pf ->
  forces h self (others self bodies) = Ok fs ->
  mass (base o) <> 0 ->
  h !! parent_star pf = Some st -> parent_star pf <> self ->
  exists pf' : PlanetFields,
    update_position h self bodies =
      Ok (<[self := mkObject (euler_step (base o) (Rsum fs.*1) (Rsum fs.*2))
                      (Some pf')]> h).
Proof.
  intros Ho Hp Hfs Hm Hst Hne.
  pose proof (CelestialObject_update_position_Ok h self bodies o fs Ho Hfs Hm)
    as H1.
  set (b' := euler_step (base o) (Rsum fs.*1) (Rsum fs.*2)) in *.
  set (h1 := <[self := mkObject b' (planet o)]> h) in *.
  assert (Ho1 : h1 !! self = Some (mkObject b' (planet o)))
    by apply lookup_insert_eq.
  assert (Hst1 : h1 !! parent_star pf = Some st).
  { unfold h1. rewrite lookup_insert_ne by (intros E; apply Hne; symmetry; exact E).
    exact Hst. }
  pose proof (Planet_update_position_Ok h h1 self bodies _ _ pf H1 Ho1 Hp Hst1)
    as HP. cbv zeta in HP. cbn [base] in HP.
  eexists. unfold update_position.
  rewrite (bind_Ok_l _ _ _ (deref_Some _ _ _ Ho)), Hp, HP.
  unfold h1. rewrite insert_insert_eq. reflexivity.
Qed.

Lemma store0_0 : store0 !! 0%nat = Some sun0.
Proof. unfold store0. rewrite !lookup_insert_ne by discriminate. apply lookup_insert_eq. Qed.

Lemma store0_1 : store0 !! 1%nat = Some mercury0.
Proof. unfold store0. rewrite !lookup_insert_ne by discriminate. apply lookup_insert_eq. Qed.

Lemma store0_2 : store0 !! 2%nat = Some venus0.
Proof. unfold store0. rewrite !lookup_insert_ne by discriminate. apply lookup_insert_eq. Qed.

Lemma store0_4 : store0 !! 4%nat = Some mars0.
Proof. unfold store0. apply lookup_insert_eq. Qed.

(** The sun stays on the horizontal axis and moves by less than a
    kilometre. *)
Lemma sun_first_step :
  exists b : CelestialObject,
    update_position store0 0 [1; 2; 3; 4]%nat
      = Ok (<[0%nat := mkObject b None]> store0) /\
    y b = 0 /\ -1000 < x b < 1000 /\ mass b = mass (base sun0).
Proof.
  set (s := base sun0).
  set (f1 := (G * mass s * mass (base mercury0)
                / (x (base mercury0) - x s) ^ 2, 0) : R * R).
  set (f2 := (- (G * mass s * mass (base venus0)
                   / (x s - x (base venus0)) ^ 2), 0) : R * R).
  set (f3 := (G * mass s * mass (base earth0)
                / (x (base earth0) - x s) ^ 2, 0) : R * R).
  set (f4 := (- (G * mass s * mass (base mars0)
                   / (x s - x (base mars0)) ^ 2), 0) : R * R).
  exists (euler_step s (Rsum [f1; f2; f3; f4].*1) (Rsum [f1; f2; f3; f4].*2)).
  split; [|split; [|split]].
  - apply (star_update_position_Ok store0 0 _ sun0 _ store0_0 eq_refl).
    + change (others 0 [1; 2; 3; 4]%nat) with [1; 2; 3; 4]%nat.
      apply forces_four.
      * rewrite (force_on_Ok _ _ _ _ _ store0_0 store0_1).
        apply force_from_the_right; [reflexivity | cbn; unfold AU; lra].
      * rewrite (force_on_Ok _ _ _ _ _ store0_0 store0_2).
        apply force_from_the_left; [reflexivity | cbn; unfold AU; lra].
      * rewrite (force_on_Ok _ _ _ _ _ store0_0 store0_3).
        apply force_from_the_right; [reflexivity | cbn; unfold AU; lra].
      * rewrite (force_on_Ok _ _ _ _ _ store0_0 store0_4).
        apply force_from_the_left; [reflexivity | cbn; unfold AU; lra].
    + cbn. lra.
  - unfold euler_step, f1, f2, f3, f4, Rsum, s.
    cbn [fst snd x y x_vel y_vel mass fmap list_fmap foldr base sun0].
    unfold TIME_STEP. field; lra.
  - unfold euler_step, f1, f2, f3, f4, Rsum, s.
    cbn [fst snd x y x_vel y_vel mass fmap list_fmap foldr base
         sun0 mercury0 venus0 earth0 mars0 planet0].
    unfold TIME_STEP, G, AU. split; field_simplify; lra.
  - reflexivity.
Qed.

Lemma Rabs_between (r a : R) : Rabs r <= a -> - a <= r <= a.
Proof. unfold Rabs. destruct (Rcase_abs r); lra. Qed.

Section FirstTick.

(** The sun after its step. *)
Variable sb : CelestialObject.
Hypothesis sb_y : y sb = 0.
Hypothesis sb_x : -1000 < x sb < 1000.
Hypothesis sb_mass : mass sb = mass (base sun0).

Local Abbreviation bodies := [0; 1; 2; 3; 4]%nat.
Local Abbreviation h0 := (<[0%nat := mkObject sb None]> store0).

Lemma h0_0 : h0 !! 0%nat = Some (mkObject sb None).
Proof. apply lookup_insert_eq. Qed.

Lemma h0_1 : h0 !! 1%nat = Some mercury0.
Proof. rewrite lookup_insert_ne by discriminate. exact store0_1. Qed.

Lemma h0_2 : h0 !! 2%nat = Some venus0.
Proof. rewrite lookup_insert_ne by discriminate. exact store0_2. Qed.

Lemma h0_3 : h0 !! 3%nat = Some earth0.
Proof. rewrite lookup_insert_ne by discriminate. exact store0_3. Qed.

Lemma h0_4 : h0 !! 4%nat = Some mars0.
Proof. rewrite lookup_insert_ne by discriminate. exact store0_4. Qed.

(** Mercury is pulled along the axis only: it rises by 47400 m/s for a day. *)
Lemma mercury_first_step :
  exists (b : CelestialObject) (pf : PlanetFields),
    update_position h0 1 bodies = Ok (<[1%nat := mkObject b (Some pf)]> h0) /\
    y b = 47400 * TIME_STEP /\ mass b = mass (base mercury0).
Proof.
  set (m := base mercury0).
  set (f0 := (- (G * mass m * mass sb / (x m - x sb) ^ 2), 0) : R * R).
  set (f2 := (- (G * mass m * mass (base venus0)
                   / (x m - x (base venus0)) ^ 2), 0) : R * R).
  set (f3 := (G * mass m * mass (base earth0)
                / (x (base earth0) - x m) ^ 2, 0) : R * R).
  set (f4 := (- (G * mass m * mass (base mars0)
                   / (x m - x (base mars0)) ^ 2), 0) : R * R).
  destruct (planet_update_position_Ok h0 1 bodies mercury0 (mkObject sb None)
              (mkPlanetFields [] 0 (dist (0, 0) (0, 0))) [f0; f2; f3; f4])
    as [pf Hpf].
  - exact h0_1.
  - reflexivity.
  - change (others 1 bodies) with [0; 2; 3; 4]%nat. apply forces_four.
    + rewrite (force_on_Ok _ _ _ _ _ h0_1 h0_0).
      apply force_from_the_left; [exact sb_y | cbn; unfold AU; lra].
    + rewrite (force_on_Ok _ _ _ _ _ h0_1 h0_2).
      apply force_from_the_left; [reflexivity | cbn; unfold AU; lra].
    + rewrite (force_on_Ok _ _ _ _ _ h0_1 h0_3).
      apply force_from_the_right; [reflexivity | cbn; unfold AU; lra].
    + rewrite (force_on_Ok _ _ _ _ _ h0_1 h0_4).
      apply force_from_the_left; [reflexivity | cbn; unfold AU; lra].
  - cbn. lra.
  - exact h0_0.
  - discriminate.
  - eexists _, pf. split; [exact Hpf|]. split; [|reflexivity].
    unfold euler_step, f0, f2, f3, f4, Rsum, m.
    cbn [fst snd y y_vel mass fmap list_fmap foldr base mercury0 planet0].
    field; lra.
Qed.

(** Mercury after its step. *)
Variable mb : CelestialObject.
Variable mpf : PlanetFields.
Hypothesis mb_y : y mb = 47400 * TIME_STEP.
Hypothesis mb_mass : mass mb = mass (base mercury0).

Local Abbreviation h1 := (<[1%nat := mkObject mb (Some mpf)]> h0).

Lemma h1_0 : h1 !! 0%nat = Some (mkObject sb None).
Proof. rewrite lookup_insert_ne by discriminate. exact h0_0. Qed.

Lemma h1_1 : h1 !! 1%nat = Some (mkObject mb (Some mpf)).
Proof. apply lookup_insert_eq. Qed.

Lemma h1_2 : h1 !! 2%nat = Some venus0.
Proof. rewrite lookup_insert_ne by discriminate. exact h0_2. Qed.

Lemma h1_3 : h1 !! 3%nat = Some earth0.
Proof. rewrite lookup_insert_ne by discriminate. exact h0_3. Qed.

Lemma h1_4 : h1 !! 4%nat = Some mars0.
Proof. rewrite lookup_insert_ne by discriminate. exact h0_4. Qed.

(** Mercury's pull changes the vertical velocity of Venus by less than
    1 m/s: Venus sinks. *)
Lemma venus_first_step :
  exists (b : CelestialObject) (pf : PlanetFields),
    update_position h1 2 bodies = Ok (<[2%nat := mkObject b (Some pf)]> h1) /\
    y b <= - 35019 * TIME_STEP /\ mass b = mass (base venus0).
Proof.
  set (v := base venus0).
  set (f0 := (G * mass v * mass sb / (x sb - x v) ^ 2, 0) : R * R).
  set (f3 := (G * mass v * mass (base earth0)
                / (x (base earth0) - x v) ^ 2, 0) : R * R).
  set (f4 := (- (G * mass v * mass (base mars0)
                   / (x v - x (base mars0)) ^ 2), 0) : R * R).
  destruct (force_vertical_bound v mb) as (f1 & Hf1 & Hb1).
  { rewrite mb_y. cbn. unfold TIME_STEP. lra. }
  destruct (planet_update_position_Ok h1 2 bodies venus0 (mkObject sb None)
              (mkPlanetFields [] 0 (dist (0, 0) (0, 0))) [f0; f1; f3; f4])
    as [pf Hpf].
  - exact h1_2.
  - reflexivity.
  - change (others 2 bodies) with [0; 1; 3; 4]%nat. apply forces_four.
    + rewrite (force_on_Ok _ _ _ _ _ h1_2 h1_0).
      apply force_from_the_right; [exact sb_y | cbn; unfold AU; lra].
    + rewrite (force_on_Ok _ _ _ _ _ h1_2 h1_1). exact Hf1.
    + rewrite (force_on_Ok _ _ _ _ _ h1_2 h1_3).
      apply force_from_the_right; [reflexivity | cbn; unfold AU; lra].
    + rewrite (force_on_Ok _ _ _ _ _ h1_2 h1_4).
      apply force_from_the_left; [reflexivity | cbn; unfold AU; lra].
  - cbn. lra.
  - exact h1_0.
  - discriminate.
  - eexists _, pf. split; [exact Hpf|]. split; [|reflexivity].
    rewrite mb_y, mb_mass in Hb1.
    rewrite (Rabs_pos_eq (mass v * mass (base mercury0))) in Hb1
      by (cbn; lra).
    apply Rabs_between in Hb1.
    unfold euler_step, f0, f3, f4, Rsum, v in *.
    cbn [fst snd y y_vel mass fmap list_fmap foldr base venus0 mercury0 planet0]
      in *.
    unfold TIME_STEP, G in *.
    assert (Hc : 667428 / 10 ^ 16 *
                   (48685 / 10000 * 10 ^ 24 * (330 / 100 * 10 ^ 23)) /
                   (47400 * (60 * 60 * 24) - 0) ^ 2
                 <= 48685 / 10000 * 10 ^ 24 / (60 * 60 * 24))
      by (field_simplify; lra).
    lra.
Qed.

(** Venus after its step. *)
Variable vb : CelestialObject.
Variable vpf : PlanetFields.
Hypothesis vb_y : y vb <= - 35019 * TIME_STEP.
Hypothesis vb_mass : mass vb = mass (base venus0).

Local Abbreviation h2 := (<[2%nat := mkObject vb (Some vpf)]> h1).

Lemma h2_0 : h2 !! 0%nat = Some (mkObject sb None).
Proof. rewrite lookup_insert_ne by discriminate. exact h1_0. Qed.

Lemma h2_1 : h2 !! 1%nat = Some (mkObject mb (Some mpf)).
Proof. rewrite lookup_insert_ne by discriminate. exact h1_1. Qed.

Lemma h2_2 : h2 !! 2%nat = Some (mkObject vb (Some vpf)).
Proof. apply lookup_insert_eq. Qed.

Lemma h2_3 : h2 !! 3%nat = Some earth0.
Proof. rewrite lookup_insert_ne by discriminate. exact h1_3. Qed.

Lemma h2_4 : h2 !! 4%nat = Some mars0.
Proof. rewrite lookup_insert_ne by discriminate. exact h1_4. Qed.

(** Mercury and Venus together change the vertical velocity of Earth by
    less than 4 m/s: Earth rises. *)
Lemma earth_first_step :
  exists (b : CelestialObject) (pf : PlanetFields),
    update_position h2 3 bodies = Ok (<[3%nat := mkObject b (Some pf)]> h2) /\
    0 < y b.
Proof.
  set (e := base earth0).
  set (f0 := (- (G * mass e * mass sb / (x e - x sb) ^ 2), 0) : R * R).
  set (f4 := (- (G * mass e * mass (base mars0)
                   / (x e - x (base mars0)) ^ 2), 0) : R * R).
  assert (HT : 0 < TIME_STEP) by (unfold TIME_STEP; lra).
  destruct (force_vertical_bound e mb) as (f1 & Hf1 & Hb1).
  { rewrite mb_y. cbn. lra. }
  destruct (force_vertical_bound e vb) as (f2 & Hf2 & Hb2).
  { cbn. lra. }
  destruct (planet_update_position_Ok h2 3 bodies earth0 (mkObject sb None)
              (mkPlanetFields [] 0 (dist (0, 0) (0, 0))) [f0; f1; f2; f4])
    as [pf Hpf].
  - exact h2_3.
  - reflexivity.
  - change (others 3 bodies) with [0; 1; 2; 4]%nat. apply forces_four.
    + rewrite (force_on_Ok _ _ _ _ _ h2_3 h2_0).
      apply force_from_the_left; [exact sb_y | cbn; unfold AU; lra].
    + rewrite (force_on_Ok _ _ _ _ _ h2_3 h2_1). exact Hf1.
    + rewrite (force_on_Ok _ _ _ _ _ h2_3 h2_2). exact Hf2.
    + rewrite (force_on_Ok _ _ _ _ _ h2_3 h2_4).
      apply force_from_the_left; [reflexivity | cbn; unfold AU; lra].
  - cbn. lra.
  - exact h2_0.
  - discriminate.
  - eexists _, pf. split; [exact Hpf|].
    rewrite mb_y, mb_mass in Hb1. rewrite vb_mass in Hb2.
    rewrite (Rabs_pos_eq (mass e * mass (base mercury0))) in Hb1 by (cbn; lra).
    rewrite (Rabs_pos_eq (mass e * mass (base venus0))) in Hb2 by (cbn; lra).
    assert (Hb2' : Rabs f2.2 <= G * (mass e * mass (base venus0))
                                 / (35019 * TIME_STEP) ^ 2).
    { eapply Rle_trans; [exact Hb2|]. unfold Rdiv.
      apply Rmult_le_compat_l; [unfold G; cbn; lra|].
      apply Rinv_le_contravar; [nra|]. cbn [y e base earth0 planet0]. nra. }
    apply Rabs_between in Hb1. apply Rabs_between in Hb2'.
    unfold euler_step, f0, f4, Rsum, e in *.
    cbn [fst snd y y_vel mass fmap list_fmap foldr base
         earth0 venus0 mercury0 planet0] in *.
    unfold TIME_STEP, G in *.
    assert (Hc1 : 667428 / 10 ^ 16 *
                    (59742 / 10000 * 10 ^ 24 * (330 / 100 * 10 ^ 23)) /
                    (47400 * (60 * 60 * 24) - 0) ^ 2
                  <= 59742 / 10000 * 10 ^ 24 / (60 * 60 * 24))
      by (field_simplify; lra).
    assert (Hc2 : 667428 / 10 ^ 16 *
                    (59742 / 10000 * 10 ^ 24 * (48685 / 10000 * 10 ^ 24)) /
                    (35019 * (60 * 60 * 24)) ^ 2
                  <= 4 * (59742 / 10000 * 10 ^ 24) / (60 * 60 * 24))
      by (field_simplify; lra).
    lra.
Qed.

(** Earth after its step. *)
Variable eb : CelestialObject.
Variable epf : PlanetFields.
Hypothesis eb_y : 0 < y eb.

Local Abbreviation h3 := (<[3%nat := mkObject eb (Some epf)]> h2).

Lemma h3_0 : h3 !! 0%nat = Some (mkObject sb None).
Proof. rewrite lookup_insert_ne by discriminate. exact h2_0. Qed.

Lemma h3_1 : h3 !! 1%nat = Some (mkObject mb (Some mpf)).
Proof. rewrite lookup_insert_ne by discriminate. exact h2_1. Qed.

Lemma h3_2 : h3 !! 2%nat = Some (mkObject vb (Some vpf)).
Proof. rewrite lookup_insert_ne by discriminate. exact h2_2. Qed.

Lemma h3_3 : h3 !! 3%nat = Some (mkObject eb (Some epf)).
Proof. apply lookup_insert_eq. Qed.

Lemma h3_4 : h3 !! 4%nat = Some mars0.
Proof. rewrite lookup_insert_ne by discriminate. exact h2_4. Qed.

(** No body is where Mars is: its step returns. *)
Lemma mars_first_step :
  exists h4 : gmap loc object, update_position h3 4 bodies = Ok h4.
Proof.
  set (r := base mars0).
  assert (HT : 0 < TIME_STEP) by (unfold TIME_STEP; lra).
  destruct (force_defined r sb) as [f0 Hf0].
  { unfold get_position. intros E. injection E as Ex _.
    cbn in Ex. unfold AU in Ex. lra. }
  destruct (force_defined r mb) as [f1 Hf1].
  { unfold get_position. intros E. injection E as _ Ey.
    cbn in Ey. lra. }
  destruct (force_defined r vb) as [f2 Hf2].
  { unfold get_position. intros E. injection E as _ Ey.
    cbn in Ey. lra. }
  destruct (force_defined r eb) as [f3 Hf3].
  { unfold get_position. intros E. injection E as _ Ey.
    cbn in Ey. lra. }
  destruct (planet_update_position_Ok h3 4 bodies mars0 (mkObject sb None)
              (mkPlanetFields [] 0 (dist (0, 0) (0, 0))) [f0; f1; f2; f3])
    as [pf Hpf].
  - exact h3_4.
  - reflexivity.
  - change (others 4 bodies) with [0; 1; 2; 3]%nat. apply forces_four.
    + rewrite (force_on_Ok _ _ _ _ _ h3_4 h3_0). exact Hf0.
    + rewrite (force_on_Ok _ _ _ _ _ h3_4 h3_1). exact Hf1.
    + rewrite (force_on_Ok _ _ _ _ _ h3_4 h3_2). exact Hf2.
    + rewrite (force_on_Ok _ _ _ _ _ h3_4 h3_3). exact Hf3.
  - cbn. lra.
  - exact h3_0.
  - discriminate.
  - eexists. exact Hpf.
Qed.

End FirstTick.

(** The physics step of the first tick returns. *)
Lemma first_update_positions :
  exists h : gmap loc object,
    update_positions store0 (solar_system scenario0) = Ok h.
Proof.
  destruct sun_first_step as (sb & Hs & Hsy & Hsx & Hsm).
  destruct (mercury_first_step sb Hsy Hsx) as (mb & mpf & Hm & Hmy & Hmm).
  destruct (venus_first_step sb Hsy Hsx mb mpf Hmy Hmm)
    as (vb & vpf & Hv & Hvy & Hvm).
  destruct (earth_first_step sb Hsy Hsx mb mpf Hmy Hmm vb vpf Hvy Hvm)
    as (eb & epf & He & Hey).
  destruct (mars_first_step sb Hsx mb mpf Hmy vb vpf Hvy eb epf Hey)
    as (h4 & Hr).
  exists h4. unfold update_positions.
  cbn [star planets solar_system scenario0].
  rewrite (bind_Ok_l _ _ _ Hs). cbn [update_planets].
  rewrite (bind_Ok_l _ _ _ Hm), (bind_Ok_l _ _ _ Hv), (bind_Ok_l _ _ _ He).
  rewrite (bind_Ok_l _ _ _ Hr). reflexivity.
Qed.

(** ** An iteration fails only in its physics step *)

Lemma format_percentage_Ok (d : gmap loc Z) (c : Z) (k : loc) :
  is_Some (d !! k) -> c <> 0%Z ->
  exists r : R, format_percentage d c k = Ok r.
Proof.
  intros [v Hv] Hc. unfold format_percentage. rewrite Hv.
  rewrite py_div_Ok by (apply not_0_IZR; exact Hc).
  eexists. reflexivity.
Qed.

Lemma tick_after_physics (st : sim_state) (h : gmap loc object) :
  invariant st ->
  update_positions (store st) (solar_system scenario0) = Ok h ->
  exists st' : sim_state, tick scenario0 st = Ok st'.
Proof.
  intros (Hs & Hk & _ & Hc) Hh.
  assert (Hd : dom h = dom store0)
    by (rewrite (update_positions_dom _ _ _ Hh); exact Hs).
  destruct (closest_to_earth h Hd) as (p & Hp & Hin).
  destruct (counts0_key (closest_count st) p Hk Hin) as [v Hv].
  set (d := <[p := (v + 1)%Z]> (closest_count st)).
  assert (Hd' : dom d = dom counts0).
  { unfold d. rewrite dom_insert_lookup_L by (eexists; exact Hv). exact Hk. }
  assert (Ht : tally scenario0 h st = Ok (mkSimState h (count st + 1) d)).
  { unfold tally. cbn [earth all_planets scenario0].
    rewrite (bind_Ok_l _ _ _ Hp). cbn [increment]. rewrite Hv. reflexivity. }
  assert (Hc1 : (count st + 1)%Z <> 0%Z) by lia.
  destruct (format_percentage_Ok d (count st + 1) 1) as [r1 H1];
    [apply (counts0_key d 1 Hd'); set_solver | exact Hc1 |].
  destruct (format_percentage_Ok d (count st + 1) 2) as [r2 H2];
    [apply (counts0_key d 2 Hd'); set_solver | exact Hc1 |].
  destruct (format_percentage_Ok d (count st + 1) 4) as [r4 H4];
    [apply (counts0_key d 4 Hd'); set_solver | exact Hc1 |].
  eexists. unfold tick. rewrite (bind_Ok_l _ _ _ Hh), (bind_Ok_l _ _ _ Ht).
  cbn [closest_count count mercury venus mars scenario0].
  rewrite (bind_Ok_l _ _ _ H1), (bind_Ok_l _ _ _ H2), (bind_Ok_l _ _ _ H4).
  reflexivity.
Qed.

(** The first iteration of the loop runs to its end. *)
Lemma first_tick : exists st1 : sim_state, tick scenario0 state0 = Ok st1.
Proof.
  destruct first_update_positions as [h Hh].
  exact (tick_after_physics state0 h invariant_state0 Hh).
Qed.

(** ** C7 and C10: the theorems *)

(** C7. The loop starts with the counter and every count at zero, and its
    first iteration returns.  In every
    state the loop reaches the counts sum to the counter; an iteration adds
    one to the counter and one to the count of the planet found nearest to
    Earth, and to no other count; so the loop ends with the counts summing
    to the number of iterations it ran. *)
Theorem closest_count_sums_to_count :
  exists (sc : scenario) (st0 : sim_state),
    setup = Ok (sc, st0) /\
    count st0 = 0%Z /\
    (exists st1, tick sc st0 = Ok st1) /\
    (forall st, reachable sc st0 st ->
       sum_counts (closest_count st) = count st) /\
    (forall st st', reachable sc st0 st -> tick sc st = Ok st' ->
       count st' = (count st + 1)%Z /\
       exists (p : loc) (v : Z),
         mostest_closest_neighbour (store st') (earth sc) (all_planets sc)
           = Ok (Some p) /\
         closest_count st !! p = Some v /\
         closest_count st' = <[p := (v + 1)%Z]> (closest_count st) /\
         sum_counts (closest_count st')
           = (sum_counts (closest_count st) + 1)%Z) /\
    (forall frames st, main_loop sc frames st0 = Ok st ->
       count st = ticks_run frames /\
       sum_counts (closest_count st) = count st).
Proof.
  exists scenario0, state0. split; [exact setup_eq|]. split; [reflexivity|].
  split; [exact first_tick|]. split; [|split].
  - intros st Hr. exact (proj1 (proj2 (proj2 (reachable_invariant st Hr)))).
  - intros st st' Hr Ht.
    pose proof (reachable_invariant st Hr) as Hinv.
    destruct (tick_invariant st st' Hinv Ht) as [_ Hc]. split; [exact Hc|].
    apply tick_inv in Ht as (h & _ & Ht).
    apply tally_inv in Ht as (p & v & Hp & Hv & ->).
    exists p, v. cbn [store closest_count].
    repeat split; auto. rewrite (sum_counts_insert _ _ _ _ Hv). lia.
  - intros frames st H. split.
    + rewrite (main_loop_count frames state0 st invariant_state0 H).
      cbn [count state0]. lia.
    + apply (reachable_invariant st).
      exact (main_loop_reachable _ _ frames state0 st (reach_start _ _) H).
Qed.

(** C10. [run_simulation] builds four distinct planets and a dict whose keys
    are Mercury, Venus and Mars, and the physics step of the first iteration
    returns.  In every state the loop reaches, once the
    physics step has returned, the search from Earth returns one of these
    three planets, never None and never Earth, the dict has that key, and
    the tally update does not raise. *)
Theorem closest_planet_is_always_a_key :
  exists (sc : scenario) (st0 : sim_state),
    setup = Ok (sc, st0) /\
    all_planets sc = [mercury sc; venus sc; earth sc; mars sc] /\
    NoDup (all_planets sc) /\
    dom (closest_count st0) = {[mercury sc; venus sc; mars sc]} /\
    (exists h, update_positions (store st0) (solar_system sc) = Ok h) /\
    forall st, reachable sc st0 st ->
    dom (closest_count st) = dom (closest_count st0) /\
    forall h, update_positions (store st) (solar_system sc) = Ok h ->
    exists (p : loc) (v : Z),
      mostest_closest_neighbour h (earth sc) (all_planets sc) = Ok (Some p) /\
      p ∈ [mercury sc; venus sc; mars sc] /\
      p <> earth sc /\
      closest_count st !! p = Some v /\
      tally sc h st =
        Ok (mkSimState h (count st + 1) (<[p := (v + 1)%Z]> (closest_count st))).
Proof.
  exists scenario0, state0. split; [exact setup_eq|]. split; [reflexivity|].
  split; [|split; [|split]].
  - cbn [all_planets scenario0]. repeat constructor; set_solver.
  - cbn [closest_count state0 mercury venus mars scenario0]. unfold counts0.
    rewrite !dom_insert_L. set_solver.
  - exact first_update_positions.
  - intros st Hr. destruct (reachable_invariant st Hr) as (Hs & Hk & _ & _).
    split; [exact Hk|]. intros h Hh.
    assert (Hd : dom h = dom store0)
      by (rewrite (update_positions_dom _ _ _ Hh); exact Hs).
    destruct (closest_to_earth h Hd) as (p & Hp & Hin).
    destruct (counts0_key (closest_count st) p Hk Hin) as [v Hv].
    exists p, v. cbn [earth all_planets mercury venus mars scenario0].
    split; [exact Hp|]. split; [exact Hin|]. split.
    + intros ->. set_solver.
    + split; [exact Hv|]. unfold tally.
      cbn [earth all_planets scenario0].
      rewrite (bind_Ok_l _ _ _ Hp). cbn [increment]. rewrite Hv. reflexivity.
Qed.

(** * Further properties of the program *)

(** ** When a step returns *)

Lemma position_of_Some (h : gmap loc object) (l : loc) (o : object) :
  h !! l = Some o -> position_of h l = get_position (base o).
Proof. intros H. unfold position_of. rewrite H. reflexivity. Qed.

Lemma force_on_coincident (h : gmap loc object) (self q : loc) :
  is_Some (h !! self) -> is_Some (h !! q) ->
  position_of h q = position_of h self ->
  force_on h self q = Raise ZeroDivisionError.
Proof.
  intros [os Hs] [oq Hq] E.
  rewrite (force_on_Ok _ _ _ _ _ Hs Hq).
  apply calculate_force_vectors_Raise, dist_zero_iff.
  rewrite <- (position_of_Some _ _ _ Hs), <- (position_of_Some _ _ _ Hq).
  symmetry. exact E.
Qed.

Lemma force_on_apart (h : gmap loc object) (self q : loc) :
  is_Some (h !! self) -> is_Some (h !! q) ->
  position_of h q <> position_of h self ->
  exists f : R * R, force_on h self q = Ok f.
Proof.
  intros [os Hs] [oq Hq] N.
  rewrite (force_on_Ok _ _ _ _ _ Hs Hq).
  apply force_defined.
  rewrite <- (position_of_Some _ _ _ Hs), <- (position_of_Some _ _ _ Hq).
  intros E. apply N. symmetry. exact E.
Qed.

Lemma position_eq_dec (p q : R * R) : {p = q} + {p <> q}.
Proof.
  destruct p as [p1 p2], q as [q1 q2].
  destruct (Req_dec_T p1 q1) as [E1|N1]; [|right; congruence].
  destruct (Req_dec_T p2 q2) as [E2|N2]; [left; congruence | right; congruence].
Qed.

(** The forces from a list of bodies: all defined when no body of the list
    is where [self] is, ZeroDivisionError as soon as one is. *)
Lemma forces_cases (h : gmap loc object) (self : loc) (l : list loc) :
  is_Some (h !! self) ->
  (forall q, q ∈ l -> is_Some (h !! q)) ->
  ((forall q, q ∈ l -> position_of h q <> position_of h self) /\
   exists fs, forces h self l = Ok fs) \/
  ((exists q, q ∈ l /\ position_of h q = position_of h self) /\
   forces h self l = Raise ZeroDivisionError).
Proof.
  intros Hs. induction l as [|b l IH]; intros Hl.
  - left. split; [intros q Hq; inversion Hq | exists []; reflexivity].
  - assert (Hb : is_Some (h !! b)) by (apply Hl; left).
    assert (Hl' : forall q, q ∈ l -> is_Some (h !! q))
      by (intros q Hq; apply Hl; right; exact Hq).
    cbn [forces].
    destruct (position_eq_dec (position_of h b) (position_of h self)) as [E|N].
    + right. split; [exists b; split; [left | exact E]|].
      rewrite (force_on_coincident h self b Hs Hb E). reflexivity.
    + destruct (force_on_apart h self b Hs Hb N) as [f Hf]. rewrite Hf.
      destruct (IH Hl') as [[Hall [fs Hfs]]|[(q & Hq & E) HR]].
      * left. split.
        -- intros q [->|Hq]%elem_of_cons; [exact N | exact (Hall q Hq)].
        -- exists (f :: fs). cbn. rewrite Hfs. reflexivity.
      * right. split; [exists q; split; [right; exact Hq | exact E]|].
        cbn. rewrite HR. reflexivity.
Qed.

Lemma elem_of_others (self q : loc) (bodies : list loc) :
  q ∈ others self bodies <-> q ∈ bodies /\ q <> self.
Proof.
  unfold others. rewrite list_elem_of_filter. split.
  - intros [N Hq]. split; [exact Hq | intros E; apply N; symmetry; exact E].
  - intros [Hq N]. split; [intros E; apply N; symmetry; exact E | exact Hq].
Qed.

Lemma CelestialObject_update_position_Raise
    (h : gmap loc object) (self : loc) (bodies : list loc) (e : exn) :
  forces h self (others self bodies) = Raise e ->
  CelestialObject_update_position h self bodies = Raise e.
Proof.
  intros H. unfold CelestialObject_update_position.
  rewrite (total_force_Raise h self bodies e (0, 0) H). reflexivity.
Qed.

Lemma CelestialObject_update_position_massless
    (h : gmap loc object) (self : loc) (bodies : list loc)
    (o : object) (fs : list (R * R)) :
  h !! self = Some o ->
  forces h self (others self bodies) = Ok fs ->
  mass (base o) = 0 ->
  CelestialObject_update_position h self bodies = Raise ZeroDivisionError.
Proof.
  intros Ho Hfs Hm. unfold CelestialObject_update_position.
  rewrite (bind_Ok_l _ _ _ (total_force_forces h self bodies fs (0, 0) Hfs)).
  rewrite (bind_Ok_l _ _ _ (deref_Some _ _ _ Ho)).
  cbn [fst snd]. rewrite Hm, !py_div_zero. reflexivity.
Qed.

(** X1, over exact real arithmetic.  With floats read as real numbers, a
    step of a body, all bodies being objects of the store, raises
    ZeroDivisionError exactly when the body has mass zero or another entry
    of the list is at the body's position, and returns exactly when neither
    is the case; it raises nothing else. *)
Theorem update_position_returns_iff
    (h : gmap loc object) (self : loc) (bodies : list loc) (o : object) :
  h !! self = Some o ->
  (forall q, q ∈ bodies -> is_Some (h !! q)) ->
  let clash :=
    mass (base o) = 0 \/
    exists q, q ∈ bodies /\ q <> self /\ position_of h q = position_of h self in
  (CelestialObject_update_position h self bodies = Raise ZeroDivisionError
     <-> clash) /\
  ((exists h', CelestialObject_update_position h self bodies = Ok h')
     <-> ~ clash).
Proof.
  intros Ho Hb clash.
  assert (Hs : is_Some (h !! self)) by (eexists; exact Ho).
  assert (Hb' : forall q, q ∈ others self bodies -> is_Some (h !! q))
    by (intros q [Hq _]%elem_of_others; exact (Hb q Hq)).
  destruct (forces_cases h self (others self bodies) Hs Hb')
    as [[Hall [fs Hfs]]|[(q & Hq & E) HR]].
  - destruct (Req_dec_T (mass (base o)) 0) as [Hm|Hm].
    + pose proof (CelestialObject_update_position_massless _ _ _ _ _ Ho Hfs Hm)
        as H.
      assert (Hc : clash) by (left; exact Hm).
      split; split; intros H'; auto.
      * destruct H' as [h' H']. rewrite H in H'. discriminate.
      * contradiction.
    + pose proof (CelestialObject_update_position_Ok _ _ _ _ _ Ho Hfs Hm) as H.
      assert (Hc : ~ clash).
      { intros [Hm'|(q & Hq & Hne & E)]; [contradiction|].
        apply (Hall q); [apply elem_of_others; auto | exact E]. }
      split; split; intros H'; auto.
      * rewrite H in H'. discriminate.
      * contradiction.
      * eexists; exact H.
  - pose proof (CelestialObject_update_position_Raise _ _ _ _ HR) as H.
    apply elem_of_others in Hq as [Hq Hne].
    assert (Hc : clash) by (right; exists q; auto).
    split; split; intros H'; auto.
    + destruct H' as [h' H']. rewrite H in H'. discriminate.
    + contradiction.
Qed.

Lemma update_position_returns_iff_witness :
  (exists h', CelestialObject_update_position heap_ab 0 [0; 1]%nat = Ok h') <->
  ~ (mass body_a = 0 \/
     exists q, q ∈ [0; 1]%nat /\ q <> 0%nat /\
               position_of heap_ab q = position_of heap_ab 0).
Proof.
  apply (update_position_returns_iff heap_ab 0 [0; 1]%nat (mkObject body_a None)).
  - exact heap_ab_0.
  - intros q [->|[->|Hq]%elem_of_cons]%elem_of_cons.
    + eexists; exact heap_ab_0.
    + eexists; exact heap_ab_1.
    + inversion Hq.
Defined.

(** ** A body with no other body in the list *)

Lemma others_only_self (self : loc) (bodies : list loc) :
  (forall q, q ∈ bodies -> q = self) -> others self bodies = [].
Proof.
  induction bodies as [|b l IH]; intros H; [reflexivity|].
  rewrite (H b) by left. rewrite others_cons_self.
  apply IH. intros q Hq. apply H. right. exact Hq.
Qed.

Lemma isolated_step (h : gmap loc object) (self : loc) (bodies : list loc)
    (o : object) :
  h !! self = Some o -> mass (base o) <> 0 ->
  (forall q, q ∈ bodies -> q = self) ->
  CelestialObject_update_position h self bodies =
    Ok (<[self := mkObject
            (mkCelestialObject (name (base o)) (radius (base o))
               (color (base o)) (mass (base o))
               (x (base o) + x_vel (base o) * TIME_STEP)
               (y (base o) + y_vel (base o) * TIME_STEP)
               (x_vel (base o)) (y_vel (base o)))
            (planet o)]> h).
Proof.
  intros Ho Hm Hall.
  rewrite (CelestialObject_update_position_Ok h self bodies o [] Ho);
    [|rewrite (others_only_self _ _ Hall); reflexivity | exact Hm].
  unfold euler_step, Rsum. cbn [fmap list_fmap foldr].
  replace (x_vel (base o) + 0 / mass (base o) * TIME_STEP)
    with (x_vel (base o)) by (unfold Rdiv; ring).
  replace (y_vel (base o) + 0 / mass (base o) * TIME_STEP)
    with (y_vel (base o)) by (unfold Rdiv; ring).
  reflexivity.
Qed.

(** X2, over exact real arithmetic.  A body whose list holds no other body
    (the empty list, or entries that are all the body itself) feels no
    force: with a non-zero mass every step returns and keeps the velocity,
    and after n steps the position has moved by n * velocity * TIME_STEP,
    with no rounding since floats are read as real numbers; nothing else
    changes. *)
Theorem isolated_body_moves_uniformly
    (n : nat) (h : gmap loc object) (self : loc) (bodies : list loc)
    (o : object) :
  h !! self = Some o -> mass (base o) <> 0 ->
  (forall q, q ∈ bodies -> q = self) ->
  repeat_update_position n h self bodies =
    Ok (<[self := mkObject
            (mkCelestialObject (name (base o)) (radius (base o))
               (color (base o)) (mass (base o))
               (x (base o) + INR n * x_vel (base o) * TIME_STEP)
               (y (base o) + INR n * y_vel (base o) * TIME_STEP)
               (x_vel (base o)) (y_vel (base o)))
            (planet o)]> h).
Proof.
  intros Ho Hm Hall. revert h o Ho Hm.
  induction n as [|n IH]; intros h o Ho Hm.
  - cbn [repeat_update_position INR]. f_equal. symmetry.
    apply insert_id. rewrite Ho. f_equal.
    destruct o as [[nm r c m bx by_ vx vy] pl]. cbn.
    f_equal. f_equal; ring.
  - cbn [repeat_update_position].
    rewrite (isolated_step h self bodies o Ho Hm Hall).
    set (o1 := mkObject _ (planet o)).
    rewrite (bind_Ok_l _ _ _ eq_refl).
    rewrite (IH (<[self := o1]> h) o1 (lookup_insert_eq _ _ _) Hm).
    rewrite insert_insert_eq. f_equal. f_equal. unfold o1. cbn [base planet
      name radius color mass x y x_vel y_vel].
    rewrite S_INR. f_equal. f_equal; ring.
Qed.

(** Mercury of the default scenario, listed alone, after three steps: it
    has moved by three days at 47400 m/s along the y axis. *)
Lemma isolated_body_moves_uniformly_witness :
  repeat_update_position 3 store0 1 [1]%nat =
    Ok (<[1%nat := mkObject
            (mkCelestialObject "Mercury" 4 GRAY (330 / 100 * 10 ^ 23)
               (387 / 1000 * AU + INR 3 * 0 * TIME_STEP)
               (0 + INR 3 * 47400 * TIME_STEP) 0 47400)
            (planet mercury0)]> store0).
Proof.
  apply (isolated_body_moves_uniformly 3 store0 1 [1]%nat mercury0).
  - exact store0_1.
  - cbn [base mass mercury0 planet0]. lra.
  - intros q Hq. apply list_elem_of_singleton in Hq. exact Hq.
Defined.

(** ** What a tick leaves alone *)

Lemma same_body_refl (o : object) : same_body o o.
Proof. unfold same_body. repeat split. destruct (planet o); auto. Qed.

Lemma same_body_trans (o1 o2 o3 : object) :
  same_body o1 o2 -> same_body o2 o3 -> same_body o1 o3.
Proof.
  unfold same_body. intros (A1 & A2 & A3 & A4 & A5) (B1 & B2 & B3 & B4 & B5).
  repeat split; try congruence.
  destruct (planet o1), (planet o2), (planet o3); try contradiction; auto.
  congruence.
Qed.

Lemma py_div_Ok_inv (a b q : R) : py_div a b = Ok q -> b <> 0 /\ q = a / b.
Proof.
  unfold py_div. destruct (Req_dec_T b 0); [discriminate|].
  intros H. injection H as <-. auto.
Qed.

Lemma CelestialObject_update_position_step
    (h h' : gmap loc object) (self : loc) (bodies : list loc) :
  CelestialObject_update_position h self bodies = Ok h' ->
  exists (o : object) (fx fy : R),
    h !! self = Some o /\ mass (base o) <> 0 /\
    h' = <[self := mkObject (euler_step (base o) fx fy) (planet o)]> h.
Proof.
  unfold CelestialObject_update_position. intros H.
  apply bind_Ok_inv in H as (total & _ & H).
  apply bind_Ok_inv in H as (o & Ho & H).
  apply bind_Ok_inv in H as (ax & Hax & H).
  apply bind_Ok_inv in H as (ay & Hay & H).
  injection H as <-. apply deref_Ok_inv in Ho.
  apply py_div_Ok_inv in Hax as [Hm ->]. apply py_div_Ok_inv in Hay as [_ ->].
  exists o, total.1, total.2. repeat split; auto.
Qed.

(** One call of [update_position] changes the object it is called on, and
    only in fields that are not [same_body]'s. *)
Lemma update_position_frame
    (h h' : gmap loc object) (self : loc) (bodies : list loc) :
  update_position h self bodies = Ok h' ->
  (forall l, l <> self -> h' !! l = h !! l) /\
  exists o o', h !! self = Some o /\ h' !! self = Some o' /\ same_body o o'.
Proof.
  unfold update_position. intros H.
  apply bind_Ok_inv in H as (o & Ho & H). apply deref_Ok_inv in Ho.
  destruct (planet o) as [pf|] eqn:Hpf.
  - apply Planet_update_position_inv in H
      as (h1 & o1 & st & pf1 & H1 & Ho1 & Hpf1 & _ & ->).
    apply CelestialObject_update_position_step in H1
      as (o0 & fx & fy & Ho0 & _ & ->).
    rewrite Ho in Ho0. injection Ho0 as <-.
    rewrite lookup_insert_eq in Ho1. injection Ho1 as <-.
    cbn [planet] in Hpf1. rewrite Hpf in Hpf1. injection Hpf1 as <-.
    split.
    + intros l Hl. rewrite !lookup_insert_ne by (intros E; apply Hl; symmetry; exact E).
      reflexivity.
    + eexists o, _. split; [exact Ho|]. split; [apply lookup_insert_eq|].
      unfold same_body. cbn. rewrite Hpf. repeat split.
  - apply CelestialObject_update_position_step in H
      as (o0 & fx & fy & Ho0 & _ & ->).
    rewrite Ho in Ho0. injection Ho0 as <-.
    split.
    + intros l Hl. rewrite lookup_insert_ne by (intros E; apply Hl; symmetry; exact E).
      reflexivity.
    + eexists o, _. split; [exact Ho|]. split; [apply lookup_insert_eq|].
      unfold same_body. cbn. rewrite Hpf. repeat split.
Qed.

Lemma update_position_same_body
    (h h' : gmap loc object) (self : loc) (bodies : list loc) (l : loc)
    (o : object) :
  update_position h self bodies = Ok h' -> h !! l = Some o ->
  exists o', h' !! l = Some o' /\ same_body o o' /\ (l <> self -> o' = o).
Proof.
  intros H Hl. destruct (update_position_frame _ _ _ _ H)
    as (Hother & o0 & o' & Ho0 & Ho' & Hsame).
  destruct (decide (l = self)) as [->|N].
  - rewrite Hl in Ho0. injection Ho0 as <-.
    exists o'. split; [exact Ho'|]. split; [exact Hsame | contradiction].
  - exists o. rewrite (Hother l N). split; [exact Hl|].
    split; [apply same_body_refl | reflexivity].
Qed.

Lemma update_planets_same_body (bodies ps : list loc) :
  forall (h h' : gmap loc object) (l : loc) (o : object),
  update_planets h bodies ps = Ok h' -> h !! l = Some o ->
  exists o', h' !! l = Some o' /\ same_body o o' /\ (l ∉ ps -> o' = o).
Proof.
  induction ps as [|p ps IH]; intros h h' l o H Hl; cbn [update_planets] in H.
  - injection H as <-. exists o. split; [exact Hl|].
    split; [apply same_body_refl | reflexivity].
  - apply bind_Ok_inv in H as (h1 & H1 & H).
    destruct (update_position_same_body _ _ _ _ l o H1 Hl) as (o1 & Hl1 & S1 & E1).
    destruct (IH _ _ l o1 H Hl1) as (o' & Hl' & S' & E').
    exists o'. split; [exact Hl'|]. split; [exact (same_body_trans _ _ _ S1 S')|].
    intros Hn. rewrite E', E1; [reflexivity | |];
      intros Hin; apply Hn; [subst; left | right; exact Hin].
Qed.

(** X3. A tick that returns keeps every object of the store, with its name,
    radius, colour, mass, class and parent star; an object that is neither
    the star nor one of the planets is left exactly as it was. *)
Theorem update_positions_keeps_bodies
    (h h' : gmap loc object) (sys : SolarSystem) :
  update_positions h sys = Ok h' ->
  dom h' = dom h /\
  forall (l : loc) (o : object), h !! l = Some o ->
    exists o', h' !! l = Some o' /\ same_body o o' /\
               (l <> star sys -> l ∉ planets sys -> o' = o).
Proof.
  intros H. split; [exact (update_positions_dom _ _ _ H)|].
  intros l o Hl. unfold update_positions in H.
  apply bind_Ok_inv in H as (h0 & H0 & H).
  destruct (update_position_same_body _ _ _ _ l o H0 Hl) as (o1 & Hl1 & S1 & E1).
  destruct (update_planets_same_body _ _ _ _ l o1 H Hl1) as (o' & Hl' & S' & E').
  exists o'. split; [exact Hl'|]. split; [exact (same_body_trans _ _ _ S1 S')|].
  intros Hs Hp. rewrite (E' Hp), (E1 Hs). reflexivity.
Qed.

Lemma update_positions_keeps_bodies_witness :
  exists h' : gmap loc object,
    update_positions heap_close (mkSolarSystem "s" 0 [1]%nat) = Ok h' /\
    dom h' = dom heap_close /\
    forall (l : loc) (o : object), heap_close !! l = Some o ->
      exists o', h' !! l = Some o' /\ same_body o o' /\
                 (l <> 0%nat -> l ∉ [1]%nat -> o' = o).
Proof.
  destruct planet_step_sees_moved_star as (h' & o & H & _).
  exists h'. split; [exact H|].
  exact (update_positions_keeps_bodies heap_close h' _ H).
Defined.

(** ** The trail after a step *)

Lemma py_int_ge_0 (r : R) : 0 <= r -> (0 <= py_int r)%Z.
Proof.
  intros H. rewrite py_int_nonneg by exact H.
  apply Zfloor_lub. simpl. exact H.
Qed.

Lemma SCALE_pos : 0 < SCALE.
Proof. unfold SCALE, AU. lra. Qed.

Lemma last_drop_lt {A} (l : list A) (k : nat) :
  (k < length l)%nat -> last (drop k l) = last l.
Proof.
  intros Hk. rewrite !last_lookup, lookup_drop, length_drop.
  f_equal. lia.
Qed.

Lemma truncate_last {A} (t : Z) (l : list A) :
  (0 <= t)%Z -> l <> [] -> last (truncate t l) = last l.
Proof.
  intros Ht Hl. unfold truncate, slice_from.
  assert (Hlen : (0 < length l)%nat) by (destruct l; [contradiction | cbn; lia]).
  destruct (t <? Z.of_nat (length l))%Z eqn:E; [|reflexivity].
  apply Z.ltb_lt in E.
  destruct (- t <? 0)%Z eqn:En.
  - apply last_drop_lt. lia.
  - apply Z.ltb_ge in En. apply last_drop_lt. lia.
Qed.

Lemma truncate_length_exact {A} (t : Z) (l : list A) :
  (0 <= t)%Z ->
  length (truncate t l) =
    if decide (t = 0)%Z then length l
    else Nat.min (Z.to_nat t) (length l).
Proof.
  intros Ht. unfold truncate, slice_from.
  destruct (t <? Z.of_nat (length l))%Z eqn:E.
  - apply Z.ltb_lt in E. destruct (decide (t = 0)%Z) as [->|N].
    + cbn [Z.opp Z.ltb Z.compare]. rewrite Z.min_l by lia. reflexivity.
    + assert (En : (- t <? 0)%Z = true) by (apply Z.ltb_lt; lia).
      rewrite En, length_drop. lia.
  - apply Z.ltb_ge in E. destruct (decide (t = 0)%Z) as [->|N]; [reflexivity|].
    lia.
Qed.

(** X4. After a step of a planet the trail is a suffix of the old trail
    followed by the new position, and its last point is the new position;
    with tail length t = int(distance_to_parent * SCALE) >= 0 it has
    min(t, old length + 1) points when t >= 1 and all old length + 1 points
    when t = 0. *)
Theorem trail_after_step
    (h h' : gmap loc object) (self : loc) (bodies : list loc) :
  Planet_update_position h self bodies = Ok h' ->
  exists (o o' : object) (pf pf' : PlanetFields),
    h !! self = Some o /\ planet o = Some pf /\
    h' !! self = Some o' /\ planet o' = Some pf' /\
    let t := py_int (distance_to_parent pf' * SCALE) in
    let grown := orbit pf ++ [get_position (base o')] in
    (0 <= t)%Z /\
    orbit pf' `suffix_of` grown /\
    last (orbit pf') = Some (get_position (base o')) /\
    length (orbit pf') =
      if decide (t = 0)%Z then length grown
      else Nat.min (Z.to_nat t) (length grown).
Proof.
  intros H. apply Planet_update_position_inv in H
    as (h1 & o1 & st & pf & H1 & Ho1 & Hpf & _ & ->).
  apply CelestialObject_update_position_step in H1
    as (o & fx & fy & Ho & _ & ->).
  rewrite lookup_insert_eq in Ho1. injection Ho1 as <-.
  cbn [planet base] in *.
  eexists o, _, pf, _. split; [exact Ho|]. split; [exact Hpf|].
  split; [apply lookup_insert_eq|]. split; [reflexivity|].
  cbn [distance_to_parent orbit base]. cbv zeta.
  set (b' := euler_step (base o) fx fy).
  set (t := py_int (dist (get_position b') (get_position (base st)) * SCALE)).
  assert (Ht : (0 <= t)%Z).
  { apply py_int_ge_0. apply Rmult_le_pos; [apply dist_nonneg|].
    apply Rlt_le, SCALE_pos. }
  split; [exact Ht|]. split; [apply truncate_suffix|]. split.
  - rewrite truncate_last; [apply last_snoc | exact Ht|].
    intros E. apply app_eq_nil in E as [_ E]. discriminate.
  - apply truncate_length_exact. exact Ht.
Qed.

Lemma planet_p_update :
  exists h' : gmap loc object,
    Planet_update_position heap_close 1 [0; 1]%nat = Ok h'.
Proof.
  pose proof planet_p_step as Hstep.
  eexists. eapply Planet_update_position_Ok.
  - exact Hstep.
  - apply lookup_insert_eq.
  - reflexivity.
  - cbn [parent_star planet_p_fields].
    rewrite lookup_insert_ne by discriminate. exact heap_close_0.
Qed.

Lemma trail_after_step_witness :
  exists (h' : gmap loc object) (o' : object) (pf' : PlanetFields),
    Planet_update_position heap_close 1 [0; 1]%nat = Ok h' /\
    h' !! 1%nat = Some o' /\ planet o' = Some pf' /\
    last (orbit pf') = Some (get_position (base o')).
Proof.
  destruct planet_p_update as [h' H].
  destruct (trail_after_step heap_close h' 1 [0; 1]%nat H)
    as (o & o' & pf & pf' & _ & _ & Ho' & Hpf' & _ & _ & Hlast & _).
  exists h', o', pf'. auto.
Defined.

(** ** The order of the list of bodies *)

Lemma forces_Permutation (h : gmap loc object) (self : loc) (l l' : list loc) :
  l ≡ₚ l' ->
  forall fs, forces h self l = Ok fs ->
  exists fs', forces h self l' = Ok fs' /\ fs ≡ₚ fs'.
Proof.
  induction 1 as [|b l l' _ IH|b c l|l1 l2 l3 _ IH1 _ IH2]; intros fs H.
  - exists fs. split; [exact H | reflexivity].
  - cbn [forces] in *. apply bind_Ok_inv in H as (f & Hf & H).
    apply bind_Ok_inv in H as (fs0 & Hfs0 & H). injection H as <-.
    destruct (IH fs0 Hfs0) as (fs1 & Hfs1 & Hp).
    exists (f :: fs1). rewrite Hf, Hfs1. split; [reflexivity|].
    constructor. exact Hp.
  - cbn [forces] in *. apply bind_Ok_inv in H as (fc & Hfc & H).
    apply bind_Ok_inv in H as (fs0 & H & E). injection E as <-.
    apply bind_Ok_inv in H as (fb & Hfb & H).
    apply bind_Ok_inv in H as (fs1 & Hfs1 & E). injection E as <-.
    exists (fb :: fc :: fs1). rewrite Hfb, Hfc, Hfs1. split; [reflexivity|].
    apply perm_swap.
  - destruct (IH1 fs H) as (fs1 & H1 & P1).
    destruct (IH2 fs1 H1) as (fs2 & H2 & P2).
    exists fs2. split; [exact H2 | etransitivity; eassumption].
Qed.

Lemma Rsum_Permutation (l l' : list R) : l ≡ₚ l' -> Rsum l = Rsum l'.
Proof.
  unfold Rsum. induction 1; cbn [foldr]; lra.
Qed.

Lemma CelestialObject_update_position_forces
    (h h' : gmap loc object) (self : loc) (bodies : list loc) :
  CelestialObject_update_position h self bodies = Ok h' ->
  exists (o : object) (fs : list (R * R)),
    h !! self = Some o /\ mass (base o) <> 0 /\
    forces h self (others self bodies) = Ok fs /\
    h' = <[self := mkObject (euler_step (base o) (Rsum fs.*1) (Rsum fs.*2))
                     (planet o)]> h.
Proof.
  intros H.
  destruct (CelestialObject_update_position_step _ _ _ _ H)
    as (o & _ & _ & Ho & Hm & _).
  destruct (forces h self (others self bodies)) as [fs|e] eqn:Hfs.
  - exists o, fs. repeat split; auto.
    rewrite (CelestialObject_update_position_Ok _ _ _ _ _ Ho Hfs Hm) in H.
    injection H as <-. reflexivity.
  - rewrite (CelestialObject_update_position_Raise _ _ _ _ Hfs) in H.
    discriminate.
Qed.

Lemma CelestialObject_update_position_Permutation
    (h h' : gmap loc object) (self : loc) (bodies bodies' : list loc) :
  bodies ≡ₚ bodies' ->
  CelestialObject_update_position h self bodies = Ok h' ->
  CelestialObject_update_position h self bodies' = Ok h'.
Proof.
  intros Hp H.
  apply CelestialObject_update_position_forces in H
    as (o & fs & Ho & Hm & Hfs & ->).
  assert (Hp' : others self bodies ≡ₚ others self bodies')
    by (unfold others; rewrite Hp; reflexivity).
  destruct (forces_Permutation h self _ _ Hp' fs Hfs) as (fs' & Hfs' & Hq).
  rewrite (CelestialObject_update_position_Ok _ _ _ _ _ Ho Hfs' Hm).
  rewrite (Rsum_Permutation fs.*1 fs'.*1) by (rewrite Hq; reflexivity).
  rewrite (Rsum_Permutation fs.*2 fs'.*2) by (rewrite Hq; reflexivity).
  reflexivity.
Qed.

(** X5. The order in which the bodies are listed does not matter to a step:
    a call with a permuted list returns the same store, and raises if the
    other does. *)
Theorem update_position_order_irrelevant
    (h : gmap loc object) (self : loc) (bodies bodies' : list loc) :
  bodies ≡ₚ bodies' ->
  forall h' : gmap loc object,
    update_position h self bodies = Ok h' <->
    update_position h self bodies' = Ok h'.
Proof.
  assert (Hdir : forall l l' h', l ≡ₚ l' ->
            update_position h self l = Ok h' ->
            update_position h self l' = Ok h').
  { intros l l' h' Hp H. unfold update_position in *.
    apply bind_Ok_inv in H as (o & Ho & H). rewrite Ho. cbn.
    destruct (planet o).
    - unfold Planet_update_position in *.
      apply bind_Ok_inv in H as (h1 & H1 & H).
      rewrite (CelestialObject_update_position_Permutation _ _ _ _ _ Hp H1).
      exact H.
    - exact (CelestialObject_update_position_Permutation _ _ _ _ _ Hp H). }
  intros Hp h'. split; apply Hdir; [exact Hp | symmetry; exact Hp].
Qed.

Lemma heap_tie_alive (q : loc) : q ∈ [0; 1; 2]%nat -> is_Some (heap_tie !! q).
Proof.
  intros [->|[->|[->|Hq]%elem_of_cons]%elem_of_cons]%elem_of_cons.
  - eexists; exact heap_tie_0.
  - eexists; exact heap_tie_1.
  - eexists; exact heap_tie_2.
  - inversion Hq.
Qed.

Lemma heap_tie_step :
  exists h' : gmap loc object, update_position heap_tie 0 [1; 2]%nat = Ok h'.
Proof.
  assert (Hs : is_Some (heap_tie !! 0%nat)) by (eexists; exact heap_tie_0).
  destruct (forces_cases heap_tie 0 (others 0 [1; 2]%nat) Hs)
    as [[_ [fs Hfs]]|[(q & Hq & E) _]].
  - intros q [Hq _]%elem_of_others. apply heap_tie_alive. right. exact Hq.
  - eexists.
    exact (star_update_position_Ok heap_tie 0 [1; 2]%nat (mkObject body_a None)
             fs heap_tie_0 eq_refl Hfs ltac:(cbn; lra)).
  - exfalso. apply elem_of_others in Hq as [Hq _].
    unfold position_of in E. rewrite heap_tie_0 in E.
    apply elem_of_cons in Hq as [->|Hq].
    + rewrite heap_tie_1 in E. cbn in E. injection E as E _. lra.
    + apply list_elem_of_singleton in Hq as ->.
      rewrite heap_tie_2 in E. cbn in E. injection E as E _. lra.
Qed.

Lemma update_position_order_irrelevant_witness :
  exists h' : gmap loc object,
    update_position heap_tie 0 [1; 2]%nat = Ok h' /\
    update_position heap_tie 0 [2; 1]%nat = Ok h'.
Proof.
  destruct heap_tie_step as [h' H]. exists h'. split; [exact H|].
  apply (update_position_order_irrelevant heap_tie 0 [1; 2]%nat [2; 1]%nat);
    [apply perm_swap | exact H].
Defined.

(** ** C5: the order of the updates in one tick *)

Lemma others_notin (self : loc) (l : list loc) : self ∉ l -> others self l = l.
Proof.
  induction l as [|b l IH]; intros H; [reflexivity|].
  apply not_elem_of_cons in H as [Hb Hl].
  rewrite (others_cons_other _ _ _ Hb), (IH Hl). reflexivity.
Qed.

(** A step that returns has computed every force on the store it started
    from, and the new state of the body is its Euler step under their sum. *)
Lemma update_position_euler
    (h h' : gmap loc object) (self : loc) (bodies : list loc) :
  update_position h self bodies = Ok h' ->
  exists (o o' : object) (fs : list (R * R)),
    h !! self = Some o /\ h' !! self = Some o' /\
    forces h self (others self bodies) = Ok fs /\
    base o' = euler_step (base o) (Rsum fs.*1) (Rsum fs.*2).
Proof.
  unfold update_position. intros H.
  apply bind_Ok_inv in H as (o & Ho & H). apply deref_Ok_inv in Ho.
  destruct (planet o) as [pf|].
  - apply Planet_update_position_inv in H
      as (h1 & o1 & st & pf1 & H1 & Ho1 & _ & _ & ->).
    apply CelestialObject_update_position_forces in H1
      as (o0 & fs & Ho0 & _ & Hfs & ->).
    rewrite Ho in Ho0. injection Ho0 as <-.
    rewrite lookup_insert_eq in Ho1. injection Ho1 as <-.
    eexists o, _, fs. split; [exact Ho|]. split; [apply lookup_insert_eq|].
    split; [exact Hfs | reflexivity].
  - apply CelestialObject_update_position_forces in H
      as (o0 & fs & Ho0 & _ & Hfs & ->).
    rewrite Ho in Ho0. injection Ho0 as <-.
    eexists o, _, fs. split; [exact Ho|]. split; [apply lookup_insert_eq|].
    split; [exact Hfs | reflexivity].
Qed.

(** The loop over the planets touches the planets it steps and nothing
    else. *)
Lemma update_planets_frame (bodies ps : list loc) :
  forall (h h' : gmap loc object) (l : loc),
  update_planets h bodies ps = Ok h' -> l ∉ ps -> h' !! l = h !! l.
Proof.
  induction ps as [|p ps IH]; intros h h' l H Hl; cbn [update_planets] in H.
  - injection H as <-. reflexivity.
  - apply not_elem_of_cons in Hl as [Hp Hl].
    apply bind_Ok_inv in H as (h1 & H1 & H).
    rewrite (IH _ _ l H Hl).
    exact (proj1 (update_position_frame _ _ _ _ H1) l Hp).
Qed.

(** C5. In a tick that returns, of a system that lists no body twice, the
    new state of the star is its Euler step under the forces of the planets,
    and of them alone, read on the store as it was before the tick.  The new
    state of a planet [p] is its Euler step under the forces of the star and
    of the other planets, read on the store [hp] the earlier steps have
    left: in [hp] the star and the planets listed before [p] are already as
    they are after the tick, while [p] and the planets listed after it are
    still as they were before the tick. *)
Theorem update_positions_sequential
    (h h' : gmap loc object) (sys : SolarSystem)
    (before after : list loc) (p : loc) :
  planets sys = before ++ p :: after ->
  NoDup (star sys :: planets sys) ->
  update_positions h sys = Ok h' ->
  (exists (os os' : object) (fs : list (R * R)),
     h !! star sys = Some os /\ h' !! star sys = Some os' /\
     forces h (star sys) (planets sys) = Ok fs /\
     base os' = euler_step (base os) (Rsum fs.*1) (Rsum fs.*2)) /\
  exists (hp : gmap loc object) (op op' : object) (fs : list (R * R)),
    (forall q, q ∈ star sys :: before -> hp !! q = h' !! q) /\
    (forall q, q ∈ p :: after -> hp !! q = h !! q) /\
    h !! p = Some op /\ h' !! p = Some op' /\
    forces hp p (star sys :: before ++ after) = Ok fs /\
    base op' = euler_step (base op) (Rsum fs.*1) (Rsum fs.*2).
Proof.
  intros Hps Hnd H.
  apply NoDup_cons in Hnd as [Hs Hnd].
  assert (Hs' : star sys ∉ before ++ p :: after) by (rewrite <- Hps; exact Hs).
  rewrite Hps in Hnd.
  apply NoDup_app in Hnd as (_ & Hdisj & Hnda).
  apply NoDup_cons in Hnda as [Hpa _].
  apply not_elem_of_app in Hs' as [Hsb Hspa].
  apply not_elem_of_cons in Hspa as [Hsp Hsa].
  assert (Hpb : p ∉ before) by (intros Hin; apply (Hdisj p Hin); left).
  unfold update_positions in H.
  apply bind_Ok_inv in H as (h0 & H0 & H).
  assert (H' : update_planets h0 (star sys :: planets sys) (before ++ p :: after)
               = Ok h') by (rewrite <- Hps; exact H).
  rewrite update_planets_app in H'.
  apply bind_Ok_inv in H' as (h1 & H1 & H').
  cbn [update_planets] in H'.
  apply bind_Ok_inv in H' as (h2 & H2 & H3).
  pose proof (proj1 (update_position_frame _ _ _ _ H0)) as F0.
  pose proof (fun l => update_planets_frame _ _ _ _ l H1) as F1.
  pose proof (proj1 (update_position_frame _ _ _ _ H2)) as F2.
  pose proof (fun l => update_planets_frame _ _ _ _ l H3) as F3.
  split.
  - destruct (update_position_euler _ _ _ _ H0)
      as (os & os' & fs & Hos & Hos' & Hfs & Hb).
    exists os, os', fs. split; [exact Hos|]. split.
    + rewrite (F3 _ Hsa), (F2 _ Hsp), (F1 _ Hsb). exact Hos'.
    + split; [|exact Hb]. rewrite others_notin in Hfs; [exact Hfs | exact Hs].
  - destruct (update_position_euler _ _ _ _ H2)
      as (op & op' & fs & Hop & Hop' & Hfs & Hb).
    exists h1, op, op', fs. split; [|split; [|split; [|split; [|split]]]].
    + intros q Hq.
      assert (Hqp : q <> p).
      { intros ->. apply elem_of_cons in Hq as [E|Hq]; [|exact (Hpb Hq)].
        apply Hsp. symmetry. exact E. }
      assert (Hqa : q ∉ after).
      { intros Hin. apply elem_of_cons in Hq as [->|Hq]; [exact (Hsa Hin)|].
        apply (Hdisj q Hq). right. exact Hin. }
      rewrite (F3 _ Hqa), (F2 _ Hqp). reflexivity.
    + intros q Hq.
      assert (Hqb : q ∉ before).
      { intros Hin. exact (Hdisj q Hin Hq). }
      assert (Hqs : q <> star sys).
      { intros ->. apply elem_of_cons in Hq as [E|Hq]; [|exact (Hsa Hq)].
        exact (Hsp E). }
      rewrite (F1 _ Hqb), (F0 _ Hqs). reflexivity.
    + rewrite <- (F0 _ (fun E => Hsp (eq_sym E))), <- (F1 _ Hpb). exact Hop.
    + rewrite (F3 _ Hpa). exact Hop'.
    + rewrite Hps in Hfs.
      change (star sys :: before ++ p :: after)
        with ([star sys] ++ before ++ p :: after) in Hfs.
      rewrite !others_app, others_cons_self in Hfs.
      rewrite (others_notin p [star sys]) in Hfs
        by (intros Hin; apply list_elem_of_singleton in Hin;
            apply Hsp; symmetry; exact Hin).
      rewrite (others_notin p before Hpb), (others_notin p after Hpa) in Hfs.
      exact Hfs.
    + exact Hb.
Qed.

(** The default scenario, with Earth as [p]: the forces on Earth are read on
    a store in which the Sun, Mercury and Venus are as after the tick, and
    Earth and Mars as before it. *)
Lemma update_positions_sequential_witness :
  exists h' : gmap loc object,
    update_positions store0 (solar_system scenario0) = Ok h' /\
    exists (hp : gmap loc object) (op op' : object) (fs : list (R * R)),
      (forall q, q ∈ [0; 1; 2]%nat -> hp !! q = h' !! q) /\
      (forall q, q ∈ [3; 4]%nat -> hp !! q = store0 !! q) /\
      store0 !! 3%nat = Some op /\ h' !! 3%nat = Some op' /\
      forces hp 3 [0; 1; 2; 4]%nat = Ok fs /\
      base op' = euler_step (base op) (Rsum fs.*1) (Rsum fs.*2).
Proof.
  destruct first_update_positions as [h' H]. exists h'. split; [exact H|].
  refine (proj2 (update_positions_sequential store0 h' (solar_system scenario0)
                   [1; 2]%nat [4]%nat 3%nat eq_refl _ H)).
  cbn [star planets solar_system scenario0]. repeat constructor; set_solver.
Defined.

(** X6. Listing the candidates in another order changes the nearest
    neighbour at most among candidates at the same distance: both searches
    return None, or both return a body, at equal distances from the
    reference. *)
Theorem mostest_closest_neighbour_order
    (h : gmap loc object) (planet : loc) (l l' : list loc) :
  is_Some (h !! planet) ->
  (forall q, q ∈ l -> is_Some (h !! q)) ->
  l ≡ₚ l' ->
  exists r r' : option loc,
    mostest_closest_neighbour h planet l = Ok r /\
    mostest_closest_neighbour h planet l' = Ok r' /\
    match r, r' with
    | None, None => True
    | Some q, Some q' => distance h planet q = distance h planet q'
    | _, _ => False
    end.
Proof.
  intros Hp Hl Hperm.
  assert (Hl' : forall q, q ∈ l' -> is_Some (h !! q))
    by (intros q Hq; apply Hl; rewrite Hperm; exact Hq).
  destruct (closest_loop_spec h planet Hp l [] None PInf Hl)
    as (r & cd & Hr & Hst).
  { cbn. split; [reflexivity|]. intros q Hq. inversion Hq. }
  destruct (closest_loop_spec h planet Hp l' [] None PInf Hl')
    as (r' & cd' & Hr' & Hst').
  { cbn. split; [reflexivity|]. intros q Hq. inversion Hq. }
  rewrite app_nil_l in Hst, Hst'.
  exists r, r'. split; [exact Hr|]. split; [exact Hr'|].
  destruct r as [q|], r' as [q'|]; cbn in Hst, Hst'.
  - destruct Hst as (_ & i & Hi & Hq & Hmin).
    destruct Hst' as (_ & i' & Hi' & Hq' & Hmin').
    assert (Hin : q ∈ l') by (rewrite <- Hperm; apply list_elem_of_lookup; eauto).
    assert (Hin' : q' ∈ l) by (rewrite Hperm; apply list_elem_of_lookup; eauto).
    apply list_elem_of_lookup in Hin as [j Hj].
    apply list_elem_of_lookup in Hin' as [j' Hj'].
    destruct (Hmin j' q' Hj' Hq') as [H1 _].
    destruct (Hmin' j q Hj Hq) as [H2 _]. lra.
  - destruct Hst as (_ & i & Hi & Hq & _). destruct Hst' as [_ Hall].
    apply Hq, Hall. rewrite <- Hperm. apply list_elem_of_lookup. eauto.
  - destruct Hst' as (_ & i & Hi & Hq & _). destruct Hst as [_ Hall].
    apply Hq, Hall. rewrite Hperm. apply list_elem_of_lookup. eauto.
  - exact I.
Qed.

Lemma mostest_closest_neighbour_order_witness :
  exists r r' : option loc,
    mostest_closest_neighbour heap_tie 0 [0; 1; 2]%nat = Ok r /\
    mostest_closest_neighbour heap_tie 0 [2; 1; 0]%nat = Ok r' /\
    match r, r' with
    | None, None => True
    | Some q, Some q' => distance heap_tie 0 q = distance heap_tie 0 q'
    | _, _ => False
    end.
Proof.
  apply (mostest_closest_neighbour_order heap_tie 0 [0; 1; 2]%nat [2; 1; 0]%nat).
  - eexists; exact heap_tie_0.
  - exact heap_tie_alive.
  - apply Permutation_rev.
Defined.

(** ** The only exception of a tick *)

Lemma alive_dom (h h' : gmap loc object) (l : loc) :
  dom h' = dom h -> is_Some (h !! l) -> is_Some (h' !! l).
Proof. intros Hd Hl. apply elem_of_dom. rewrite Hd. apply elem_of_dom. exact Hl. Qed.

Lemma update_position_Ok_or_zero_division
    (h : gmap loc object) (self : loc) (bodies : list loc) :
  is_Some (h !! self) ->
  (forall q, q ∈ bodies -> is_Some (h !! q)) ->
  (forall (o : object) (pf : PlanetFields),
     h !! self = Some o -> planet o = Some pf -> is_Some (h !! parent_star pf)) ->
  (exists h', update_position h self bodies = Ok h') \/
  update_position h self bodies = Raise ZeroDivisionError.
Proof.
  intros [o Ho] Hb Hparent. unfold update_position.
  rewrite (bind_Ok_l _ _ _ (deref_Some _ _ _ Ho)).
  assert (Hs : is_Some (h !! self)) by (eexists; exact Ho).
  assert (Hb' : forall q, q ∈ others self bodies -> is_Some (h !! q))
    by (intros q [Hq _]%elem_of_others; exact (Hb q Hq)).
  assert (Hbase : (exists h1, CelestialObject_update_position h self bodies = Ok h1)
                  \/ CelestialObject_update_position h self bodies
                       = Raise ZeroDivisionError).
  { destruct (forces_cases h self (others self bodies) Hs Hb')
      as [[_ [fs Hfs]]|[_ HR]].
    - destruct (Req_dec_T (mass (base o)) 0) as [Hm|Hm].
      + right. exact (CelestialObject_update_position_massless _ _ _ _ _ Ho Hfs Hm).
      + left. eexists. exact (CelestialObject_update_position_Ok _ _ _ _ _ Ho Hfs Hm).
    - right. exact (CelestialObject_update_position_Raise _ _ _ _ HR). }
  destruct (planet o) as [pf|] eqn:Hpf; [|exact Hbase].
  destruct Hbase as [[h1 H1]|HR].
  - left.
    destruct (CelestialObject_update_position_step _ _ _ _ H1)
      as (o0 & fx & fy & Ho0 & _ & ->).
    rewrite Ho in Ho0. injection Ho0 as <-.
    destruct (Hparent o pf Ho Hpf) as [st Hst].
    assert (Hst1 : is_Some (<[self := mkObject (euler_step (base o) fx fy)
                                          (planet o)]> h !! parent_star pf)).
    { apply (alive_dom h); [apply (dom_insert_alive _ _ _ _ Ho)|].
      eexists; exact Hst. }
    destruct Hst1 as [st1 Hst1].
    eexists. eapply Planet_update_position_Ok;
      [exact H1 | apply lookup_insert_eq | exact Hpf | exact Hst1].
  - right. unfold Planet_update_position. rewrite HR. reflexivity.
Qed.

Lemma update_position_well_formed
    (h h' : gmap loc object) (self : loc) (bodies : list loc)
    (sys : SolarSystem) :
  update_position h self bodies = Ok h' ->
  well_formed h sys -> well_formed h' sys.
Proof.
  intros H (Hs & Hp & Hpar).
  pose proof (update_position_dom _ _ _ _ H) as Hd.
  split; [exact (alive_dom _ _ _ Hd Hs)|].
  split; [intros p Hin; exact (alive_dom _ _ _ Hd (Hp p Hin))|].
  intros l o' pf' Hl' Hpf'.
  assert (Hl : is_Some (h !! l)).
  { apply elem_of_dom. rewrite <- Hd. apply elem_of_dom. eexists; exact Hl'. }
  destruct Hl as [o Hl].
  destruct (update_position_same_body _ _ _ _ l o H Hl) as (o2 & Hl2 & Hsame & _).
  rewrite Hl' in Hl2. injection Hl2 as <-.
  destruct Hsame as (_ & _ & _ & _ & Hpl). rewrite Hpf' in Hpl.
  destruct (planet o) as [pf|] eqn:Hpf; [|contradiction].
  rewrite Hpl. exact (alive_dom _ _ _ Hd (Hpar l o pf Hl Hpf)).
Qed.

Lemma update_planets_well_formed (sys : SolarSystem) (bodies ps : list loc) :
  forall h h' : gmap loc object,
  update_planets h bodies ps = Ok h' -> well_formed h sys -> well_formed h' sys.
Proof.
  induction ps as [|p ps IH]; intros h h' H Hwf; cbn [update_planets] in H.
  - injection H as <-. exact Hwf.
  - apply bind_Ok_inv in H as (h1 & H1 & H).
    exact (IH _ _ H (update_position_well_formed _ _ _ _ sys H1 Hwf)).
Qed.

Lemma update_positions_well_formed
    (h h' : gmap loc object) (sys : SolarSystem) :
  update_positions h sys = Ok h' -> well_formed h sys -> well_formed h' sys.
Proof.
  unfold update_positions. intros H Hwf.
  apply bind_Ok_inv in H as (h0 & H0 & H).
  exact (update_planets_well_formed sys _ _ _ _ H
           (update_position_well_formed _ _ _ _ sys H0 Hwf)).
Qed.

Lemma update_planets_Ok_or_zero_division (sys : SolarSystem) (ps : list loc) :
  forall h : gmap loc object,
  well_formed h sys -> (forall p, p ∈ ps -> p ∈ planets sys) ->
  (exists h', update_planets h (star sys :: planets sys) ps = Ok h' /\
              well_formed h' sys) \/
  update_planets h (star sys :: planets sys) ps = Raise ZeroDivisionError.
Proof.
  induction ps as [|p ps IH]; intros h Hwf Hps; cbn [update_planets].
  - left. exists h. split; [reflexivity | exact Hwf].
  - destruct Hwf as (Hs & Hp & Hpar).
    destruct (update_position_Ok_or_zero_division h p (star sys :: planets sys))
      as [[h1 H1]|HR].
    + apply Hp, Hps. left.
    + intros q [->|Hq]%elem_of_cons; [exact Hs | exact (Hp q Hq)].
    + intros o pf. apply Hpar.
    + rewrite (bind_Ok_l _ _ _ H1). apply IH.
      * exact (update_position_well_formed _ _ _ _ sys H1 (conj Hs (conj Hp Hpar))).
      * intros q Hq. apply Hps. right. exact Hq.
    + right. rewrite HR. reflexivity.
Qed.

(** X7, over exact real arithmetic.  With floats read as real numbers (no
    overflow, inf or nan), on a store without dangling references a tick
    either returns, and the new store is again without dangling references,
    or raises ZeroDivisionError; it raises no other exception. *)
Theorem update_positions_Ok_or_zero_division
    (h : gmap loc object) (sys : SolarSystem) :
  well_formed h sys ->
  (exists h', update_positions h sys = Ok h' /\ well_formed h' sys) \/
  update_positions h sys = Raise ZeroDivisionError.
Proof.
  intros Hwf. pose proof Hwf as (Hs & Hp & Hpar). unfold update_positions.
  destruct (update_position_Ok_or_zero_division h (star sys) (planets sys))
    as [[h0 H0]|HR].
  - exact Hs.
  - exact Hp.
  - intros o pf. apply Hpar.
  - rewrite (bind_Ok_l _ _ _ H0).
    apply update_planets_Ok_or_zero_division; [|auto].
    exact (update_position_well_formed _ _ _ _ sys H0 Hwf).
  - right. rewrite HR. reflexivity.
Qed.

Lemma heap_close_well_formed :
  well_formed heap_close (mkSolarSystem "s" 0 [1]%nat).
Proof.
  split; [eexists; exact heap_close_0|]. split.
  - intros p Hp. apply list_elem_of_singleton in Hp as ->.
    eexists; exact heap_close_1.
  - intros l o pf Hl Hpf. unfold heap_close in Hl.
    apply lookup_insert_Some in Hl as [[<- <-]|[_ Hl]].
    + injection Hpf as <-. eexists; exact heap_close_0.
    + apply lookup_insert_Some in Hl as [[<- <-]|[_ Hl]]; [discriminate|].
      rewrite lookup_empty in Hl. discriminate.
Qed.

Lemma update_positions_Ok_or_zero_division_witness :
  let sys := mkSolarSystem "s" 0 [1]%nat in
  (exists h', update_positions heap_close sys = Ok h' /\ well_formed h' sys) \/
  update_positions heap_close sys = Raise ZeroDivisionError.
Proof.
  intros sys.
  exact (update_positions_Ok_or_zero_division heap_close sys
           heap_close_well_formed).
Defined.

(** ** The driver: exceptions, percentages and the end of the loop *)

Lemma store0_lookup_inv (l : loc) (o : object) :
  store0 !! l = Some o ->
  (l = 0%nat /\ o = sun0) \/ (l = 1%nat /\ o = mercury0) \/
  (l = 2%nat /\ o = venus0) \/ (l = 3%nat /\ o = earth0) \/
  (l = 4%nat /\ o = mars0).
Proof.
  unfold store0. intros H.
  repeat (apply lookup_insert_Some in H as [[<- <-]|[_ H]]; [tauto|]).
  rewrite lookup_empty in H. discriminate.
Qed.

Lemma store0_well_formed : well_formed store0 (solar_system scenario0).
Proof.
  split; [eexists; exact store0_0|]. split.
  - intros p Hp. apply (store0_alive store0 p eq_refl).
    cbn in Hp. right. exact Hp.
  - intros l o pf Hl Hpf.
    apply store0_lookup_inv in Hl
      as [[_ ->]|[[_ ->]|[[_ ->]|[[_ ->]|[_ ->]]]]];
      cbn in Hpf; try discriminate; injection Hpf as <-;
      eexists; exact store0_0.
Qed.

Lemma reachable_well_formed (st : sim_state) :
  reachable scenario0 state0 st ->
  well_formed (store st) (solar_system scenario0).
Proof.
  induction 1 as [|st st' _ IH Ht].
  - exact store0_well_formed.
  - apply tick_inv in Ht as (h & Hh & Ht).
    apply tally_inv in Ht as (p & v & _ & _ & ->). cbn [store].
    exact (update_positions_well_formed _ _ _ Hh IH).
Qed.

Lemma format_percentage_text_Ok
    (h : gmap loc object) (d : gmap loc Z) (c : Z) (k : loc) :
  is_Some (h !! k) -> is_Some (d !! k) -> c <> 0%Z ->
  exists s : string, format_percentage_text h d c k = Ok s.
Proof.
  intros [o Ho] Hk Hc. unfold format_percentage_text.
  rewrite (bind_Ok_l _ _ _ (deref_Some _ _ _ Ho)).
  destruct (format_percentage_Ok d c k Hk Hc) as [r Hr].
  rewrite (bind_Ok_l _ _ _ Hr). eexists. reflexivity.
Qed.

Lemma draw_line_Ok (h : gmap loc object) (a b : loc) (c : Z * Z * Z) :
  is_Some (h !! a) -> is_Some (h !! b) ->
  exists calls : list pygame_call, draw_line h a b c = Ok calls.
Proof.
  intros [oa Ha] [ob Hb]. unfold draw_line.
  rewrite (bind_Ok_l _ _ _ (deref_Some _ _ _ Ha)).
  rewrite (bind_Ok_l _ _ _ (deref_Some _ _ _ Hb)).
  eexists. reflexivity.
Qed.

Lemma draw_returns (h : gmap loc object) (l : loc) :
  is_Some (h !! l) -> exists calls : list pygame_call, draw h l = Ok calls.
Proof.
  intros [o Ho]. unfold draw.
  rewrite (bind_Ok_l _ _ _ (deref_Some _ _ _ Ho)).
  destruct (planet o); eexists; reflexivity.
Qed.

Lemma draw_planets_returns (h : gmap loc object) (ps : list loc) :
  (forall p, p ∈ ps -> is_Some (h !! p)) ->
  exists calls : list pygame_call, draw_planets h ps = Ok calls.
Proof.
  induction ps as [|p ps IH]; intros Hps; cbn [draw_planets].
  - eexists. reflexivity.
  - destruct (draw_returns h p) as [c1 H1]; [apply Hps; left|].
    destruct IH as [c2 H2]; [intros q Hq; apply Hps; right; exact Hq|].
    rewrite H1, H2. eexists. reflexivity.
Qed.

(** Once the physics step has returned, the rest of the iteration returns
    too, labels and drawing included, and leaves the state [tick] leaves. *)
Lemma iteration_after_physics (st : sim_state) (h : gmap loc object) :
  invariant st ->
  update_positions (store st) (solar_system scenario0) = Ok h ->
  exists (st' : sim_state) (calls : list pygame_call),
    iteration scenario0 st = Ok (st', calls) /\ tick scenario0 st = Ok st'.
Proof.
  intros Hinv Hh. pose proof Hinv as (Hs & Hk & _ & Hc).
  assert (Hd : dom h = dom store0)
    by (rewrite (update_positions_dom _ _ _ Hh); exact Hs).
  assert (Halive : forall q, q ∈ [0; 1; 2; 3; 4]%nat -> is_Some (h !! q))
    by (intros q; apply store0_alive; exact Hd).
  destruct (tick_after_physics st h Hinv Hh) as [st' Ht].
  exists st'. pose proof Ht as Ht'.
  apply tick_inv in Ht' as (h2 & Hh2 & Ht').
  rewrite Hh in Hh2. injection Hh2 as <-.
  apply tally_inv in Ht' as (p & v & Hp & Hv & ->).
  cbn [earth all_planets scenario0] in Hp.
  destruct (closest_to_earth h Hd) as (p' & Hp' & Hin).
  rewrite Hp in Hp'. injection Hp' as <-.
  set (d := <[p := (v + 1)%Z]> (closest_count st)) in *.
  assert (Hd' : dom d = dom counts0).
  { unfold d. rewrite dom_insert_lookup_L by (eexists; exact Hv). exact Hk. }
  assert (Hinc : increment (closest_count st) (Some p) = Ok d)
    by (cbn [increment]; rewrite Hv; reflexivity).
  assert (Hc1 : (count st + 1)%Z <> 0%Z) by lia.
  destruct (format_percentage_text_Ok h d (count st + 1) 1) as [t1 H1];
    [apply Halive; set_solver | apply (counts0_key d 1 Hd'); set_solver
    | exact Hc1 |].
  destruct (format_percentage_text_Ok h d (count st + 1) 2) as [t2 H2];
    [apply Halive; set_solver | apply (counts0_key d 2 Hd'); set_solver
    | exact Hc1 |].
  destruct (format_percentage_text_Ok h d (count st + 1) 4) as [t4 H4];
    [apply Halive; set_solver | apply (counts0_key d 4 Hd'); set_solver
    | exact Hc1 |].
  destruct (draw_line_Ok h 3 p (value WHITE)) as [line Hline];
    [apply Halive; set_solver | apply Halive; set_solver |].
  destruct (draw_returns h 0) as [c0 H0]; [apply Halive; set_solver|].
  destruct (draw_planets_returns h [1; 2; 3; 4]%nat) as [cs Hcs];
    [intros q Hq; apply Halive; right; exact Hq|].
  eexists. split; [|exact Ht].
  unfold iteration.
  cbn [earth all_planets mercury venus mars solar_system scenario0].
  rewrite (bind_Ok_l _ _ _ Hh), (bind_Ok_l _ _ _ Hp), (bind_Ok_l _ _ _ Hinc).
  rewrite (bind_Ok_l _ _ _ H1), (bind_Ok_l _ _ _ H2), (bind_Ok_l _ _ _ H4).
  rewrite (bind_Ok_l _ _ _ Hline).
  unfold SolarSystem_draw. cbn [star planets].
  rewrite (bind_Ok_l _ _ _ H0), (bind_Ok_l _ _ _ Hcs). reflexivity.
Qed.

(** X8, over exact real arithmetic.  In every state the loop of the default
    scenario reaches, an iteration, from the physics step to the drawing of
    the system, either runs to its end or raises ZeroDivisionError in the
    physics step; no KeyError and no AttributeError is raised, neither by
    the tally nor by the labels, the line to the nearest planet or the
    drawing. *)
Theorem iteration_Ok_or_zero_division :
  exists (sc : scenario) (st0 : sim_state),
    setup = Ok (sc, st0) /\
    forall st, reachable sc st0 st ->
      (exists (st' : sim_state) (calls : list pygame_call),
         iteration sc st = Ok (st', calls) /\ tick sc st = Ok st') \/
      (update_positions (store st) (solar_system sc) = Raise ZeroDivisionError /\
       iteration sc st = Raise ZeroDivisionError /\
       tick sc st = Raise ZeroDivisionError).
Proof.
  exists scenario0, state0. split; [exact setup_eq|]. intros st Hr.
  pose proof (reachable_well_formed st Hr) as Hwf.
  pose proof Hwf as (Hs & Hp & Hpar).
  assert (Hphys : (exists h, update_positions (store st) (solar_system scenario0)
                             = Ok h) \/
                  update_positions (store st) (solar_system scenario0)
                    = Raise ZeroDivisionError).
  { unfold update_positions.
    destruct (update_position_Ok_or_zero_division (store st)
                (star (solar_system scenario0))
                (planets (solar_system scenario0)) Hs Hp)
      as [[h0 H0]|HR]; [intros o pf; apply Hpar | |].
    - rewrite (bind_Ok_l _ _ _ H0).
      destruct (update_planets_Ok_or_zero_division (solar_system scenario0)
                  (planets (solar_system scenario0)) h0)
        as [(h' & Hh' & _)|HR]; [| auto | |].
      + exact (update_position_well_formed _ _ _ _ _ H0 Hwf).
      + left. exists h'. exact Hh'.
      + right. exact HR.
    - right. rewrite HR. reflexivity. }
  destruct Hphys as [[h Hh]|HR].
  - left. exact (iteration_after_physics st h (reachable_invariant st Hr) Hh).
  - right. split; [exact HR|]. split.
    + unfold iteration. rewrite HR. reflexivity.
    + unfold tick. rewrite HR. reflexivity.
Qed.

Lemma counts0_shape (d : gmap loc Z) :
  dom d = dom counts0 ->
  exists a b c : Z,
    d !! 1%nat = Some a /\ d !! 2%nat = Some b /\ d !! 4%nat = Some c /\
    sum_counts d = (a + b + c)%Z.
Proof.
  intros Hd.
  destruct (counts0_key d 1 Hd) as [a Ha]; [set_solver|].
  destruct (counts0_key d 2 Hd) as [b Hb]; [set_solver|].
  destruct (counts0_key d 4 Hd) as [c Hc]; [set_solver|].
  exists a, b, c. repeat split; auto.
  assert (E : d = <[1%nat := a]> (<[2%nat := b]> (<[4%nat := c]> counts0))).
  { apply map_eq. intros k.
    destruct (decide (k = 1%nat)) as [->|N1]; [rewrite lookup_insert_eq; exact Ha|].
    rewrite lookup_insert_ne by congruence.
    destruct (decide (k = 2%nat)) as [->|N2]; [rewrite lookup_insert_eq; exact Hb|].
    rewrite lookup_insert_ne by congruence.
    destruct (decide (k = 4%nat)) as [->|N4]; [rewrite lookup_insert_eq; exact Hc|].
    rewrite lookup_insert_ne by congruence.
    assert (Hk : k ∉ dom counts0).
    { unfold counts0. rewrite !dom_insert_L. set_solver. }
    rewrite (proj1 (not_elem_of_dom counts0 k) Hk).
    apply not_elem_of_dom. rewrite Hd. exact Hk. }
  rewrite E.
  rewrite (sum_counts_insert _ 1 0 a)
    by (rewrite !lookup_insert_ne by discriminate; reflexivity).
  rewrite (sum_counts_insert _ 2 0 b)
    by (rewrite !lookup_insert_ne by discriminate; reflexivity).
  rewrite (sum_counts_insert _ 4 0 c) by reflexivity.
  change (sum_counts counts0) with 0%Z. lia.
Qed.

Lemma reachable_counts_nonneg (st : sim_state) :
  reachable scenario0 state0 st ->
  forall (k : loc) (v : Z), closest_count st !! k = Some v -> (0 <= v)%Z.
Proof.
  induction 1 as [|st st' _ IH Ht]; intros k v Hk.
  - cbn [closest_count state0] in Hk. unfold counts0 in Hk.
    repeat (apply lookup_insert_Some in Hk as [[_ <-]|[_ Hk]]; [lia|]).
    rewrite lookup_empty in Hk. discriminate.
  - apply tick_inv in Ht as (h & _ & Ht).
    apply tally_inv in Ht as (p & w & _ & Hw & ->). cbn [closest_count] in Hk.
    apply lookup_insert_Some in Hk as [[_ <-]|[_ Hk]].
    + specialize (IH p w Hw). lia.
    + exact (IH k v Hk).
Qed.

Lemma percentage_value (d : gmap loc Z) (c : Z) (k : loc) (v : Z) :
  d !! k = Some v -> c <> 0%Z ->
  format_percentage d c k = Ok (IZR v / IZR c * 100).
Proof.
  intros Hv Hc. unfold format_percentage. rewrite Hv.
  rewrite py_div_Ok by (apply not_0_IZR; exact Hc). reflexivity.
Qed.

(** X9, over exact real arithmetic.  Once the loop of the default scenario
    has run an iteration, the three percentages it computes, with the
    division and the multiplication by 100 read as exact and before
    [round], are each between 0 and 100 and add up to 100. *)
Theorem percentages_add_up :
  exists (sc : scenario) (st0 : sim_state),
    setup = Ok (sc, st0) /\
    (exists st, reachable sc st0 st /\ (0 < count st)%Z) /\
    forall st, reachable sc st0 st -> (0 < count st)%Z ->
      exists pm pv pr : R,
        format_percentage (closest_count st) (count st) (mercury sc) = Ok pm /\
        format_percentage (closest_count st) (count st) (venus sc) = Ok pv /\
        format_percentage (closest_count st) (count st) (mars sc) = Ok pr /\
        0 <= pm <= 100 /\ 0 <= pv <= 100 /\ 0 <= pr <= 100 /\
        pm + pv + pr = 100.
Proof.
  exists scenario0, state0. split; [exact setup_eq|]. split.
  - destruct first_tick as [st1 H1]. exists st1.
    pose proof (reach_tick _ _ _ _ (reach_start scenario0 state0) H1) as Hr.
    split; [exact Hr|].
    destruct (tick_invariant state0 st1 invariant_state0 H1) as [_ Hc].
    rewrite Hc. cbn. lia.
  - intros st Hr Hc.
    destruct (reachable_invariant st Hr) as (_ & Hk & Hsum & _).
    destruct (counts0_shape _ Hk) as (a & b & c & Ha & Hb & Hcc & Hs).
    pose proof (reachable_counts_nonneg st Hr _ _ Ha) as Ha0.
    pose proof (reachable_counts_nonneg st Hr _ _ Hb) as Hb0.
    pose proof (reachable_counts_nonneg st Hr _ _ Hcc) as Hc0.
    assert (Hn : count st <> 0%Z) by lia.
    cbn [mercury venus mars scenario0].
    exists (IZR a / IZR (count st) * 100), (IZR b / IZR (count st) * 100),
           (IZR c / IZR (count st) * 100).
    rewrite (percentage_value _ _ _ _ Ha Hn), (percentage_value _ _ _ _ Hb Hn),
            (percentage_value _ _ _ _ Hcc Hn).
    split; [reflexivity|]. split; [reflexivity|]. split; [reflexivity|].
    assert (HC : 0 < IZR (count st)) by (apply IZR_lt; exact Hc).
    assert (HA : 0 <= IZR a <= IZR (count st))
      by (split; apply IZR_le; lia).
    assert (HB : 0 <= IZR b <= IZR (count st))
      by (split; apply IZR_le; lia).
    assert (HCc : 0 <= IZR c <= IZR (count st))
      by (split; apply IZR_le; lia).
    assert (Hq : forall v, 0 <= v <= IZR (count st) ->
                   0 <= v / IZR (count st) * 100 <= 100).
    { intros v [Hv0 Hv1].
      assert (0 <= v / IZR (count st) <= 1); [|lra].
      split.
      - apply Rmult_le_pos; [exact Hv0 | apply Rlt_le, Rinv_0_lt_compat, HC].
      - apply Rmult_le_reg_r with (IZR (count st)); [exact HC|].
        unfold Rdiv. rewrite Rmult_assoc, Rinv_l by lra. lra. }
    split; [exact (Hq _ HA)|]. split; [exact (Hq _ HB)|].
    split; [exact (Hq _ HCc)|].
    assert (E : IZR a + IZR b + IZR c = IZR (count st)).
    { rewrite <- !plus_IZR. f_equal. lia. }
    replace (IZR a / IZR (count st) * 100 + IZR b / IZR (count st) * 100 +
             IZR c / IZR (count st) * 100)
      with ((IZR a + IZR b + IZR c) / IZR (count st) * 100) by (field; lra).
    rewrite E. field. lra.
Qed.

Lemma main_loop_quiet (sc : scenario) (n : nat) (frames : list bool) :
  forall st : sim_state,
  main_loop sc (replicate n false ++ frames) st =
    iterate_tick sc n st ≫= main_loop sc frames.
Proof.
  induction n as [|n IH]; intros st; cbn [replicate app main_loop iterate_tick].
  - reflexivity.
  - destruct (tick sc st) as [st'|e]; cbn; [apply IH | reflexivity].
Qed.

(** X10. The loop runs the iteration in which QUIT arrives to its end and
    then stops: with QUIT first seen in frame n + 1 it performs exactly
    n + 1 iterations, whatever events come later; and while no QUIT arrives
    it performs one iteration per frame. *)
Theorem main_loop_stops_after_quit
    (sc : scenario) (n : nat) (later : list bool) (st : sim_state) :
  main_loop sc (replicate n false ++ true :: later) st
    = iterate_tick sc (S n) st /\
  main_loop sc (replicate n false) st = iterate_tick sc n st.
Proof.
  split.
  - rewrite main_loop_quiet. revert st.
    induction n as [|n IH]; intros st.
    + cbn [iterate_tick]. rewrite (bind_Ok_l (Ok st) _ st eq_refl).
      cbn [main_loop]. destruct (tick sc st); reflexivity.
    + change (iterate_tick sc (S n) st)
        with (tick sc st ≫= fun st' => iterate_tick sc n st').
      change (iterate_tick sc (S (S n)) st)
        with (tick sc st ≫= fun st' => iterate_tick sc (S n) st').
      destruct (tick sc st) as [st'|e]; [|reflexivity].
      rewrite !(bind_Ok_l (Ok st') _ st' eq_refl). apply IH.
  - rewrite <- (app_nil_r (replicate n false)), main_loop_quiet.
    destruct (iterate_tick sc n st); reflexivity.
Qed.

(** ** Drawing *)

Lemma to_screen_dist (p q : R * R) :
  dist (to_screen p) (to_screen q) = SCALE * dist p q.
Proof.
  pose proof SCALE_pos as HS.
  unfold dist, to_screen; cbn [fst snd].
  replace ((p.1 * SCALE + IZR WIDTH / 2 - (q.1 * SCALE + IZR WIDTH / 2)) ^ 2 +
           (p.2 * SCALE + IZR HEIGHT / 2 - (q.2 * SCALE + IZR HEIGHT / 2)) ^ 2)
    with (SCALE ^ 2 * ((p.1 - q.1) ^ 2 + (p.2 - q.2) ^ 2)) by ring.
  rewrite sqrt_mult.
  - rewrite sqrt_pow2 by lra. reflexivity.
  - apply pow2_ge_0.
  - generalize (pow2_ge_0 (p.1 - q.1)) (pow2_ge_0 (p.2 - q.2)); lra.
Qed.

(** X11, over exact real arithmetic.  [draw_line] draws one segment, from
    the window position of the first body to that of the second; with
    floats read as real numbers its length in pixels is SCALE times the
    distance between the two bodies. *)
Theorem draw_line_to_scale
    (h : gmap loc object) (a b : loc) (c : Z * Z * Z) :
  is_Some (h !! a) -> is_Some (h !! b) ->
  exists s e : R * R,
    draw_line h a b c = Ok [Line c s e] /\
    s = to_screen (position_of h a) /\
    e = to_screen (position_of h b) /\
    dist s e = SCALE * distance h a b.
Proof.
  intros [oa Ha] [ob Hb].
  exists (to_screen (position_of h a)), (to_screen (position_of h b)).
  split; [|split; [reflexivity|split; [reflexivity|apply to_screen_dist]]].
  unfold draw_line.
  rewrite (bind_Ok_l _ _ _ (deref_Some _ _ _ Ha)).
  rewrite (bind_Ok_l _ _ _ (deref_Some _ _ _ Hb)).
  rewrite (position_of_Some _ _ _ Ha), (position_of_Some _ _ _ Hb).
  reflexivity.
Qed.

Lemma draw_line_to_scale_witness :
  exists s e : R * R,
    draw_line heap_ab 0 1 (value WHITE) = Ok [Line (value WHITE) s e] /\
    dist s e = SCALE * distance heap_ab 0 1.
Proof.
  destruct (draw_line_to_scale heap_ab 0 1 (value WHITE))
    as (s & e & H & _ & _ & Hd).
  - eexists; exact heap_ab_0.
  - eexists; exact heap_ab_1.
  - exists s, e. auto.
Defined.

Lemma updated_points_map (orbit : list (R * R)) :
  forall acc, updated_points orbit acc = acc ++ map to_screen orbit.
Proof.
  induction orbit as [|[x0 y0] rest IH]; intros acc; cbn [updated_points map].
  - rewrite app_nil_r. reflexivity.
  - rewrite IH, <- app_assoc. reflexivity.
Qed.

(** X12, over exact real arithmetic.  A body that is not a planet is drawn
    as one circle centred at its window position
    c = (x * SCALE + WIDTH / 2, y * SCALE + HEIGHT / 2), followed by its name
    [radius] pixels below c; a planet is drawn the same way, after the
    polyline of its trail when the trail has more than two points.  With
    floats read as real numbers c lies in the window, whose pixel columns
    and rows are 0 to 799, exactly when -2 AU <= x < 2 AU and
    -2 AU <= y < 2 AU. *)
Theorem body_on_screen_iff (b : CelestialObject) (pf : PlanetFields) :
  let c := to_screen (get_position b) in
  let body := [Circle (value (color b)) c (radius b);
               Blit (name b) true (value WHITE) (c.1, c.2 + IZR (radius b))] in
  CelestialObject_draw b = body /\
  Planet_draw b pf =
    (if (2 <? length (orbit pf))%nat
     then [Lines (value (color b)) false (map to_screen (orbit pf)) 1]
     else []) ++ body /\
  (0 <= c.1 < IZR WIDTH /\ 0 <= c.2 < IZR HEIGHT <->
   - (2 * AU) <= x b < 2 * AU /\ - (2 * AU) <= y b < 2 * AU).
Proof.
  intros c body. split; [reflexivity|]. split.
  - unfold Planet_draw. rewrite updated_points_map. reflexivity.
  - assert (HAU : 0 < AU) by (unfold AU; lra).
    assert (Hs : forall v, 0 <= v * SCALE + 800 / 2 < 800 <->
                           - (2 * AU) <= v < 2 * AU).
    { intros v. unfold SCALE.
      assert (E : v * (200 / AU) = 200 * (v / AU)) by (field; lra).
      rewrite E.
      assert (Hv : v / AU * AU = v) by (field; lra).
      split.
      - intros [H0 H1]. assert (H : -2 <= v / AU < 2) by lra.
        rewrite <- Hv. destruct H as [Ha Hb]. split; nra.
      - intros [Ha Hb]. assert (-2 <= v / AU < 2); [|lra]. split.
        + apply Rmult_le_reg_r with AU; [exact HAU|]. rewrite Hv. lra.
        + apply Rmult_lt_reg_r with AU; [exact HAU|]. rewrite Hv. lra. }
    unfold c, to_screen, get_position, WIDTH, HEIGHT; cbn [fst snd].
    rewrite (Hs (x b)), (Hs (y b)). reflexivity.
Qed.

Lemma trail_newest_point
    (h h' : gmap loc object) (self : loc) (bodies : list loc) :
  Planet_update_position h self bodies = Ok h' ->
  exists (o' : object) (pf' : PlanetFields),
    h' !! self = Some o' /\ planet o' = Some pf' /\
    last (orbit pf') = Some (get_position (base o')).
Proof.
  intros H. apply Planet_update_position_inv in H
    as (h1 & o1 & st & pf & _ & _ & _ & _ & ->).
  eexists _, _. split; [apply lookup_insert_eq|]. split; [reflexivity|].
  cbn [orbit base]. rewrite truncate_last; [apply last_snoc| |].
  - apply py_int_ge_0. apply Rmult_le_pos; [apply dist_nonneg|].
    apply Rlt_le, SCALE_pos.
  - intros E. apply app_eq_nil in E as [_ E]. discriminate.
Qed.

(** X13. After a step of a planet, drawing it paints its circle at its
    window position and, when the trail has more than two points, first a
    polyline through the window positions of all trail points in order,
    which ends at the centre of that circle. *)
Theorem trail_drawn_up_to_the_planet
    (h h' : gmap loc object) (p : loc) (bodies : list loc) :
  Planet_update_position h p bodies = Ok h' ->
  exists (o' : object) (pf' : PlanetFields),
    h' !! p = Some o' /\ planet o' = Some pf' /\
    let c := to_screen (get_position (base o')) in
    let pts := map to_screen (orbit pf') in
    draw h' p =
      Ok ((if (2 <? length (orbit pf'))%nat
           then [Lines (value (color (base o'))) false pts 1] else []) ++
          [Circle (value (color (base o'))) c (radius (base o'));
           Blit (name (base o')) true (value WHITE)
             (c.1, c.2 + IZR (radius (base o')))]) /\
    length pts = length (orbit pf') /\
    last pts = Some c.
Proof.
  intros H. destruct (trail_newest_point _ _ _ _ H) as (o' & pf' & Ho' & Hpf' & Hl).
  exists o', pf'. split; [exact Ho'|]. split; [exact Hpf'|]. cbv zeta.
  split; [|split].
  - unfold draw. rewrite (bind_Ok_l _ _ _ (deref_Some _ _ _ Ho')), Hpf'.
    unfold Planet_draw. rewrite updated_points_map. reflexivity.
  - apply length_map.
  - change (map to_screen (orbit pf')) with (to_screen <$> orbit pf').
    rewrite fmap_last, Hl. reflexivity.
Qed.

Lemma trail_drawn_up_to_the_planet_witness :
  exists (h' : gmap loc object) (o' : object) (pf' : PlanetFields),
    Planet_update_position heap_close 1 [0; 1]%nat = Ok h' /\
    h' !! 1%nat = Some o' /\ planet o' = Some pf' /\
    last (map to_screen (orbit pf')) = Some (to_screen (get_position (base o'))).
Proof.
  destruct planet_p_update as [h' H].
  destruct (trail_drawn_up_to_the_planet heap_close h' 1 [0; 1]%nat H)
    as (o' & pf' & Ho' & Hpf' & _ & _ & Hlast).
  exists h', o', pf'. auto.
Defined.

Lemma circle_centers_app (a b : list pygame_call) :
  circle_centers (a ++ b) = circle_centers a ++ circle_centers b.
Proof.
  induction a as [|c a IH]; [reflexivity|].
  destruct c; cbn [app circle_centers]; rewrite IH; reflexivity.
Qed.

Lemma draw_Ok (h : gmap loc object) (l : loc) :
  is_Some (h !! l) ->
  exists calls : list pygame_call,
    draw h l = Ok calls /\
    circle_centers calls = [to_screen (position_of h l)].
Proof.
  intros [o Ho]. unfold draw.
  rewrite (bind_Ok_l _ _ _ (deref_Some _ _ _ Ho)).
  rewrite (position_of_Some _ _ _ Ho).
  destruct (planet o) as [pf|]; eexists; (split; [reflexivity|]).
  - unfold Planet_draw. destruct (2 <? length (orbit pf))%nat; reflexivity.
  - reflexivity.
Qed.

Lemma draw_planets_Ok (h : gmap loc object) (ps : list loc) :
  (forall p, p ∈ ps -> is_Some (h !! p)) ->
  exists calls : list pygame_call,
    draw_planets h ps = Ok calls /\
    circle_centers calls = map (fun l => to_screen (position_of h l)) ps.
Proof.
  induction ps as [|p ps IH]; intros Hps; cbn [draw_planets map].
  - exists []. split; reflexivity.
  - destruct (draw_Ok h p) as (c1 & H1 & E1); [apply Hps; left|].
    destruct IH as (c2 & H2 & E2); [intros q Hq; apply Hps; right; exact Hq|].
    exists (c1 ++ c2). rewrite H1, H2. split; [reflexivity|].
    rewrite circle_centers_app, E1, E2. reflexivity.
Qed.

(** X14. Drawing a system whose star and planets are objects of the store
    raises nothing and paints exactly one circle per body, the star first
    and then the planets in list order, each at the window position of its
    body. *)
Theorem SolarSystem_draw_every_body
    (h : gmap loc object) (sys : SolarSystem) :
  is_Some (h !! star sys) ->
  (forall p, p ∈ planets sys -> is_Some (h !! p)) ->
  exists calls : list pygame_call,
    SolarSystem_draw h sys = Ok calls /\
    circle_centers calls =
      map (fun l => to_screen (position_of h l)) (star sys :: planets sys).
Proof.
  intros Hs Hp. unfold SolarSystem_draw.
  destruct (draw_Ok h (star sys) Hs) as (c1 & H1 & E1).
  destruct (draw_planets_Ok h (planets sys) Hp) as (c2 & H2 & E2).
  exists (c1 ++ c2). rewrite H1, H2. split; [reflexivity|].
  rewrite circle_centers_app, E1, E2. reflexivity.
Qed.

Lemma SolarSystem_draw_every_body_witness :
  exists calls : list pygame_call,
    SolarSystem_draw heap_close (mkSolarSystem "s" 0 [1]%nat) = Ok calls /\
    circle_centers calls =
      [to_screen (position_of heap_close 0); to_screen (position_of heap_close 1)].
Proof.
  apply (SolarSystem_draw_every_body heap_close (mkSolarSystem "s" 0 [1]%nat)).
  - eexists; exact heap_close_0.
  - intros p Hp. apply list_elem_of_singleton in Hp as ->.
    eexists; exact heap_close_1.
Defined.

(** ** The percentage labels *)

Lemma string_length_append (s1 s2 : string) :
  String.length (String.append s1 s2) = (String.length s1 + String.length s2)%nat.
Proof.
  induction s1 as [|c s1 IH]; [reflexivity|].
  change (S (String.length (String.append s1 s2))
          = S (String.length s1 + String.length s2)).
  f_equal. exact IH.
Qed.

Lemma spaces_length (n : nat) : String.length (spaces n) = n.
Proof.
  induction n as [|n IH]; [reflexivity|].
  change (S (String.length (spaces n)) = S n). f_equal. exact IH.
Qed.

Lemma ljust_length (s : string) (width : nat) :
  String.length (ljust s width) = Nat.max (String.length s) width.
Proof. unfold ljust. rewrite string_length_append, spaces_length. lia. Qed.

Lemma rjust_length (s : string) (width : nat) :
  String.length (rjust s width) = Nat.max (String.length s) width.
Proof. unfold rjust. rewrite string_length_append, spaces_length. lia. Qed.

Lemma py_round_percent (r : R) : 0 <= r <= 100 -> (0 <= py_round r <= 100)%Z.
Proof.
  intros [H0 H1]. unfold py_round.
  pose proof (Zfloor_bound r) as [Hf0 Hf1].
  assert (Hlo : (0 <= Zfloor r)%Z) by (apply Zfloor_lub; simpl; exact H0).
  assert (Hhi : (Zfloor r <= 100)%Z) by (apply le_IZR; lra).
  assert (Hstep : ~ r - IZR (Zfloor r) < 1 / 2 -> (Zfloor r + 1 <= 100)%Z).
  { intros Hn. assert (Zfloor r < 100)%Z; [|lia].
    apply lt_IZR. lra. }
  destruct (Rlt_dec (r - IZR (Zfloor r)) (1 / 2)) as [|Hn]; [lia|].
  specialize (Hstep Hn).
  destruct (Rlt_dec (1 / 2) (r - IZR (Zfloor r))); [lia|].
  destruct (Z.even (Zfloor r)); lia.
Qed.

Lemma str_percent_length (n : Z) :
  (0 <= n <= 100)%Z -> (String.length (str n) <= 3)%nat.
Proof.
  intros Hn.
  assert (Hall : forallb (fun k => String.length (str (Z.of_nat k)) <=? 3)%nat
                   (seq 0 101) = true) by (vm_compute; reflexivity).
  rewrite forallb_forall in Hall.
  specialize (Hall (Z.to_nat n)).
  rewrite Z2Nat.id in Hall by lia.
  apply Nat.leb_le, Hall, in_seq. lia.
Qed.

(** X15. The label of a planet: KeyError when the planet is no key of the
    dict, ZeroDivisionError when the key is there and count is 0; otherwise,
    for a count between 0 and count and a name of at most ten characters,
    a text of exactly fourteen characters. *)
Theorem format_percentage_text_width
    (h : gmap loc object) (d : gmap loc Z) (c : Z) (k : loc) (o : object) :
  h !! k = Some o ->
  (String.length (name (base o)) <= 10)%nat ->
  match d !! k with
  | None => format_percentage_text h d c k = Raise KeyError
  | Some v =>
      (c = 0%Z -> format_percentage_text h d c k = Raise ZeroDivisionError) /\
      ((0 <= v <= c)%Z -> (0 < c)%Z ->
       exists s : string,
         format_percentage_text h d c k = Ok s /\ String.length s = 14%nat)
  end.
Proof.
  intros Ho Hname. unfold format_percentage_text.
  rewrite (bind_Ok_l _ _ _ (deref_Some _ _ _ Ho)).
  destruct (d !! k) as [v|] eqn:Hv.
  - split.
    + intros ->. unfold format_percentage. rewrite Hv, py_div_zero. reflexivity.
    + intros Hvc Hc.
      rewrite (percentage_value d c k v Hv) by lia.
      rewrite (bind_Ok_l _ _ _ eq_refl).
      eexists. split; [reflexivity|].
      assert (Hp : 0 <= IZR v / IZR c * 100 <= 100).
      { assert (HC : 0 < IZR c) by (apply IZR_lt; exact Hc).
        assert (HV : 0 <= IZR v <= IZR c) by (split; apply IZR_le; lia).
        assert (0 <= IZR v / IZR c <= 1); [|lra]. split.
        - apply Rmult_le_pos; [lra | apply Rlt_le, Rinv_0_lt_compat, HC].
        - apply Rmult_le_reg_r with (IZR c); [exact HC|].
          unfold Rdiv. rewrite Rmult_assoc, Rinv_l by lra. lra. }
      pose proof (str_percent_length _ (py_round_percent _ Hp)) as Hs.
      rewrite !string_length_append, ljust_length, rjust_length. cbn. lia.
  - unfold format_percentage. rewrite Hv. reflexivity.
Qed.

Lemma format_percentage_text_width_witness :
  exists s : string,
    format_percentage_text store0 (<[1%nat := 1%Z]> counts0) 3 1 = Ok s /\
    String.length s = 14%nat.
Proof.
  pose proof (format_percentage_text_width store0 (<[1%nat := 1%Z]> counts0)
                3 1 mercury0 store0_1) as H.
  rewrite lookup_insert_eq in H.
  apply H; [cbn; lia | lia | lia].
Defined.

Lemma py_round_eq (r : R) (n : Z) :
  IZR n - 1 / 2 < r < IZR n + 1 / 2 -> py_round r = n.
Proof.
  intros [H0 H1]. unfold py_round.
  pose proof (Zfloor_bound r) as [Hf0 Hf1].
  assert (Hc : (Zfloor r = n \/ Zfloor r = n - 1)%Z).
  { assert (n - 1 <= Zfloor r)%Z.
    { apply Zfloor_lub. rewrite minus_IZR. lra. }
    assert (Zfloor r < n + 1)%Z; [|lia].
    apply lt_IZR. rewrite plus_IZR. lra. }
  destruct Hc as [E|E]; rewrite E in *.
  - destruct (Rlt_dec (r - IZR n) (1 / 2)); [reflexivity | lra].
  - rewrite minus_IZR in *.
    destruct (Rlt_dec (r - (IZR n - 1)) (1 / 2)); [lra|].
    destruct (Rlt_dec (1 / 2) (r - (IZR n - 1))); [lia | lra].
Qed.

Lemma py_round_half (n : Z) :
  py_round (IZR n + 1 / 2) = if Z.even n then n else (n + 1)%Z.
Proof.
  unfold py_round.
  assert (E : Zfloor (IZR n + 1 / 2) = n) by (apply Zfloor_eq; lra).
  rewrite E.
  destruct (Rlt_dec (IZR n + 1 / 2 - IZR n) (1 / 2)); [lra|].
  destruct (Rlt_dec (1 / 2) (IZR n + 1 / 2 - IZR n)); [lra | reflexivity].
Qed.

(** One nearest-neighbour count out of three ticks, and one out of eight:
    33.33 rounds to 33, and the half-way 12.5 to the even 12. *)
Example mercury_label_one_third :
  format_percentage_text store0 (<[1%nat := 1%Z]> counts0) 3 1
    = Ok "Mercury    33%"%string.
Proof.
  unfold format_percentage_text.
  rewrite (bind_Ok_l _ _ _ (deref_Some _ _ _ store0_1)).
  rewrite (percentage_value _ 3 1 1 (lookup_insert_eq _ _ _)) by lia.
  rewrite (bind_Ok_l _ _ _ eq_refl).
  rewrite (py_round_eq _ 33) by lra. reflexivity.
Qed.

Example mercury_label_one_eighth :
  format_percentage_text store0 (<[1%nat := 1%Z]> counts0) 8 1
    = Ok "Mercury    12%"%string.
Proof.
  unfold format_percentage_text.
  rewrite (bind_Ok_l _ _ _ (deref_Some _ _ _ store0_1)).
  rewrite (percentage_value _ 8 1 1 (lookup_insert_eq _ _ _)) by lia.
  rewrite (bind_Ok_l _ _ _ eq_refl).
  replace (1 / 8 * 100) with (IZR 12 + 1 / 2) by lra.
  rewrite py_round_half. reflexivity.
Qed.

(** ** The setters, composed *)

(** X16. On an object of the store both setters return: [set_position] the
    store in which [get_position] reads back the new coordinates,
    [set_velocity] the store in which the object has the new velocity and
    its old position.  A second [set_position] overrides the first; and
    [set_position] and [set_velocity] called one after the other return, in
    either order, the store in which the object has the new coordinates and
    the new velocity and is otherwise as it was. *)
Theorem setters_compose
    (h : gmap loc object) (self : loc) (o : object)
    (x1 y1 x2 y2 xv yv : R) :
  h !! self = Some o ->
  let both :=
    <[self := mkObject
        (mkCelestialObject (name (base o)) (radius (base o)) (color (base o))
           (mass (base o)) x1 y1 xv yv)
        (planet o)]> h in
  (exists h', set_position h self x1 y1 = Ok h' /\
              position_of h' self = (x1, y1)) /\
  (exists h' o', set_velocity h self xv yv = Ok h' /\
                 h' !! self = Some o' /\
                 (x_vel (base o'), y_vel (base o')) = (xv, yv) /\
                 get_position (base o') = get_position (base o)) /\
  (set_position h self x1 y1 ≫= fun h1 => set_position h1 self x2 y2)
    = set_position h self x2 y2 /\
  (set_position h self x1 y1 ≫= fun h1 => set_velocity h1 self xv yv)
    = Ok both /\
  (set_velocity h self xv yv ≫= fun h1 => set_position h1 self x1 y1)
    = Ok both.
Proof.
  intros Ho both. split; [|split; [|split; [|split]]].
  - eexists. split; [exact (set_position_Ok h self o x1 y1 Ho)|].
    unfold position_of. rewrite lookup_insert_eq. reflexivity.
  - eexists _, _. split; [exact (set_velocity_Ok h self o xv yv Ho)|].
    split; [apply lookup_insert_eq|]. split; reflexivity.
  - rewrite (bind_Ok_l _ _ _ (set_position_Ok h self o x1 y1 Ho)).
    rewrite (set_position_Ok _ self _ x2 y2 (lookup_insert_eq _ _ _)).
    rewrite (set_position_Ok h self o x2 y2 Ho).
    rewrite insert_insert_eq. reflexivity.
  - rewrite (bind_Ok_l _ _ _ (set_position_Ok h self o x1 y1 Ho)).
    rewrite (set_velocity_Ok _ self _ xv yv (lookup_insert_eq _ _ _)).
    rewrite insert_insert_eq. reflexivity.
  - rewrite (bind_Ok_l _ _ _ (set_velocity_Ok h self o xv yv Ho)).
    rewrite (set_position_Ok _ self _ x1 y1 (lookup_insert_eq _ _ _)).
    rewrite insert_insert_eq. reflexivity.
Qed.

Lemma setters_compose_witness :
  let both : gmap loc object :=
    <[0%nat := mkObject (mkCelestialObject "a" 1 WHITE 2 1 2 3 4) None]> heap_ab in
  (set_position heap_ab 0 1 2 ≫= fun h1 => set_velocity h1 0 3 4) = Ok both /\
  (set_velocity heap_ab 0 3 4 ≫= fun h1 => set_position h1 0 1 2) = Ok both.
Proof.
  intros both.
  exact (proj2 (proj2 (proj2 (setters_compose heap_ab 0 (mkObject body_a None)
                                1 2 0 0 3 4 heap_ab_0)))).
Defined.

(** ** How fast a trail can grow *)

Lemma truncate_length_le {A} (t : Z) (l : list A) :
  (length (truncate t l) <= length l)%nat.
Proof. apply suffix_length, truncate_suffix. Qed.

Lemma update_position_trail_length
    (h h' : gmap loc object) (self : loc) (bodies : list loc) (l : loc) :
  update_position h self bodies = Ok h' ->
  (l <> self -> trail_length h' l = trail_length h l) /\
  (trail_length h' l <= trail_length h l + 1)%nat.
Proof.
  intros H.
  assert (Hother : l <> self -> trail_length h' l = trail_length h l).
  { intros N. unfold trail_length.
    rewrite (proj1 (update_position_frame _ _ _ _ H) l N). reflexivity. }
  split; [exact Hother|].
  destruct (decide (l = self)) as [->|N]; [|rewrite (Hother N); lia].
  unfold update_position in H.
  apply bind_Ok_inv in H as (o & Ho & H). apply deref_Ok_inv in Ho.
  destruct (planet o) as [pf|] eqn:Hpf.
  - apply Planet_update_position_inv in H
      as (h1 & o1 & st & pf1 & H1 & Ho1 & Hpf1 & _ & ->).
    apply CelestialObject_update_position_step in H1
      as (o0 & fx & fy & Ho0 & _ & ->).
    rewrite Ho in Ho0. injection Ho0 as <-.
    rewrite lookup_insert_eq in Ho1. injection Ho1 as <-.
    cbn [planet] in Hpf1. rewrite Hpf in Hpf1. injection Hpf1 as <-.
    unfold trail_length. rewrite lookup_insert_eq, Ho, Hpf. cbn [planet orbit].
    etransitivity; [apply truncate_length_le|]. rewrite length_app. cbn. lia.
  - apply CelestialObject_update_position_step in H
      as (o0 & fx & fy & Ho0 & _ & ->).
    rewrite Ho in Ho0. injection Ho0 as <-.
    unfold trail_length. rewrite lookup_insert_eq, Ho. cbn [planet].
    rewrite Hpf. lia.
Qed.

Lemma update_planets_trail_length (bodies ps : list loc) (l : loc) :
  forall h h' : gmap loc object,
  NoDup ps -> update_planets h bodies ps = Ok h' ->
  (l ∉ ps -> trail_length h' l = trail_length h l) /\
  (trail_length h' l <= trail_length h l + 1)%nat.
Proof.
  induction ps as [|p ps IH]; intros h h' Hnd H; cbn [update_planets] in H.
  - injection H as <-. split; [reflexivity | lia].
  - apply NoDup_cons in Hnd as [Hp Hnd].
    apply bind_Ok_inv in H as (h1 & H1 & H).
    destruct (update_position_trail_length _ _ _ _ l H1) as [E1 L1].
    destruct (IH _ _ Hnd H) as [E2 L2].
    split.
    + intros Hn. rewrite E2, E1; [reflexivity| |];
        intros Hin; apply Hn; [subst; left | right; exact Hin].
    + destruct (decide (l = p)) as [->|N].
      * rewrite (E2 Hp). exact L1.
      * rewrite <- (E1 N). exact L2.
Qed.

(** X17. In a tick of a system that lists no body twice, every trail gains
    at most one point; and an object that is neither the star nor one of
    the planets is left exactly as it was, its trail included. *)
Theorem update_positions_trail_growth
    (h h' : gmap loc object) (sys : SolarSystem) (l : loc) :
  NoDup (star sys :: planets sys) ->
  update_positions h sys = Ok h' ->
  (trail_length h' l <= trail_length h l + 1)%nat /\
  (l <> star sys -> l ∉ planets sys ->
   h' !! l = h !! l /\ trail_length h' l = trail_length h l).
Proof.
  intros Hnd H. apply NoDup_cons in Hnd as [Hs Hnd].
  unfold update_positions in H.
  apply bind_Ok_inv in H as (h0 & H0 & H).
  destruct (update_position_trail_length _ _ _ _ l H0) as [E1 L1].
  destruct (update_planets_trail_length _ _ l _ _ Hnd H) as [E2 L2].
  split.
  - destruct (decide (l = star sys)) as [->|N].
    + rewrite (E2 Hs). exact L1.
    + rewrite <- (E1 N). exact L2.
  - intros N Hn. split.
    + rewrite (update_planets_frame _ _ _ _ l H Hn).
      exact (proj1 (update_position_frame _ _ _ _ H0) l N).
    + rewrite (E2 Hn), (E1 N). reflexivity.
Qed.

Lemma update_positions_trail_growth_witness :
  exists h' : gmap loc object,
    update_positions heap_close (mkSolarSystem "s" 0 [1]%nat) = Ok h' /\
    (trail_length h' 1 <= trail_length heap_close 1 + 1)%nat /\
    h' !! 2%nat = heap_close !! 2%nat.
Proof.
  destruct planet_step_sees_moved_star as (h' & o & H & _).
  assert (Hnd : NoDup (star (mkSolarSystem "s" 0 [1]%nat)
                       :: planets (mkSolarSystem "s" 0 [1]%nat))).
  { cbn [star planets]. repeat constructor; set_solver. }
  exists h'. split; [exact H|]. split.
  - exact (proj1 (update_positions_trail_growth heap_close h' _ 1 Hnd H)).
  - apply (proj2 (update_positions_trail_growth heap_close h' _ 2 Hnd H)).
    + discriminate.
    + cbn [planets]. set_solver.
Defined.

(** ** What the loop of the default scenario keeps *)

Lemma update_positions_same_body
    (h h' : gmap loc object) (sys : SolarSystem) (l : loc) (o : object) :
  update_positions h sys = Ok h' -> h !! l = Some o ->
  exists o', h' !! l = Some o' /\ same_body o o'.
Proof.
  intros H Hl. unfold update_positions in H.
  apply bind_Ok_inv in H as (h0 & H0 & H).
  destruct (update_position_same_body _ _ _ _ l o H0 Hl) as (o1 & Hl1 & S1 & _).
  destruct (update_planets_same_body _ _ _ _ l o1 H Hl1) as (o' & Hl' & S' & _).
  exists o'. split; [exact Hl' | exact (same_body_trans _ _ _ S1 S')].
Qed.

Lemma update_positions_trail_step
    (h h' : gmap loc object) (l : loc) :
  update_positions h (solar_system scenario0) = Ok h' ->
  (trail_length h' l <= trail_length h l + 1)%nat.
Proof.
  intros H. unfold update_positions in H.
  cbn [star planets solar_system scenario0] in H.
  apply bind_Ok_inv in H as (h0 & H0 & H).
  destruct (update_position_trail_length _ _ _ _ l H0) as [E1 L1].
  assert (Hnd : NoDup [1; 2; 3; 4]%nat) by (repeat constructor; set_solver).
  destruct (update_planets_trail_length _ _ l _ _ Hnd H) as [E2 L2].
  destruct (decide (l = 0%nat)) as [->|N].
  - rewrite E2 by set_solver. exact L1.
  - rewrite <- (E1 N). exact L2.
Qed.

Lemma reachable_bodies (st : sim_state) :
  reachable scenario0 state0 st ->
  forall (l : loc) (o0 : object), store0 !! l = Some o0 ->
    exists o, store st !! l = Some o /\ same_body o0 o.
Proof.
  induction 1 as [|st st' _ IH Ht]; intros l o0 Hl.
  - exists o0. split; [exact Hl | apply same_body_refl].
  - destruct (IH l o0 Hl) as (o & Ho & S).
    apply tick_inv in Ht as (h & Hh & Ht).
    apply tally_inv in Ht as (p & v & _ & _ & ->). cbn [store].
    destruct (update_positions_same_body _ _ _ l o Hh Ho) as (o' & Ho' & S').
    exists o'. split; [exact Ho' | exact (same_body_trans _ _ _ S S')].
Qed.

Lemma reachable_trails (st : sim_state) :
  reachable scenario0 state0 st ->
  forall l : loc, (Z.of_nat (trail_length (store st) l) <= count st)%Z.
Proof.
  induction 1 as [|st st' Hr IH Ht]; intros l.
  - cbn [store count state0]. unfold trail_length.
    destruct (store0 !! l) as [o|] eqn:Hl; [|lia].
    apply store0_lookup_inv in Hl
      as [[_ ->]|[[_ ->]|[[_ ->]|[[_ ->]|[_ ->]]]]]; cbn; lia.
  - destruct (tick_invariant st st' (reachable_invariant st Hr) Ht) as [_ Hc].
    apply tick_inv in Ht as (h & Hh & Ht).
    apply tally_inv in Ht as (p & v & _ & _ & ->). cbn [store count] in *.
    pose proof (update_positions_trail_step _ _ l Hh). specialize (IH l). lia.
Qed.

(** X18. Throughout the run of the default scenario every body keeps the
    name, radius, colour, mass, class and parent star it was built with, so
    every mass stays positive; and no trail has more points than iterations
    have run. *)
Theorem default_scenario_keeps_bodies :
  exists (sc : scenario) (st0 : sim_state),
    setup = Ok (sc, st0) /\
    forall st, reachable sc st0 st ->
    forall (l : loc) (o : object), store st !! l = Some o ->
      (exists o0, store st0 !! l = Some o0 /\ same_body o0 o) /\
      0 < mass (base o) /\
      (Z.of_nat (trail_length (store st) l) <= count st)%Z.
Proof.
  exists scenario0, state0. split; [exact setup_eq|].
  intros st Hr l o Hl. cbn [store state0].
  destruct (reachable_invariant st Hr) as (Hd & _).
  assert (Hl0 : is_Some (store0 !! l)).
  { apply elem_of_dom. rewrite <- Hd. apply elem_of_dom. eexists; exact Hl. }
  destruct Hl0 as [o0 Hl0].
  destruct (reachable_bodies st Hr l o0 Hl0) as (o' & Ho' & S).
  rewrite Hl in Ho'. injection Ho' as <-.
  split; [exists o0; split; [exact Hl0 | exact S]|].
  split; [|exact (reachable_trails st Hr l)].
  destruct S as (_ & _ & _ & Hm & _). rewrite Hm.
  apply store0_lookup_inv in Hl0
    as [[_ ->]|[[_ ->]|[[_ ->]|[[_ ->]|[_ ->]]]]]; cbn; lra.
Qed.
